(** * TunnelDesigner: the geometry engine (src/utils/geometry.js)

    A shallow embedding of the geometric computation engine of the tunnel
    designer, and the properties of it that the specification states.

    Numbers.  The JavaScript source computes on IEEE doubles.  The
    specification's data model is real-valued ("real-valued plane
    coordinates", angles in radians), and this development follows it:
    a JavaScript number is a real number of [R], [Math.sqrt], [Math.cos],
    [Math.sin], [Math.asin] are the functions of the Reals library, and
    [Math.hypot], [Math.atan2], [%], [Math.ceil] are defined below from
    them.  NaN, the infinities and rounding are outside the model.

    Objects.  An axis or profile segment is [{type, start, end, radius}]
    with [type] one of ['line'] and ['arc'] (the two editors build no
    other); [null] results are [None]. *)

From Stdlib Require Import Reals Lra Lia List String ZArith Bool.
From Stdlib Require Import Sorting.Sorted Sorting.Permutation.
Import ListNotations.

Open Scope R_scope.

(* ================================================================= *)
(** ** JavaScript numeric primitives over the reals *)

Module JS.

(** Comparisons, as the booleans the source branches on. *)
Definition ltb (a b : R) : bool := if Rlt_dec a b then true else false.
Definition leb (a b : R) : bool := if Rle_dec a b then true else false.
Definition gtb (a b : R) : bool := ltb b a.
Definition geb (a b : R) : bool := leb b a.
(** [a === b] on numbers. *)
Definition eqb (a b : R) : bool := if Req_dec_T a b then true else false.

(** Truthiness of a number: every number but 0 (and NaN) is truthy. *)
Definition truthy (a : R) : bool := negb (eqb a 0).

(** [a || d] on numbers: [a] when truthy, else [d]. *)
Definition orElse (a d : R) : R := if truthy a then a else d.

(** [o.field || d] where the field may be absent ([undefined]). *)
Definition optOr (a : option R) (d : R) : R :=
  match a with
  | Some v => orElse v d
  | None => d
  end.

(** [Math.hypot]. *)
Definition hypot (a b : R) : R := sqrt (a * a + b * b).
Definition hypot3 (a b c : R) : R := sqrt (a * a + b * b + c * c).

(** [Math.atan2 y x], with values in (-PI, PI]. *)
Definition atan2 (y x : R) : R :=
  if ltb 0 x then atan (y / x)
  else if ltb x 0 then
    (if leb 0 y then atan (y / x) + PI else atan (y / x) - PI)
  else if ltb 0 y then PI / 2
  else if ltb y 0 then - (PI / 2)
  else 0.

(** Truncation toward zero, then the remainder [a % b], which has the
    sign of the dividend. *)
Definition trunc (a : R) : R :=
  if leb 0 a then IZR (Int_part a) else - IZR (Int_part (- a)).
Definition fmod (a b : R) : R := a - b * trunc (a / b).

(** [Math.ceil]. *)
Definition ceil (a : R) : R := - IZR (Int_part (- a)).

(** How many times the body of [for (i = 1; i <= n; i++)] runs. *)
Definition loopCount (n : R) : nat := Z.to_nat (Int_part n).

End JS.

Infix "<?" := JS.ltb (at level 70, no associativity) : R_scope.
Infix "<=?" := JS.leb (at level 70, no associativity) : R_scope.
Infix ">?" := JS.gtb (at level 70, no associativity) : R_scope.
Infix ">=?" := JS.geb (at level 70, no associativity) : R_scope.
Infix "=?" := JS.eqb (at level 70, no associativity) : R_scope.

(* ================================================================= *)
(** ** Data model *)

Record Point2D : Type := mkPoint2D { x : R; y : R }.

Record Point3D : Type := mkPoint3D { x3 : R; y3 : R; z3 : R }.

(** A segment of an axis or of a profile. *)
Inductive Segment : Type :=
| Line (start end_ : Point2D)
| Arc (start end_ : Point2D) (radius : R).

Definition segStart (seg : Segment) : Point2D :=
  match seg with
  | Line s _ => s
  | Arc s _ _ => s
  end.

Definition segEnd (seg : Segment) : Point2D :=
  match seg with
  | Line _ e => e
  | Arc _ e _ => e
  end.

Definition ProfileId : Type := string.

Record Profile : Type := mkProfile { id : ProfileId; segments : list Segment }.

(** [{length, profileId}]; [profileId] may be [null]. *)
Record ProfileAssignment : Type :=
  mkProfileAssignment { pa_length : R; profileId : option ProfileId }.

(** [{length, height}]. *)
Record HeightAssignment : Type :=
  mkHeightAssignment { ha_length : R; height : R }.

(** The sampling options [{maxChord, minArcSteps}], each may be absent. *)
Record Options : Type :=
  mkOptions { maxChord : option R; minArcSteps : option R }.

Definition noOptions : Options := mkOptions None None.

(** One entry of the merge: [{angle, point1, point2}]. *)
Record MergedPointPair : Type :=
  mkMerged { angle : R; point1 : Point2D; point2 : Point2D }.

(** The hit of a ray on a segment: [{t, point}]. *)
Record Hit : Type := mkHit { hit_t : R; hit_point : Point2D }.

Record Frame : Type :=
  mkFrame { xAxis : Point3D; yAxis : Point3D; direction : Point3D }.

(** The result of [buildProfileSection3DRange]. *)
Record Section3D : Type :=
  mkSection3D {
    frame : Frame;
    centerA : Point3D;
    centerB : Point3D;
    profile1Points : list Point3D;
    profile2Points : list Point3D
  }.

(* ================================================================= *)
(** ** [Array.prototype.sort] with a comparator [(a, b) => key a - key b]

    The sort is stable; on a list it is the insertion sort that places an
    element before the first one with a key not smaller than its own. *)

Section Sort.
Context {A : Type} (key : A -> R).

Fixpoint insertBy (a : A) (l : list A) : list A :=
  match l with
  | [] => [a]
  | b :: l' => if key a <=? key b then a :: b :: l' else b :: insertBy a l'
  end.

Fixpoint sortBy (l : list A) : list A :=
  match l with
  | [] => []
  | a :: l' => insertBy a (sortBy l')
  end.
End Sort.

(* ================================================================= *)
(** ** Arc primitives *)

Definition calculateArcCenter (start end_ : Point2D) (radius : R)
  : option Point2D :=
  let absR := Rabs radius in
  if negb (JS.truthy absR) then None
  else
    let dx := x end_ - x start in
    let dy := y end_ - y start in
    let dist := sqrt (dx * dx + dy * dy) in
    if (dist >? 2 * absR) || (dist =? 0) then None
    else
      let midX := (x start + x end_) / 2 in
      let midY := (y start + y end_) / 2 in
      let h := sqrt (absR * absR - (dist / 2) * (dist / 2)) in
      let perpX := - dy / dist in
      let perpY := dx / dist in
      let sign := if radius >=? 0 then 1 else -1 in
      Some {| x := midX + sign * h * perpX; y := midY + sign * h * perpY |}.

(** The start angle and the signed sweep of an arc around its centre, as
    [getPositionAtLength] and [sampleProfilePoints] both compute them:
    a positive radius sweeps counter-clockwise, a negative one clockwise. *)
Definition arcStartAngle (start center : Point2D) : R :=
  JS.atan2 (y start - y center) (x start - x center).

Definition arcAngleDiff (start end_ center : Point2D) (radius : R) : R :=
  let startA := arcStartAngle start center in
  let endA := JS.atan2 (y end_ - y center) (x end_ - x center) in
  let angleDiff := endA - startA in
  let angleDiff :=
    if (radius >? 0) && (angleDiff <? 0) then angleDiff + 2 * PI
    else angleDiff in
  let angleDiff :=
    if (radius <? 0) && (angleDiff >? 0) then angleDiff - 2 * PI
    else angleDiff in
  angleDiff.

(** The point of the circle at angle [ang]. *)
Definition arcPoint (center : Point2D) (absR ang : R) : Point2D :=
  {| x := x center + absR * cos ang; y := y center + absR * sin ang |}.

(* ================================================================= *)
(** ** Axis sampler *)

(** The loop of [getPositionAtLength]: [Some p] when it returns [p] from
    inside the loop, [None] when it runs off the end of the axis. *)
Fixpoint walkAxis (axisData : list Segment) (remaining : R)
  : option Point2D :=
  match axisData with
  | [] => None
  | Line s e :: rest =>
      let dx := x e - x s in
      let dy := y e - y s in
      let L := JS.hypot dx dy in
      if remaining <=? L then
        let t := if L =? 0 then 0 else remaining / L in
        Some {| x := x s + dx * t; y := y s + dy * t |}
      else walkAxis rest (remaining - L)
  | Arc s e radius :: rest =>
      if JS.truthy radius then
        match calculateArcCenter s e radius with
        | None => walkAxis rest remaining
        | Some center =>
            let absR := Rabs radius in
            let startA := arcStartAngle s center in
            let angleDiff := arcAngleDiff s e center radius in
            let arcLen := Rabs angleDiff * absR in
            if remaining <=? arcLen then
              let t := if arcLen =? 0 then 0 else remaining / arcLen in
              let ang := startA + angleDiff * t in
              Some (arcPoint center absR ang)
            else walkAxis rest (remaining - arcLen)
        end
      else walkAxis rest remaining
  end.

Definition getPositionAtLength (axisData : list Segment) (len : R)
  : Point2D :=
  match axisData with
  | [] => {| x := 0; y := 0 |}
  | seg0 :: _ =>
      match walkAxis axisData len with
      | Some p => p
      | None =>
          let last := List.last axisData seg0 in
          {| x := JS.orElse (x (segEnd last)) 0;
             y := JS.orElse (y (segEnd last)) 0 |}
      end
  end.

(** What one segment adds to the sum of [computeAxisTotalLength]. *)
Definition segmentTotalLength (seg : Segment) : R :=
  match seg with
  | Line s e =>
      let dx := x e - x s in
      let dy := y e - y s in
      JS.hypot dx dy
  | Arc s e radius =>
      if JS.truthy radius then
        let dx := x e - x s in
        let dy := y e - y s in
        let chord := JS.hypot dx dy in
        if chord =? 0 then 0
        else
          let angle := 2 * asin (Rmin 1 (chord / (2 * Rabs radius))) in
          Rabs radius * angle
      else 0
  end.

Definition computeAxisTotalLength (axisData : list Segment) : R :=
  fold_left (fun sum seg => sum + segmentTotalLength seg) axisData 0.

(** The loop of [getHeightAtLength] over [sorted[1..]]: the last entry
    whose length is at most [len + 1e-6], and the entry that stopped the
    loop, if any. *)
Fixpoint scanHeights (rest : list HeightAssignment) (len : R)
  (chosen : HeightAssignment) : HeightAssignment * option HeightAssignment :=
  match rest with
  | [] => (chosen, None)
  | h :: rest' =>
      if ha_length h <=? len + 1e-6 then scanHeights rest' len h
      else (chosen, Some h)
  end.

Definition getHeightAtLength (heightAssignments : list HeightAssignment)
  (len : R) : R :=
  match sortBy ha_length heightAssignments with
  | [] => 0
  | first :: rest =>
      let (chosen, current) := scanHeights rest len first in
      match current with
      | None => JS.orElse (height chosen) 0
      | Some current =>
          if ha_length chosen >=? len then JS.orElse (height chosen) 0
          else
            (len - ha_length chosen) / (ha_length current - ha_length chosen)
            * (height current - height chosen) + height chosen
      end
  end.

Definition getAxis3DPointsAtLength (axisData : list Segment)
  (heightAssignments : list HeightAssignment) (length : R) : Point3D :=
  let totalLength := computeAxisTotalLength axisData in
  let clamped := Rmax 0 (Rmin length totalLength) in
  let pos2d := getPositionAtLength axisData clamped in
  let h := getHeightAtLength heightAssignments clamped in
  {| x3 := x pos2d; y3 := h; z3 := y pos2d |}.

(* ================================================================= *)
(** ** 3D sweep frame *)

Definition normalizeVec3 (v : Point3D) : Point3D :=
  let len := JS.hypot3 (x3 v) (y3 v) (z3 v) in
  if negb (JS.truthy len) then {| x3 := 0; y3 := 0; z3 := 0 |}
  else {| x3 := x3 v / len; y3 := y3 v / len; z3 := z3 v / len |}.

Definition cross (a b : Point3D) : Point3D :=
  {| x3 := y3 a * z3 b - z3 a * y3 b;
     y3 := z3 a * x3 b - x3 a * z3 b;
     z3 := x3 a * y3 b - y3 a * x3 b |}.

Definition dot (a b : Point3D) : R :=
  x3 a * x3 b + y3 a * y3 b + z3 a * z3 b.

Definition negVec3 (v : Point3D) : Point3D :=
  {| x3 := - x3 v; y3 := - y3 v; z3 := - z3 v |}.

Definition buildPerpendicularAxes (p1 p2 : Point3D) : Frame :=
  let dir :=
    normalizeVec3
      {| x3 := x3 p2 - x3 p1; y3 := y3 p2 - y3 p1; z3 := z3 p2 - z3 p1 |} in
  let globalX := {| x3 := 1; y3 := 0; z3 := 0 |} in
  let projLen := dot globalX dir in
  if projLen <? 1e-6 then
    let xAxis := globalX in
    let yAxis := normalizeVec3 (cross dir globalX) in
    if y3 yAxis <? 0 then
      {| xAxis := negVec3 xAxis; yAxis := negVec3 yAxis; direction := dir |}
    else {| xAxis := xAxis; yAxis := yAxis; direction := dir |}
  else
    let xAxis := {| x3 := - z3 dir; y3 := 0; z3 := x3 dir |} in
    let xAxis := normalizeVec3 xAxis in
    let yAxis := cross dir xAxis in
    let yAxis := normalizeVec3 yAxis in
    if y3 yAxis <? 0 then
      {| xAxis := negVec3 xAxis; yAxis := negVec3 yAxis; direction := dir |}
    else {| xAxis := xAxis; yAxis := yAxis; direction := dir |}.

(* ================================================================= *)
(** ** Profile sampler *)

(** The points one segment pushes (the start point that the first segment
    pushes before them is added by [sampleProfilePoints]). *)
Definition sampleSegment (maxChord minArcSteps : R) (seg : Segment)
  : list Point2D :=
  match seg with
  | Line _ e => [ {| x := x e; y := y e |} ]
  | Arc s e radius =>
      if negb (JS.truthy radius) then [ {| x := x e; y := y e |} ]
      else
        match calculateArcCenter s e radius with
        | None => [ {| x := x e; y := y e |} ]
        | Some center =>
            let absR := Rabs radius in
            let startA := arcStartAngle s center in
            let angleDiff := arcAngleDiff s e center radius in
            let arcLength := Rabs angleDiff * absR in
            let steps :=
              Rmax minArcSteps (JS.ceil (arcLength / Rmax 0.1 maxChord)) in
            map (fun i =>
                   let t := INR i / steps in
                   let ang := startA + angleDiff * t in
                   arcPoint center absR ang)
                (seq 1 (JS.loopCount steps))
        end
  end.

(** The closing step: with more than one point, the first point is
    appended again when it is further than 1e-6 from the last. *)
Definition closePolyline (pts : list Point2D) : list Point2D :=
  match pts with
  | first :: _ :: _ =>
      let last := List.last pts first in
      let gap := JS.hypot (x first - x last) (y first - y last) in
      if gap >? 1e-6 then pts ++ [ {| x := x first; y := y first |} ]
      else pts
  | _ => pts
  end.

Definition sampleProfilePoints (profile : Profile) (options : Options)
  : list Point2D :=
  match segments profile with
  | [] => []
  | seg0 :: _ =>
      let maxChord := JS.optOr (maxChord options) 5 in
      let minArcSteps := JS.optOr (minArcSteps options) 4 in
      let pts :=
        {| x := x (segStart seg0); y := y (segStart seg0) |}
        :: flat_map (sampleSegment maxChord minArcSteps) (segments profile) in
      closePolyline pts
  end.

(* ================================================================= *)
(** ** Cross-profile merger *)

Definition raySegmentIntersection (origin dir a b : Point2D) : option Hit :=
  let sx := x b - x a in
  let sy := y b - y a in
  let denom := x dir * sy - y dir * sx in
  if Rabs denom <? 1e-9 then None
  else
    let t := (x a * sy - y a * sx) / denom in
    let u := (x a * y dir - y a * x dir) / denom in
    if (t <? - 1e-9) || (u <? - 1e-9) || (u >? 1 + 1e-9) then None
    else
      Some {| hit_t := t;
              hit_point := {| x := x origin + x dir * t;
                              y := y origin + y dir * t |} |}.

Definition compute2DCentroid (points : list Point2D) : Point2D :=
  match points with
  | [] => {| x := 0; y := 0 |}
  | _ =>
      let sumX := fold_left (fun s p => s + JS.orElse (x p) 0) points 0 in
      let sumY := fold_left (fun s p => s + JS.orElse (y p) 0) points 0 in
      let n := INR (List.length points) in
      {| x := sumX / n; y := sumY / n |}
  end.

(** The consecutive pairs [(pts[i], pts[i+1])], [0 <= i < length - 1]. *)
Fixpoint consecutive (pts : list Point2D) : list (Point2D * Point2D) :=
  match pts with
  | a :: ((b :: _) as rest) => (a, b) :: consecutive rest
  | _ => []
  end.

(** One turn of the loop of [intersectProfileWithRay]. *)
Definition betterHit (origin dir : Point2D) (best : option Hit)
  (ab : Point2D * Point2D) : option Hit :=
  match raySegmentIntersection origin dir (fst ab) (snd ab) with
  | Some hit =>
      if (hit_t hit >=? 0)
         && (match best with
             | None => true
             | Some b => hit_t hit <? hit_t b
             end)
      then Some hit
      else best
  | None => best
  end.

Definition intersectProfileWithRay (targetPoint : Point2D)
  (sampledPoints : list Point2D) (options : Options) : option Point2D :=
  let pts := sampledPoints in
  match pts with
  | [] => None
  | _ =>
      if negb (JS.truthy (x targetPoint)) && negb (JS.truthy (y targetPoint))
      then None
      else
        let centroid := compute2DCentroid pts in
        let dirVec := {| x := x targetPoint; y := y targetPoint |} in
        let mag := JS.hypot (x dirVec) (y dirVec) in
        if mag <? 1e-9 then None
        else
          let dir := {| x := x dirVec / mag; y := y dirVec / mag |} in
          let origin := centroid in
          let best := fold_left (betterHit origin dir) (consecutive pts) None in
          match best with
          | Some b => Some (hit_point b)
          | None => None
          end
  end.

Definition normalizeAngle (angle : R) : R :=
  let twoPi := 2 * PI in
  let a := JS.fmod angle twoPi in
  if a <? 0 then a + twoPi else a.

(** The inner function [collect] of [mergeProfilesByAngle]: the entries
    one pass pushes onto [merged]. *)
Definition collect (options : Options) (sourcePts otherPts : list Point2D)
  (isSourceProfile1 : bool) : list MergedPointPair :=
  flat_map
    (fun pt =>
       let centroid := compute2DCentroid sourcePts in
       let rpt := {| x := x pt - x centroid; y := y pt - y centroid |} in
       match intersectProfileWithRay rpt otherPts options with
       | None => []
       | Some match_ =>
           if isSourceProfile1 then
             let angle := normalizeAngle (JS.atan2 (y pt) (x pt)) in
             [ {| angle := angle; point1 := pt; point2 := match_ |} ]
           else
             let angle := normalizeAngle (JS.atan2 (y match_) (x match_)) in
             [ {| angle := angle; point1 := match_; point2 := pt |} ]
       end)
    sourcePts.

Definition mergeProfilesByAngle (profile1 profile2 : Profile)
  (options : Options) : list MergedPointPair :=
  let pts1 := sampleProfilePoints profile1 options in
  let pts2 := sampleProfilePoints profile2 options in
  let merged :=
    collect options pts1 pts2 true ++ collect options pts2 pts1 false in
  sortBy angle merged.

(* ================================================================= *)
(** ** Length interpolator *)

Definition findProfile (profiles : list Profile) (pid : option ProfileId)
  : option Profile :=
  match pid with
  | Some i => find (fun p => String.eqb (id p) i) profiles
  | None => None
  end.

(** [prev.profileId === next.profileId]. *)
Definition sameProfileId (a b : option ProfileId) : bool :=
  match a, b with
  | Some i, Some j => String.eqb i j
  | None, None => true
  | _, _ => false
  end.

(** The bracketing loop of [interpolateProfileAtLength]: the first
    consecutive pair of [sorted] whose lengths enclose [length]. *)
Fixpoint findBracket (sorted : list ProfileAssignment) (length : R)
  : option (ProfileAssignment * ProfileAssignment) :=
  match sorted with
  | a :: ((b :: _) as rest) =>
      if (pa_length a <=? length) && (length <=? pa_length b)
      then Some (a, b)
      else findBracket rest length
  | _ => None
  end.

Definition interpolateProfileAtLength (length : R)
  (profileAssignments : list ProfileAssignment) (profiles : list Profile)
  (options : Options) (isStart : bool) : option (list Point2D) :=
  match sortBy pa_length profileAssignments with
  | [] => None
  | (first :: _) as sorted =>
      let last := List.last sorted first in
      let length := if negb isStart then length - 1e-8 else length in
      let (prev, next) :=
        match findBracket sorted length with
        | Some pn => pn
        | None => (first, last)
        end in
      let (prev, next) :=
        if length <? pa_length first - 1e-9 then (first, first)
        else (prev, next) in
      let (prev, next) :=
        if length >? pa_length last + 1e-9 then (last, last)
        else (prev, next) in
      match findProfile profiles (profileId prev),
            findProfile profiles (profileId next) with
      | Some p1, Some p2 =>
          if (pa_length prev =? pa_length next)
             || sameProfileId (profileId prev) (profileId next)
          then Some (sampleProfilePoints p1 options)
          else
            let t :=
              Rmax 0 (Rmin 1 ((length - pa_length prev)
                              / (pa_length next - pa_length prev))) in
            let merged := mergeProfilesByAngle p1 p2 options in
            match merged with
            | [] => None
            | _ =>
                Some (map (fun m =>
                             {| x := x (point1 m) * (1 - t) + x (point2 m) * t;
                                y := y (point1 m) * (1 - t) + y (point2 m) * t |})
                          merged)
            end
      | _, _ => None
      end
  end.

(* ================================================================= *)
(** ** 3D sweep builder *)

Definition projectProfile (center : Point3D) (pts : list Point2D)
  (frame : Frame) : list Point3D :=
  let xAxis := xAxis frame in
  let yAxis := yAxis frame in
  map (fun pt =>
         {| x3 := x3 center + x3 xAxis * x pt + x3 yAxis * y pt;
            y3 := y3 center + y3 xAxis * x pt + y3 yAxis * y pt;
            z3 := z3 center + z3 xAxis * x pt + z3 yAxis * y pt |})
      pts.

(** An array is truthy even when empty; [!a.length] is true on the empty
    array. *)
Definition isEmpty {A : Type} (l : list A) : bool :=
  match l with
  | [] => true
  | _ => false
  end.

(** [lengthC] is the optional seventh argument: [None] when the caller
    passes [null] or nothing. *)
Definition buildProfileSection3DRange (axisData : list Segment)
  (heightAssignments : list HeightAssignment)
  (profileAssignments : list ProfileAssignment) (profiles : list Profile)
  (lengthA lengthB : R) (lengthC : option R) (options : Options)
  : option Section3D :=
  let centerA := getAxis3DPointsAtLength axisData heightAssignments lengthA in
  let centerB := getAxis3DPointsAtLength axisData heightAssignments lengthB in
  let centerC :=
    match lengthC with
    | Some c =>
        if JS.truthy c
        then Some (getAxis3DPointsAtLength axisData heightAssignments c)
        else None
    | None => None
    end in
  let profileA :=
    interpolateProfileAtLength lengthA profileAssignments profiles options true in
  let profileB :=
    interpolateProfileAtLength lengthB profileAssignments profiles options false in
  match profileA, profileB with
  | Some profileA, Some profileB =>
      if isEmpty profileA || isEmpty profileB then None
      else if negb (Nat.eqb (List.length profileA) (List.length profileB))
      then None
      else
        let frame := buildPerpendicularAxes centerA centerB in
        let frame1 :=
          match centerC with
          | Some centerC => Some (buildPerpendicularAxes centerB centerC)
          | None => None
          end in
        Some {| frame := frame;
                centerA := centerA;
                centerB := centerB;
                profile1Points := projectProfile centerA profileA frame;
                profile2Points :=
                  projectProfile centerB profileB
                    (match frame1 with
                     | Some frame1 => frame1
                     | None => frame
                     end) |}
  | _, _ => None
  end.

(* ================================================================= *)
(** ** Sample lengths of the sweep *)

(** The options [{arcStep, axisArcStep}] of [collectSampleLengths]. *)
Record SampleOptions : Type :=
  mkSampleOptions { arcStep : option R; axisArcStep : option R }.

(** [Number(v.toFixed(6))]: the nearest multiple of 1e-6; of two equally
    near ones the one further from 0. *)
Definition toFixed6 (v : R) : R :=
  if v <? 0 then - (IZR (Int_part (- v * 1e6 + 1 / 2)) / 1e6)
  else IZR (Int_part (v * 1e6 + 1 / 2)) / 1e6.

(** [lengths.add(v)] on a [Set], kept in insertion order. *)
Definition setAdd (lengths : list R) (v : R) : list R :=
  if existsb (JS.eqb v) lengths then lengths else lengths ++ [v].

(** How many times the body of [for (i = 1; i < n; i++)] runs. *)
Definition loopCountBelow (n : R) : nat := Z.to_nat (- Int_part (- n) - 1).

(** One turn of the [forEach] over the axis, on the state [(cum, lengths)]. *)
Definition sampleAxisSegment (axisArcStep : R) (st : R * list R)
  (seg : Segment) : R * list R :=
  let (cum, lengths) := st in
  let lengths := setAdd lengths (toFixed6 cum) in
  match seg with
  | Line s e =>
      let dx := x e - x s in
      let dy := y e - y s in
      let L := JS.hypot dx dy in
      let cum := cum + L in
      (cum, setAdd lengths (toFixed6 cum))
  | Arc s e radius =>
      if JS.truthy radius then
        match calculateArcCenter s e radius with
        | None => (cum, lengths)
        | Some center =>
            let absR := Rabs radius in
            let angleDiff := arcAngleDiff s e center radius in
            let arcLen := Rabs angleDiff * absR in
            let steps := Rmax 1 (JS.ceil (arcLen / Rmax 1 axisArcStep)) in
            let lengths :=
              fold_left
                (fun ls i =>
                   let frac := INR i / steps in
                   setAdd ls (toFixed6 (cum + arcLen * frac)))
                (seq 1 (loopCountBelow steps)) lengths in
            let cum := cum + arcLen in
            (cum, setAdd lengths (toFixed6 cum))
        end
      else (cum, lengths)
  end.

Definition collectSampleLengths (axisData : list Segment)
  (heightAssignments : list HeightAssignment)
  (profileAssignments : list ProfileAssignment) (options : SampleOptions)
  : list R :=
  let axisArcStep := JS.optOr (axisArcStep options) 2 in
  let (cum, lengths) :=
    fold_left (sampleAxisSegment axisArcStep) axisData (0, []) in
  let lengths :=
    fold_left (fun ls h => setAdd ls (toFixed6 (JS.orElse (ha_length h) 0)))
      heightAssignments lengths in
  let lengths :=
    fold_left (fun ls p => setAdd ls (toFixed6 (JS.orElse (pa_length p) 0)))
      profileAssignments lengths in
  let total := computeAxisTotalLength axisData in
  let lengths := setAdd lengths 0 in
  let lengths := setAdd lengths (toFixed6 total) in
  sortBy (fun v => v) lengths.

(* ================================================================= *)
(** ** Points on a segment *)

(** [tol] is the optional fourth argument, 1e-6 when it is not given. *)
Definition pointOnSegment (pt a b : Point2D) (tol : option R) : bool :=
  let tol := match tol with Some t => t | None => 1e-6 end in
  let dx := x b - x a in
  let dy := y b - y a in
  let lenSq := dx * dx + dy * dy in
  if lenSq <? 1e-12 then JS.hypot (x pt - x a) (y pt - y a) <? tol
  else
    let t := ((x pt - x a) * dx + (y pt - y a) * dy) / lenSq in
    if (t <? - tol) || (t >? 1 + tol) then false
    else
      let projX := x a + t * dx in
      let projY := y a + t * dy in
      JS.hypot (x pt - projX) (y pt - projY) <? tol.

(* ================================================================= *)
(** ** The editors: from points to segments *)

(** A point of the axis and profile editors, [{x, y, type, radius}]:
    [type] is ['line'], ['arc'] or absent, [radius] is a number, or the
    empty string of an empty input field ([None]). *)
Inductive PointType : Type := LineTo | ArcTo.

Record EditorPoint : Type :=
  mkEditorPoint {
    ep_x : R;
    ep_y : R;
    ep_type : option PointType;
    ep_radius : option R
  }.

(** One turn of the loop of [buildSegmentsFromPoints]: the segment from
    [prev] to [curr]. *)
Definition segmentTo (prev curr : EditorPoint) : Segment :=
  let segType := match ep_type curr with Some t => t | None => LineTo end in
  let start := {| x := ep_x prev; y := ep_y prev |} in
  let end_ := {| x := ep_x curr; y := ep_y curr |} in
  match segType, ep_radius curr with
  | ArcTo, Some radius =>
      if JS.truthy radius && negb (radius =? 0)
      then Arc start end_ radius
      else Line start end_
  | _, _ => Line start end_
  end.

Fixpoint segmentsBetween (pts : list EditorPoint) : list Segment :=
  match pts with
  | prev :: ((curr :: _) as rest) => segmentTo prev curr :: segmentsBetween rest
  | _ => []
  end.

(** [buildSegmentsFromPoints] of ProfileEditor.jsx; the effect of
    AxisEditor.jsx that rebuilds the axis computes the same list. *)
Definition buildSegmentsFromPoints (pts : list EditorPoint) : list Segment :=
  if (List.length pts <? 2)%nat then [] else segmentsBetween pts.

(* ================================================================= *)
(** ** The application: cleaning the assignments, spans of the viewer *)

Module App.

(** The copy of [computeAxisTotalLength] in App.jsx. *)
Definition computeAxisTotalLength (segments : list Segment) : R :=
  match segments with
  | [] => 0
  | _ =>
      fold_left
        (fun sum seg =>
           match seg with
           | Line s e =>
               let dx := x e - x s in
               let dy := y e - y s in
               sum + JS.hypot dx dy
           | Arc s e radius =>
               if JS.truthy radius then
                 let dx := x e - x s in
                 let dy := y e - y s in
                 let chord := JS.hypot dx dy in
                 if chord =? 0 then sum
                 else
                   let angle :=
                     2 * asin (Rmin 1 (chord / (2 * Rabs radius))) in
                   sum + Rabs radius * angle
               else sum
           end)
        segments 0
  end.

(** The effect that persists the profile assignments: the cleaned and
    sorted table it computes, [None] when it returns before that because
    the axis has no length yet. *)
Definition cleanProfileAssignments (profiles : list Profile)
  (axisData : list Segment) (profileAssignments : list ProfileAssignment)
  : option (list ProfileAssignment) :=
  let validProfileIds := map id profiles in
  let totalLen := computeAxisTotalLength axisData in
  if totalLen <=? 0 then None
  else
    Some (sortBy pa_length
            (filter
               (fun a =>
                  (match profileId a with
                   | None => true
                   | Some i => existsb (String.eqb i) validProfileIds
                   end)
                  && (pa_length a >=? 0)
                  && (pa_length a <=? totalLen + 1e-6))
               profileAssignments)).

End App.

(** The spans [(lenA, lenB, lenC)] of the loop of TunnelViewer over the
    sample lengths; [lenC] is [null] for the last span. *)
Fixpoint viewerSpans (sampleLengths : list R) : list (R * R * option R) :=
  match sampleLengths with
  | lenA :: ((lenB :: rest') as rest) =>
      (lenA, lenB, match rest' with
                   | lenC :: _ => Some lenC
                   | [] => None
                   end)
      :: viewerSpans rest
  | _ => []
  end.

(** The sample lengths of TunnelViewer. *)
Definition viewerSampleLengths (axisData : list Segment)
  (heightAssignments : list HeightAssignment)
  (profileAssignments : list ProfileAssignment) : list R :=
  collectSampleLengths axisData heightAssignments profileAssignments
    (mkSampleOptions (Some 10) (Some 1)).

(* ================================================================= *)
(** ** Inputs

    The profiles of the clamping tests of geometry.test.js, the axis of
    its sampling test, and a few inputs more. *)

Definition pt (a b : R) : Point2D := {| x := a; y := b |}.

Definition prof1 : Profile :=
  {| id := "P1"%string; segments := [ Line (pt 0 0) (pt 2 0) ] |}.

Definition prof2 : Profile :=
  {| id := "P2"%string; segments := [ Line (pt 0 0) (pt 4 0) ] |}.

Definition testCatalog : list Profile := [ prof1; prof2 ].

Definition testOptions : Options := mkOptions (Some 10) (Some 2).

(** A stretch from (5,-1) to (5,1). *)
Definition wall : Profile :=
  {| id := "wall"%string; segments := [ Line (pt 5 (-1)) (pt 5 1) ] |}.

(** The square of the ray test of geometry.test.js. *)
Definition square : Profile :=
  {| id := "square"%string;
     segments := [ Line (pt 2 2) (pt 8 2); Line (pt 8 2) (pt 8 8);
                   Line (pt 8 8) (pt 2 8); Line (pt 2 8) (pt 2 2) ] |}.

(** Its sampled polyline. *)
Definition squarePts : list Point2D :=
  [ pt 2 2; pt 8 2; pt 8 8; pt 2 8; pt 2 2 ].

(** A straight stretch, then a quarter turn of radius 10. *)
Definition testAxis : list Segment :=
  [ Line (pt 0 0) (pt 10 0); Arc (pt 10 0) (pt 10 10) 10 ].

(** A straight stretch of 3 units followed by an arc of radius 1 whose end
    points are 4 units apart: no circle of radius 1 passes through both. *)
Definition axisWithLongChord : list Segment :=
  [ Line (pt 0 0) (pt 3 0); Arc (pt 3 0) (pt 7 0) 1 ].

(* ================================================================= *)
(** * Properties *)

(** ** The numeric primitives *)

Lemma ltb_true (a b : R) : a < b -> (a <? b) = true.
Proof. intros H. unfold JS.ltb. destruct (Rlt_dec a b); [reflexivity | lra]. Qed.

Lemma ltb_false (a b : R) : b <= a -> (a <? b) = false.
Proof. intros H. unfold JS.ltb. destruct (Rlt_dec a b); [lra | reflexivity]. Qed.

Lemma leb_true (a b : R) : a <= b -> (a <=? b) = true.
Proof. intros H. unfold JS.leb. destruct (Rle_dec a b); [reflexivity | lra]. Qed.

Lemma leb_false (a b : R) : b < a -> (a <=? b) = false.
Proof. intros H. unfold JS.leb. destruct (Rle_dec a b); [lra | reflexivity]. Qed.

Lemma gtb_true (a b : R) : b < a -> (a >? b) = true.
Proof. apply ltb_true. Qed.

Lemma gtb_false (a b : R) : a <= b -> (a >? b) = false.
Proof. apply ltb_false. Qed.

Lemma geb_true (a b : R) : b <= a -> (a >=? b) = true.
Proof. apply leb_true. Qed.

Lemma geb_false (a b : R) : a < b -> (a >=? b) = false.
Proof. apply leb_false. Qed.

Lemma eqb_true (a b : R) : a = b -> (a =? b) = true.
Proof.
  intros H. unfold JS.eqb. destruct (Req_dec_T a b); [reflexivity | contradiction].
Qed.

Lemma eqb_false (a b : R) : a <> b -> (a =? b) = false.
Proof.
  intros H. unfold JS.eqb. destruct (Req_dec_T a b); [contradiction | reflexivity].
Qed.

Lemma ltb_spec (a b : R) : reflect (a < b) (a <? b).
Proof.
  unfold JS.ltb. destruct (Rlt_dec a b); constructor; assumption.
Qed.

Lemma leb_spec (a b : R) : reflect (a <= b) (a <=? b).
Proof.
  unfold JS.leb. destruct (Rle_dec a b); constructor; assumption.
Qed.

Lemma eqb_spec (a b : R) : reflect (a = b) (a =? b).
Proof.
  unfold JS.eqb. destruct (Req_dec_T a b); constructor; assumption.
Qed.

Lemma truthy_true (a : R) : a <> 0 -> JS.truthy a = true.
Proof. intros H. unfold JS.truthy. now rewrite eqb_false. Qed.

Lemma truthy_false (a : R) : a = 0 -> JS.truthy a = false.
Proof. intros H. unfold JS.truthy. now rewrite eqb_true. Qed.

Lemma truthy_0 : JS.truthy 0 = false.
Proof. now apply truthy_false. Qed.

(** [v || 0] is [v]: the only falsy number of the model is 0 itself. *)
Lemma orElse_0 (a : R) : JS.orElse a 0 = a.
Proof.
  unfold JS.orElse, JS.truthy. destruct (eqb_spec a 0); simpl; congruence.
Qed.

Lemma hypot_0_0 : JS.hypot 0 0 = 0.
Proof.
  unfold JS.hypot. replace (0 * 0 + 0 * 0) with 0 by ring. apply sqrt_0.
Qed.

Lemma hypot_nonneg (a b : R) : 0 <= JS.hypot a b.
Proof. apply sqrt_pos. Qed.

Lemma hypot_eq_0 (a b : R) : JS.hypot a b = 0 -> a = 0 /\ b = 0.
Proof.
  unfold JS.hypot. intros H.
  apply sqrt_eq_0 in H; [ | nra ].
  split; nra.
Qed.

(** Decide the comparisons of a goal whose operands are concrete. *)
Ltac js_cmp :=
  repeat first
    [ rewrite ltb_true by lra | rewrite ltb_false by lra
    | rewrite leb_true by lra | rewrite leb_false by lra
    | rewrite gtb_true by lra | rewrite gtb_false by lra
    | rewrite geb_true by lra | rewrite geb_false by lra
    | rewrite eqb_true by lra | rewrite eqb_false by lra
    | rewrite truthy_true by lra | rewrite truthy_false by lra ];
  cbn [negb andb orb].

Lemma sqrt_is (v w : R) : 0 <= w -> w * w = v -> sqrt v = w.
Proof.
  intros Hw Hv. apply sqrt_lem_1; [ rewrite <- Hv; nra | assumption | assumption ].
Qed.

Lemma hypot_is (a b w : R) : 0 <= w -> w * w = a * a + b * b -> JS.hypot a b = w.
Proof. intros Hw Hv. unfold JS.hypot. now apply sqrt_is. Qed.

Lemma pt_eq (a b a' b' : R) : a = a' -> b = b' -> pt a b = pt a' b'.
Proof. intros -> ->. reflexivity. Qed.

Lemma Rabs_ge (v : R) (e : R) : e <= v -> e <= Rabs v.
Proof. intros H. pose proof (Rle_abs v). lra. Qed.

Lemma Rabs_ge_neg (v : R) (e : R) : e <= - v -> e <= Rabs v.
Proof. intros H. pose proof (Rle_abs (- v)). rewrite Rabs_Ropp in H0. lra. Qed.

(* ================================================================= *)
(** ** The sort *)

Section SortFacts.
Context {A : Type} (key : A -> R).

Definition keyLe (a b : A) : Prop := key a <= key b.

Lemma insertBy_perm (a : A) (l : list A) :
  Permutation (a :: l) (insertBy key a l).
Proof.
  induction l as [ | b l IH ]; simpl.
  - apply Permutation_refl.
  - destruct (key a <=? key b).
    + apply Permutation_refl.
    + eapply perm_trans; [ apply perm_swap | ].
      apply perm_skip. exact IH.
Qed.

Lemma sortBy_perm (l : list A) : Permutation l (sortBy key l).
Proof.
  induction l as [ | a l IH ]; simpl.
  - apply perm_nil.
  - eapply perm_trans; [ apply perm_skip, IH | apply insertBy_perm ].
Qed.

Lemma insertBy_sorted (a : A) (l : list A) :
  StronglySorted keyLe l -> StronglySorted keyLe (insertBy key a l).
Proof.
  induction 1 as [ | b l Hs IH Hb ]; simpl.
  - constructor; constructor.
  - destruct (leb_spec (key a) (key b)) as [Hab|Hab].
    + constructor; [ constructor; assumption | ].
      constructor; [ exact Hab | ].
      eapply Forall_impl; [ | exact Hb ].
      intros c Hc. unfold keyLe in *. lra.
    + constructor; [ exact IH | ].
      eapply Permutation_Forall; [ apply insertBy_perm | ].
      constructor; [ unfold keyLe; lra | exact Hb ].
Qed.

Lemma sortBy_sorted (l : list A) : StronglySorted keyLe (sortBy key l).
Proof.
  induction l as [ | a l IH ]; simpl.
  - constructor.
  - apply insertBy_sorted, IH.
Qed.

Lemma sortBy_nil_iff (l : list A) : sortBy key l = [] <-> l = [].
Proof.
  split; intros H; [ | subst; reflexivity ].
  apply Permutation_nil. rewrite <- H. apply Permutation_sym, sortBy_perm.
Qed.

(** A sorted list is left as it is. *)
Lemma sortBy_id (l : list A) : StronglySorted keyLe l -> sortBy key l = l.
Proof.
  induction 1 as [ | a l Hs IH Ha ]; simpl; [ reflexivity | ].
  rewrite IH. destruct l as [ | b l ]; simpl; [ reflexivity | ].
  inversion Ha as [ | ? ? Hab _ ]; subst.
  unfold keyLe in Hab. now rewrite leb_true.
Qed.

Lemma sorted_app_le (l1 l2 : list A) (a : A) :
  StronglySorted keyLe (l1 ++ a :: l2) -> Forall (fun c => key c <= key a) l1.
Proof.
  induction l1 as [ | b l1 IH ]; simpl; intros Hs; [ constructor | ].
  inversion Hs as [ | ? ? Hs' Hb ]; subst.
  constructor; [ | apply IH, Hs' ].
  apply Forall_app in Hb. destruct Hb as [_ Hb].
  inversion Hb; subst. assumption.
Qed.

End SortFacts.

(* ================================================================= *)
(** ** [Math.atan2]: cosine, sine and range *)

Section Atan2.

Lemma hypot_sq (a b : R) : JS.hypot a b * JS.hypot a b = a * a + b * b.
Proof. unfold JS.hypot. apply sqrt_sqrt. nra. Qed.

Lemma hypot_pos (a b : R) : a <> 0 \/ b <> 0 -> 0 < JS.hypot a b.
Proof.
  intros H. pose proof (hypot_nonneg a b) as Hn.
  destruct (Req_dec_T (JS.hypot a b) 0) as [Hz | Hz]; [ | lra ].
  apply hypot_eq_0 in Hz. destruct Hz, H; contradiction.
Qed.

(** [sqrt (1 + (b/a)^2)] in terms of the hypotenuse. *)
Lemma sqrt_one_plus_sqr (a b : R) :
  a <> 0 -> sqrt (1 + (b / a)²) = JS.hypot a b / Rabs a.
Proof.
  intros Ha.
  assert (Habs : 0 < Rabs a) by now apply Rabs_pos_lt.
  assert (Hh : 0 < JS.hypot a b) by (apply hypot_pos; now left).
  apply sqrt_is.
  - apply Rlt_le. now apply Rdiv_lt_0_compat.
  - unfold Rsqr.
    replace (JS.hypot a b / Rabs a * (JS.hypot a b / Rabs a))
      with ((JS.hypot a b * JS.hypot a b) / (Rabs a * Rabs a))
      by (field; lra).
    rewrite hypot_sq.
    replace (Rabs a * Rabs a) with (a * a)
      by (unfold Rabs; destruct (Rcase_abs a); ring).
    field. exact Ha.
Qed.

Lemma cos_sin_atan (a b : R) :
  a <> 0 ->
  cos (atan (b / a)) = Rabs a / JS.hypot a b
  /\ sin (atan (b / a)) = (b / a) * (Rabs a / JS.hypot a b).
Proof.
  intros Ha.
  assert (Habs : 0 < Rabs a) by now apply Rabs_pos_lt.
  assert (Hh : 0 < JS.hypot a b) by (apply hypot_pos; now left).
  rewrite cos_atan, sin_atan, sqrt_one_plus_sqr by exact Ha.
  split; field; lra.
Qed.

(** The cosine and the sine of [Math.atan2 b a]. *)
Lemma cos_sin_atan2 (b a : R) :
  a <> 0 \/ b <> 0 ->
  cos (JS.atan2 b a) = a / JS.hypot a b
  /\ sin (JS.atan2 b a) = b / JS.hypot a b.
Proof.
  intros Hnz.
  assert (Hh : 0 < JS.hypot a b) by now apply hypot_pos.
  unfold JS.atan2.
  destruct (ltb_spec 0 a) as [Hpos | Hpos].
  - destruct (cos_sin_atan a b) as [Hc Hs]; [ lra | ].
    rewrite Hc, Hs, Rabs_pos_eq by lra. split; field; lra.
  - destruct (ltb_spec a 0) as [Hneg | Hneg].
    + destruct (cos_sin_atan a b) as [Hc Hs]; [ lra | ].
      assert (Habs : Rabs a = - a) by (apply Rabs_left; exact Hneg).
      destruct (leb_spec 0 b) as [Hb | Hb].
      * rewrite neg_cos, neg_sin, Hc, Hs, Habs. split; field; lra.
      * unfold Rminus. rewrite cos_plus, sin_plus, cos_neg, sin_neg.
        rewrite cos_PI, sin_PI, Hc, Hs, Habs. split; field; lra.
    + assert (Ha0 : a = 0) by lra. subst a.
      assert (Hb0 : b <> 0) by (destruct Hnz; [ lra | assumption ]).
      assert (Hhb : JS.hypot 0 b = Rabs b).
      { apply hypot_is; [ apply Rabs_pos | ].
        unfold Rabs; destruct (Rcase_abs b); ring. }
      rewrite Hhb in *.
      destruct (ltb_spec 0 b) as [Hb | Hb].
      * rewrite cos_PI2, sin_PI2, Rabs_pos_eq by lra. split; field; lra.
      * rewrite ltb_true by lra.
        rewrite cos_neg, sin_neg, cos_PI2, sin_PI2, Rabs_left by lra.
        split; field; lra.
Qed.

Lemma atan2_range (b a : R) : - PI < JS.atan2 b a <= PI.
Proof.
  pose proof PI_RGT_0 as Hpi.
  unfold JS.atan2.
  destruct (ltb_spec 0 a) as [Hpos | Hpos].
  - pose proof (atan_bound (b / a)). lra.
  - destruct (ltb_spec a 0) as [Hneg | Hneg].
    + pose proof (atan_bound (b / a)) as Hb.
      destruct (leb_spec 0 b) as [Hb0 | Hb0].
      * assert (Hq : b / a <= 0).
        { unfold Rdiv. assert (/ a < 0) by now apply Rinv_lt_0_compat. nra. }
        assert (atan (b / a) <= 0).
        { destruct Hq as [Hq | Hq].
          - apply atan_increasing in Hq. rewrite atan_0 in Hq. lra.
          - rewrite Hq, atan_0. lra. }
        lra.
      * assert (Hq : 0 < b / a).
        { unfold Rdiv. assert (/ a < 0) by now apply Rinv_lt_0_compat. nra. }
        apply atan_increasing in Hq. rewrite atan_0 in Hq. lra.
    + destruct (ltb_spec 0 b); [ lra | ].
      destruct (ltb_spec b 0); lra.
Qed.

End Atan2.

(* ================================================================= *)
(** ** Degenerate arcs in the total length *)

Section DegenerateArcs.

Definition chordOf (s e : Point2D) : R := JS.hypot (x e - x s) (y e - y s).

(** [calculateArcCenter] fails exactly on a zero radius, a chord longer
    than twice the radius, or a zero chord. *)
Lemma calculateArcCenter_None_iff (s e : Point2D) (radius : R) :
  calculateArcCenter s e radius = None
  <-> radius = 0 \/ chordOf s e > 2 * Rabs radius \/ chordOf s e = 0.
Proof.
  unfold calculateArcCenter, chordOf, JS.hypot, JS.truthy, JS.gtb.
  destruct (eqb_spec (Rabs radius) 0) as [H0|H0]; cbn [negb].
  - split; [ intros _ | reflexivity ]. left.
    destruct (Req_dec_T radius 0) as [ | Hr ]; [ assumption | ].
    apply Rabs_no_R0 in Hr. contradiction.
  - set (dist := sqrt _).
    destruct (ltb_spec (2 * Rabs radius) dist) as [Hgt|Hgt]; cbn [orb].
    + split; [ intros _ | reflexivity ]. right; left. lra.
    + destruct (eqb_spec dist 0) as [Hz|Hz].
      * split; [ intros _ | reflexivity ]. right; right. assumption.
      * split; [ discriminate | ].
        intros [Hr | [Hc | Hc]].
        -- subst radius. rewrite Rabs_R0 in H0. contradiction.
        -- lra.
        -- contradiction.
Qed.

Lemma computeAxisTotalLength_from (axisData : list Segment) (acc : R) :
  fold_left (fun sum seg => sum + segmentTotalLength seg) axisData acc
  = acc + computeAxisTotalLength axisData.
Proof.
  unfold computeAxisTotalLength. revert acc.
  induction axisData as [ | seg rest IH ]; intros acc; simpl.
  - ring.
  - rewrite IH, (IH (0 + _)). ring.
Qed.

Lemma computeAxisTotalLength_cons (seg : Segment) (rest : list Segment) :
  computeAxisTotalLength (seg :: rest)
  = segmentTotalLength seg + computeAxisTotalLength rest.
Proof.
  unfold computeAxisTotalLength at 1. simpl.
  rewrite computeAxisTotalLength_from. ring.
Qed.

Lemma computeAxisTotalLength_app (l1 l2 : list Segment) :
  computeAxisTotalLength (l1 ++ l2)
  = computeAxisTotalLength l1 + computeAxisTotalLength l2.
Proof.
  induction l1 as [ | seg rest IH ]; simpl.
  - unfold computeAxisTotalLength at 2. simpl. ring.
  - rewrite !computeAxisTotalLength_cons, IH. ring.
Qed.

(** What a degenerate arc adds to the sum. *)
Lemma segmentTotalLength_degenerate (s e : Point2D) (radius : R) :
  calculateArcCenter s e radius = None ->
  segmentTotalLength (Arc s e radius)
  = if (radius =? 0) || (chordOf s e =? 0) then 0 else PI * Rabs radius.
Proof.
  intros Hdeg. apply calculateArcCenter_None_iff in Hdeg.
  unfold segmentTotalLength, JS.truthy. fold (chordOf s e).
  destruct (eqb_spec radius 0) as [Hr|Hr]; cbn [negb orb]; [ reflexivity | ].
  destruct (eqb_spec (chordOf s e) 0) as [Hc|Hc]; [ reflexivity | ].
  destruct Hdeg as [H | [H | H]]; [ contradiction | | contradiction ].
  assert (Hpos : 0 < Rabs radius) by now apply Rabs_pos_lt.
  assert (H1 : 1 < chordOf s e / (2 * Rabs radius)).
  { apply Rmult_lt_reg_r with (2 * Rabs radius); [ lra | ].
    unfold Rdiv. rewrite Rmult_assoc, Rinv_l; lra. }
  rewrite Rmin_left by lra. rewrite asin_1. field.
Qed.

(** C4, as the code has it.  In the sum of [computeAxisTotalLength] an
    arc for which [calculateArcCenter] fails adds zero when its radius or
    its chord is zero, and half a turn of its radius, [PI * |radius|],
    when its chord is longer than twice the radius (the argument of
    [Math.asin] is capped at 1). *)
Theorem computeAxisTotalLength_degenerate_arc
  (before after : list Segment) (s e : Point2D) (radius : R) :
  calculateArcCenter s e radius = None ->
  computeAxisTotalLength (before ++ Arc s e radius :: after)
  = computeAxisTotalLength (before ++ after)
    + (if (radius =? 0) || (chordOf s e =? 0) then 0 else PI * Rabs radius).
Proof.
  intros Hdeg.
  rewrite !computeAxisTotalLength_app, computeAxisTotalLength_cons.
  rewrite (segmentTotalLength_degenerate _ _ _ Hdeg). ring.
Qed.

End DegenerateArcs.

(** *** A degenerate arc on a concrete axis *)

Lemma longChord_degenerate : calculateArcCenter (pt 3 0) (pt 7 0) 1 = None.
Proof.
  apply calculateArcCenter_None_iff. right; left.
  unfold chordOf. cbn [pt x y].
  rewrite (hypot_is _ _ 4) by lra. rewrite Rabs_R1. lra.
Qed.

(** C4, counterexample.  The arc of [axisWithLongChord] is degenerate, yet
    it adds [PI] to the total length: the total is [3 + PI], not the 3 of
    the straight stretch alone. *)
Lemma computeAxisTotalLength_long_chord_counts :
  calculateArcCenter (pt 3 0) (pt 7 0) 1 = None
  /\ computeAxisTotalLength [ Line (pt 0 0) (pt 3 0) ] = 3
  /\ computeAxisTotalLength axisWithLongChord = 3 + PI
  /\ computeAxisTotalLength axisWithLongChord
     <> computeAxisTotalLength [ Line (pt 0 0) (pt 3 0) ].
Proof.
  assert (Hline : computeAxisTotalLength [ Line (pt 0 0) (pt 3 0) ] = 3).
  { unfold computeAxisTotalLength. cbn [fold_left segmentTotalLength pt x y].
    rewrite (hypot_is _ _ 3) by lra. ring. }
  assert (Haxis : computeAxisTotalLength axisWithLongChord = 3 + PI).
  { change axisWithLongChord
      with ([ Line (pt 0 0) (pt 3 0) ] ++ Arc (pt 3 0) (pt 7 0) 1 :: []).
    rewrite (computeAxisTotalLength_app _ (_ :: _)), Hline.
    rewrite computeAxisTotalLength_cons.
    rewrite (segmentTotalLength_degenerate _ _ _ longChord_degenerate).
    unfold chordOf. cbn [pt x y].
    rewrite (hypot_is (7 - 3) (0 - 0) 4) by lra.
    js_cmp. rewrite Rabs_R1.
    unfold computeAxisTotalLength. simpl. ring. }
  split; [ exact longChord_degenerate | ].
  split; [ exact Hline | ].
  split; [ exact Haxis | ].
  rewrite Haxis, Hline. pose proof PI_RGT_0. lra.
Qed.

(** C4 on [axisWithLongChord]. *)
Lemma computeAxisTotalLength_degenerate_arc_witness :
  calculateArcCenter (pt 3 0) (pt 7 0) 1 = None
  /\ computeAxisTotalLength
       ([ Line (pt 0 0) (pt 3 0) ] ++ Arc (pt 3 0) (pt 7 0) 1 :: [])
     = computeAxisTotalLength ([ Line (pt 0 0) (pt 3 0) ] ++ [])
       + (if (1 =? 0) || (chordOf (pt 3 0) (pt 7 0) =? 0) then 0
          else PI * Rabs 1).
Proof.
  split.
  - exact longChord_degenerate.
  - apply (computeAxisTotalLength_degenerate_arc
             [ Line (pt 0 0) (pt 3 0) ] [] (pt 3 0) (pt 7 0) 1).
    exact longChord_degenerate.
Defined.

(* ================================================================= *)
(** ** The geometry of a non-degenerate arc *)

Section ArcGeometry.

Lemma arc_algebra (sx sy ex ey dist k sg R h : R) :
  dist * dist = (ex - sx) * (ex - sx) + (ey - sy) * (ey - sy) ->
  h * h = R * R - (dist / 2) * (dist / 2) ->
  sg * sg = 1 ->
  h = k * dist ->
  let cx := (sx + ex) / 2 + sg * k * (- (ey - sy)) in
  let cy := (sy + ey) / 2 + sg * k * (ex - sx) in
  (sx - cx) * (sx - cx) + (sy - cy) * (sy - cy) = R * R
  /\ (ex - cx) * (ex - cx) + (ey - cy) * (ey - cy) = R * R
  /\ (sx - cx) * (ex - cx) + (sy - cy) * (ey - cy) = R * R - dist * dist / 2
  /\ (sx - cx) * (ey - cy) - (sy - cy) * (ex - cx) = sg * h * dist.
Proof.
  intros Hd Hh Hs Hk cx cy. subst cx cy.
  set (a := ex - sx) in *. set (b := ey - sy) in *.
  assert (Hkk : (k * k) * (dist * dist) = R * R - dist * dist / 4).
  { replace (k * k * (dist * dist)) with ((k * dist) * (k * dist)) by ring.
    rewrite <- Hk, Hh. field. }
  assert (E1 : sx = ex - a) by (subst a; lra).
  assert (E2 : sy = ey - b) by (subst b; lra).
  rewrite E1, E2. clear E1 E2.
  repeat split.
  - replace (_ + _)
      with ((a * a + b * b) / 4 + (sg * sg) * ((k * k) * (a * a + b * b)))
      by field.
    rewrite <- Hd, Hs, Hkk. field.
  - replace (_ + _)
      with ((a * a + b * b) / 4 + (sg * sg) * ((k * k) * (a * a + b * b)))
      by field.
    rewrite <- Hd, Hs, Hkk. field.
  - replace (_ + _)
      with (- (a * a + b * b) / 4 + (sg * sg) * ((k * k) * (a * a + b * b)))
      by field.
    rewrite <- Hd, Hs, Hkk. field.
  - replace (_ - _) with (sg * k * (a * a + b * b)) by field.
    rewrite <- Hd, Hk. ring.
Qed.

(** The side of the chord on which the centre lies. *)
Definition arcSign (radius : R) : R := if radius >=? 0 then 1 else -1.

(** The distance from the middle of the chord to the centre. *)
Definition arcHeight (s e : Point2D) (radius : R) : R :=
  sqrt (Rabs radius * Rabs radius - (chordOf s e / 2) * (chordOf s e / 2)).

Lemma calculateArcCenter_Some (s e : Point2D) (radius : R) (c : Point2D) :
  calculateArcCenter s e radius = Some c ->
  radius <> 0
  /\ 0 < chordOf s e <= 2 * Rabs radius
  /\ c = {| x := (x s + x e) / 2
                 + arcSign radius * arcHeight s e radius
                   * (- (y e - y s) / chordOf s e);
            y := (y s + y e) / 2
                 + arcSign radius * arcHeight s e radius
                   * ((x e - x s) / chordOf s e) |}.
Proof.
  intros Hc.
  assert (Hsome : calculateArcCenter s e radius <> None) by congruence.
  rewrite calculateArcCenter_None_iff in Hsome.
  assert (Hr : radius <> 0) by tauto.
  assert (Hchord : 0 < chordOf s e <= 2 * Rabs radius).
  { pose proof (hypot_nonneg (x e - x s) (y e - y s)) as Hn.
    fold (chordOf s e) in Hn.
    destruct (Rle_dec (chordOf s e) (2 * Rabs radius)); [ | exfalso; apply Hsome; right; left; lra ].
    destruct (Req_dec_T (chordOf s e) 0); [ exfalso; apply Hsome; right; right; assumption | ].
    lra. }
  split; [ exact Hr | ]. split; [ exact Hchord | ].
  unfold calculateArcCenter in Hc.
  rewrite truthy_true in Hc by (now apply Rabs_no_R0).
  cbn [negb] in Hc.
  change (sqrt ((x e - x s) * (x e - x s) + (y e - y s) * (y e - y s)))
    with (chordOf s e) in Hc.
  rewrite gtb_false, eqb_false in Hc by lra.
  cbn [orb] in Hc. inversion Hc. reflexivity.
Qed.

Variables (s e c : Point2D) (radius : R).
Hypothesis center : calculateArcCenter s e radius = Some c.

Let absR := Rabs radius.
Let dist := chordOf s e.

Lemma arc_radius_pos : 0 < absR.
Proof.
  destruct (calculateArcCenter_Some _ _ _ _ center) as (Hr & _).
  now apply Rabs_pos_lt.
Qed.

Lemma arc_chord_bounds : 0 < dist <= 2 * absR.
Proof. now destruct (calculateArcCenter_Some _ _ _ _ center) as (_ & H & _). Qed.

Lemma arcSign_sq : arcSign radius * arcSign radius = 1.
Proof. unfold arcSign. destruct (radius >=? 0); ring. Qed.

Lemma arcHeight_nonneg : 0 <= arcHeight s e radius.
Proof. apply sqrt_pos. Qed.

(** The relative positions of the two end points around the centre. *)
Lemma arc_relative_positions :
  (x s - x c) * (x s - x c) + (y s - y c) * (y s - y c) = absR * absR
  /\ (x e - x c) * (x e - x c) + (y e - y c) * (y e - y c) = absR * absR
  /\ (x s - x c) * (x e - x c) + (y s - y c) * (y e - y c)
     = absR * absR - dist * dist / 2
  /\ (x s - x c) * (y e - y c) - (y s - y c) * (x e - x c)
     = arcSign radius * arcHeight s e radius * dist.
Proof.
  pose proof arc_radius_pos as HR. pose proof arc_chord_bounds as Hd.
  destruct (calculateArcCenter_Some _ _ _ _ center) as (_ & _ & Hc).
  fold dist in Hc.
  pose proof (arc_algebra (x s) (y s) (x e) (y e) dist
                (arcHeight s e radius / dist) (arcSign radius) absR
                (arcHeight s e radius)) as Halg.
  cbv zeta in Halg.
  replace (x c) with ((x s + x e) / 2
                      + arcSign radius * (arcHeight s e radius / dist)
                        * - (y e - y s))
    by (rewrite Hc; cbn [x]; field; lra).
  replace (y c) with ((y s + y e) / 2
                      + arcSign radius * (arcHeight s e radius / dist)
                        * (x e - x s))
    by (rewrite Hc; cbn [y]; field; lra).
  apply Halg.
  - unfold dist, chordOf. apply hypot_sq.
  - unfold arcHeight. fold dist absR. apply sqrt_sqrt.
    assert (dist / 2 <= absR) by lra.
    assert (0 <= dist / 2) by lra. nra.
  - apply arcSign_sq.
  - field. lra.
Qed.

Lemma arc_start_on_circle : JS.hypot (x s - x c) (y s - y c) = absR.
Proof.
  destruct arc_relative_positions as (H & _).
  apply hypot_is; [ pose proof arc_radius_pos; lra | now rewrite H ].
Qed.

Lemma arc_end_on_circle : JS.hypot (x e - x c) (y e - y c) = absR.
Proof.
  destruct arc_relative_positions as (_ & H & _).
  apply hypot_is; [ pose proof arc_radius_pos; lra | now rewrite H ].
Qed.

Let startA := arcStartAngle s c.
Let endA := JS.atan2 (y e - y c) (x e - x c).

Lemma nonzero_of_hypot (a b : R) : 0 < JS.hypot a b -> a <> 0 \/ b <> 0.
Proof.
  intros H. destruct (Req_dec_T a 0) as [Ha | Ha]; [ | now left ].
  destruct (Req_dec_T b 0) as [Hb | Hb]; [ | now right ].
  subst. rewrite hypot_0_0 in H. lra.
Qed.

Lemma arc_start_angle :
  absR * cos startA = x s - x c /\ absR * sin startA = y s - y c.
Proof.
  pose proof arc_radius_pos as HR.
  destruct (cos_sin_atan2 (y s - y c) (x s - x c)) as [Hc Hs].
  { apply nonzero_of_hypot. rewrite arc_start_on_circle. exact HR. }
  subst startA. unfold arcStartAngle.
  rewrite Hc, Hs, arc_start_on_circle. split; field; lra.
Qed.

Lemma arc_end_angle :
  absR * cos endA = x e - x c /\ absR * sin endA = y e - y c.
Proof.
  pose proof arc_radius_pos as HR.
  destruct (cos_sin_atan2 (y e - y c) (x e - x c)) as [Hc Hs].
  { apply nonzero_of_hypot. rewrite arc_end_on_circle. exact HR. }
  subst endA.
  rewrite Hc, Hs, arc_end_on_circle. split; field; lra.
Qed.

Let angleDiff := arcAngleDiff s e c radius.

Lemma arcAngleDiff_positive_radius :
  0 < radius ->
  angleDiff
  = if endA - startA <? 0 then endA - startA + 2 * PI else endA - startA.
Proof.
  intros Hr. subst angleDiff. unfold arcAngleDiff. fold startA endA.
  rewrite (gtb_true radius 0) by exact Hr. rewrite (ltb_false radius) by lra.
  cbn [andb].
  reflexivity.
Qed.

Lemma arcAngleDiff_negative_radius :
  radius < 0 ->
  angleDiff
  = if endA - startA >? 0 then endA - startA - 2 * PI else endA - startA.
Proof.
  intros Hr. subst angleDiff. unfold arcAngleDiff. fold startA endA.
  rewrite (gtb_false radius 0) by lra. rewrite (ltb_true radius) by exact Hr.
  cbn [andb].
  reflexivity.
Qed.

Lemma cos_sin_full_turn (a : R) :
  cos (a + 2 * PI) = cos a /\ sin (a + 2 * PI) = sin a
  /\ cos (a - 2 * PI) = cos a /\ sin (a - 2 * PI) = sin a.
Proof.
  unfold Rminus.
  rewrite !cos_plus, !sin_plus, cos_neg, sin_neg, cos_2PI, sin_2PI.
  repeat split; ring.
Qed.

(** The sweep leads from the start angle to the end angle. *)
Lemma arcAngleDiff_turn :
  cos (startA + angleDiff) = cos endA /\ sin (startA + angleDiff) = sin endA.
Proof.
  destruct (calculateArcCenter_Some _ _ _ _ center) as (Hr & _).
  destruct (cos_sin_full_turn endA) as (Hc1 & Hs1 & Hc2 & Hs2).
  destruct (Rlt_dec 0 radius) as [Hpos | Hneg].
  - rewrite (arcAngleDiff_positive_radius Hpos).
    destruct (endA - startA <? 0).
    + replace (startA + (endA - startA + 2 * PI)) with (endA + 2 * PI) by ring.
      split; assumption.
    + replace (startA + (endA - startA)) with endA by ring.
      split; reflexivity.
  - assert (Hneg' : radius < 0) by lra.
    rewrite (arcAngleDiff_negative_radius Hneg').
    destruct (endA - startA >? 0).
    + replace (startA + (endA - startA - 2 * PI)) with (endA - 2 * PI) by ring.
      split; assumption.
    + replace (startA + (endA - startA)) with endA by ring.
      split; reflexivity.
Qed.

Lemma arcAngleDiff_range :
  (0 < radius -> 0 <= angleDiff < 2 * PI)
  /\ (radius < 0 -> - (2 * PI) < angleDiff <= 0).
Proof.
  pose proof (atan2_range (y s - y c) (x s - x c)) as Hs.
  pose proof (atan2_range (y e - y c) (x e - x c)) as He.
  change (JS.atan2 (y s - y c) (x s - x c)) with startA in Hs.
  change (JS.atan2 (y e - y c) (x e - x c)) with endA in He.
  split; intros Hr.
  - rewrite (arcAngleDiff_positive_radius Hr).
    destruct (ltb_spec (endA - startA) 0); lra.
  - rewrite (arcAngleDiff_negative_radius Hr). unfold JS.gtb.
    destruct (ltb_spec 0 (endA - startA)); lra.
Qed.

(** The cosine and the sine of the sweep. *)
Lemma arcAngleDiff_cos_sin :
  cos angleDiff = 1 - dist * dist / (2 * (absR * absR))
  /\ sin angleDiff
     = arcSign radius * arcHeight s e radius * dist / (absR * absR).
Proof.
  pose proof arc_radius_pos as HR.
  destruct arc_relative_positions as (_ & _ & Hdot & Hcross).
  destruct arc_start_angle as [Hcs Hss].
  destruct arc_end_angle as [Hce Hse].
  assert (Hcos : cos (endA - startA) = 1 - dist * dist / (2 * (absR * absR))).
  { rewrite cos_minus.
    replace (cos endA * cos startA + sin endA * sin startA)
      with (((absR * cos startA) * (absR * cos endA)
             + (absR * sin startA) * (absR * sin endA)) / (absR * absR))
      by (field; lra).
    rewrite Hcs, Hss, Hce, Hse, Hdot. field. lra. }
  assert (Hsin : sin (endA - startA)
                 = arcSign radius * arcHeight s e radius * dist / (absR * absR)).
  { rewrite sin_minus.
    replace (sin endA * cos startA - cos endA * sin startA)
      with (((absR * cos startA) * (absR * sin endA)
             - (absR * sin startA) * (absR * cos endA)) / (absR * absR))
      by (field; lra).
    rewrite Hcs, Hss, Hce, Hse, Hcross. reflexivity. }
  destruct (cos_sin_full_turn (endA - startA)) as (Hc1 & Hs1 & Hc2 & Hs2).
  destruct (calculateArcCenter_Some _ _ _ _ center) as (Hr & _).
  destruct (Rlt_dec 0 radius) as [Hpos | Hneg].
  - rewrite (arcAngleDiff_positive_radius Hpos).
    destruct (endA - startA <? 0); [ rewrite Hc1, Hs1 | ]; split; assumption.
  - assert (Hneg' : radius < 0) by lra.
    rewrite (arcAngleDiff_negative_radius Hneg').
    destruct (endA - startA >? 0); [ rewrite Hc2, Hs2 | ]; split; assumption.
Qed.

Lemma asin_pos (q : R) : 0 < q <= 1 -> 0 < asin q <= PI / 2.
Proof.
  intros Hq. pose proof (asin_bound q) as Hb. pose proof PI_RGT_0 as Hpi.
  split; [ | lra ].
  destruct (Rlt_dec 0 (asin q)) as [ | Hn ]; [ assumption | exfalso ].
  assert (Hsin : sin (asin q) = q) by (apply sin_asin; lra).
  destruct (Req_dec_T (asin q) 0) as [Hz | Hz].
  - rewrite Hz, sin_0 in Hsin. lra.
  - assert (sin (asin q) < 0) by (apply sin_lt_0_var; lra). lra.
Qed.

(** The sweep is the smaller of the two arcs between the end points. *)
Lemma arcAngleDiff_minor_arc :
  Rabs angleDiff = 2 * asin (dist / (2 * absR)).
Proof.
  pose proof arc_radius_pos as HR. pose proof arc_chord_bounds as Hd.
  pose proof PI_RGT_0 as Hpi. pose proof arcHeight_nonneg as Hh.
  destruct arcAngleDiff_cos_sin as [Hcos Hsin].
  destruct arcAngleDiff_range as [Hpos Hneg].
  destruct (calculateArcCenter_Some _ _ _ _ center) as (Hr & _).
  set (q := dist / (2 * absR)).
  assert (Hq : 0 < q <= 1).
  { unfold q. split.
    - apply Rdiv_lt_0_compat; lra.
    - apply Rmult_le_reg_r with (2 * absR); [ lra | ].
      unfold Rdiv. rewrite Rmult_assoc, Rinv_l; lra. }
  pose proof (asin_pos q Hq) as Hasin.
  assert (Hprod : 0 <= arcHeight s e radius * dist / (absR * absR)).
  { apply Rmult_le_pos; [ nra | ].
    left. apply Rinv_0_lt_compat. nra. }
  assert (Hcosq : cos (2 * asin q) = cos angleDiff).
  { rewrite cos_2a_sin, sin_asin, Hcos by lra. unfold q. field. lra. }
  assert (Htheta : 0 <= Rabs angleDiff <= PI /\ cos (Rabs angleDiff) = cos angleDiff).
  { destruct (Rlt_dec 0 radius) as [Hp | Hn].
    - specialize (Hpos Hp).
      assert (Hsg : arcSign radius = 1)
        by (unfold arcSign; now rewrite geb_true by lra).
      rewrite Hsg in Hsin.
      rewrite Rabs_pos_eq by lra.
      split; [ | reflexivity ]. split; [ lra | ].
      destruct (Rle_dec angleDiff PI) as [ | Hgt ]; [ assumption | exfalso ].
      assert (sin angleDiff < 0) by (apply sin_lt_0; lra).
      lra.
    - assert (Hn' : radius < 0) by lra. specialize (Hneg Hn').
      assert (Hsg : arcSign radius = -1)
        by (unfold arcSign; now rewrite geb_false by lra).
      rewrite Hsg in Hsin.
      assert (Hle : sin angleDiff <= 0) by (rewrite Hsin; lra).
      rewrite Rabs_left1 by lra. rewrite cos_neg.
      split; [ | reflexivity ]. split; [ lra | ].
      destruct (Rle_dec (- angleDiff) PI) as [ | Hgt ]; [ assumption | exfalso ].
      destruct (cos_sin_full_turn angleDiff) as (_ & Hs1 & _).
      assert (0 < sin (angleDiff + 2 * PI)) by (apply sin_gt_0; lra).
      lra. }
  destruct Htheta as [Hrange Hcosabs].
  rewrite <- (acos_cos (Rabs angleDiff)) by exact Hrange.
  rewrite Hcosabs, <- Hcosq. apply acos_cos. lra.
Qed.

Lemma arcAngleDiff_nonzero : 0 < Rabs angleDiff.
Proof.
  pose proof arc_radius_pos as HR. pose proof arc_chord_bounds as Hd.
  rewrite arcAngleDiff_minor_arc.
  assert (Hq : 0 < dist / (2 * absR) <= 1).
  { split.
    - apply Rdiv_lt_0_compat; lra.
    - apply Rmult_le_reg_r with (2 * absR); [ lra | ].
      unfold Rdiv. rewrite Rmult_assoc, Rinv_l; lra. }
  pose proof (asin_pos _ Hq). lra.
Qed.

(** On a non-degenerate arc the length that [getPositionAtLength] walks
    is the length that [computeAxisTotalLength] adds. *)
Lemma arc_walk_length :
  Rabs angleDiff * absR = segmentTotalLength (Arc s e radius)
  /\ 0 < segmentTotalLength (Arc s e radius).
Proof.
  pose proof arc_radius_pos as HR. pose proof arc_chord_bounds as Hd.
  destruct (calculateArcCenter_Some _ _ _ _ center) as (Hr & _).
  assert (Heq : Rabs angleDiff * absR = segmentTotalLength (Arc s e radius)).
  { unfold segmentTotalLength. fold (chordOf s e). fold dist absR.
    rewrite truthy_true by exact Hr. rewrite eqb_false by lra.
    rewrite Rmin_right.
    - rewrite arcAngleDiff_minor_arc. ring.
    - apply Rmult_le_reg_r with (2 * absR); [ lra | ].
      unfold Rdiv. rewrite Rmult_assoc, Rinv_l; lra. }
  split; [ exact Heq | ].
  rewrite <- Heq. pose proof arcAngleDiff_nonzero. nra.
Qed.

(** The two ends of the sweep are the two end points of the arc. *)
Lemma arcPoint_start : arcPoint c absR startA = s.
Proof.
  destruct arc_start_angle as [Hc Hs]. unfold arcPoint.
  rewrite Hc, Hs. destruct s as [sx sy]. cbn [x y]. f_equal; ring.
Qed.

Lemma arcPoint_end : arcPoint c absR (startA + angleDiff) = e.
Proof.
  destruct arc_end_angle as [Hc Hs].
  destruct arcAngleDiff_turn as [Hct Hst]. unfold arcPoint.
  rewrite Hct, Hst, Hc, Hs. destruct e as [ex ey]. cbn [x y]. f_equal; ring.
Qed.

End ArcGeometry.

(* ================================================================= *)
(** ** The two ends of an axis *)

Section AxisEndpoints.

(** An arc is degenerate when it has no centre. *)
Definition nonDegenerate (seg : Segment) : Prop :=
  match seg with
  | Line _ _ => True
  | Arc s e radius => calculateArcCenter s e radius <> None
  end.

(** Each segment starts where the one before it ends, the first one at
    [p]. *)
Fixpoint contiguousFrom (p : Point2D) (axisData : list Segment) : Prop :=
  match axisData with
  | [] => True
  | seg :: rest => segStart seg = p /\ contiguousFrom (segEnd seg) rest
  end.

(** A valid axis: at least one segment, end-to-start contiguous, no
    degenerate arc. *)
Definition validAxis (axisData : list Segment) : Prop :=
  match axisData with
  | [] => False
  | seg :: _ =>
      contiguousFrom (segStart seg) axisData /\ Forall nonDegenerate axisData
  end.

(** The end of the last segment; [p] when there is no segment. *)
Fixpoint axisEnd (p : Point2D) (axisData : list Segment) : Point2D :=
  match axisData with
  | [] => p
  | seg :: rest => axisEnd (segEnd seg) rest
  end.

Lemma axisEnd_last (p : Point2D) (seg d : Segment) (rest : list Segment) :
  axisEnd p (seg :: rest) = segEnd (List.last (seg :: rest) d).
Proof.
  revert p seg. induction rest as [ | seg' rest IH ]; intros p seg.
  - reflexivity.
  - change (axisEnd p (seg :: seg' :: rest))
      with (axisEnd (segEnd seg) (seg' :: rest)).
    rewrite (IH (segEnd seg) seg'). reflexivity.
Qed.

Lemma point_eta (p : Point2D) : {| x := x p; y := y p |} = p.
Proof. destruct p; reflexivity. Qed.

Lemma segmentTotalLength_nonneg (seg : Segment) : 0 <= segmentTotalLength seg.
Proof.
  destruct seg as [ s e | s e radius ]; unfold segmentTotalLength.
  - apply hypot_nonneg.
  - destruct (JS.truthy radius) eqn:Etruthy; [ | lra ].
    destruct (eqb_spec (JS.hypot (x e - x s) (y e - y s)) 0) as [ | Hc ]; [ lra | ].
    assert (Hr : 0 < Rabs radius).
    { apply Rabs_pos_lt. intros ->. rewrite truthy_0 in Etruthy. discriminate. }
    pose proof (hypot_nonneg (x e - x s) (y e - y s)) as Hh.
    set (q := JS.hypot (x e - x s) (y e - y s) / (2 * Rabs radius)).
    assert (Hq : 0 < q) by (unfold q; apply Rdiv_lt_0_compat; lra).
    assert (Hm : 0 < Rmin 1 q <= 1).
    { split; [ apply Rmin_glb_lt; lra | apply Rmin_l ]. }
    pose proof (asin_pos _ Hm). nra.
Qed.

Lemma computeAxisTotalLength_nonneg (axisData : list Segment) :
  0 <= computeAxisTotalLength axisData.
Proof.
  induction axisData as [ | seg rest IH ].
  - unfold computeAxisTotalLength. simpl. lra.
  - rewrite computeAxisTotalLength_cons.
    pose proof (segmentTotalLength_nonneg seg). lra.
Qed.

Lemma zero_length_segment (seg : Segment) :
  nonDegenerate seg -> segmentTotalLength seg = 0 -> segEnd seg = segStart seg.
Proof.
  destruct seg as [ s e | s e radius ]; cbn [nonDegenerate segEnd segStart].
  - intros _ Hz. unfold segmentTotalLength in Hz.
    apply hypot_eq_0 in Hz. destruct Hz as [Hx Hy].
    destruct s as [sx sy], e as [ex ey]. cbn [x y] in *. f_equal; lra.
  - intros Hnd Hz.
    destruct (calculateArcCenter s e radius) as [ c | ] eqn:Ec; [ | contradiction ].
    destruct (arc_walk_length s e c radius Ec) as [_ Hpos]. lra.
Qed.

Lemma zero_total_axisEnd (p : Point2D) (axisData : list Segment) :
  contiguousFrom p axisData -> Forall nonDegenerate axisData ->
  computeAxisTotalLength axisData = 0 -> axisEnd p axisData = p.
Proof.
  revert p. induction axisData as [ | seg rest IH ]; intros p Hcont Hnd Hz.
  - reflexivity.
  - destruct Hcont as [Hstart Hcont].
    inversion Hnd as [ | ? ? Hseg Hrest ]; subst.
    rewrite computeAxisTotalLength_cons in Hz.
    pose proof (segmentTotalLength_nonneg seg).
    pose proof (computeAxisTotalLength_nonneg rest).
    cbn [axisEnd]. rewrite IH by (assumption || lra).
    apply zero_length_segment; [ exact Hseg | lra ].
Qed.

(** At length 0 the walk stops at the start of the first segment. *)
Lemma walkAxis_start (seg : Segment) (rest : list Segment) :
  nonDegenerate seg -> walkAxis (seg :: rest) 0 = Some (segStart seg).
Proof.
  destruct seg as [ s e | s e radius ]; cbn [nonDegenerate segStart walkAxis].
  - intros _. rewrite leb_true by apply hypot_nonneg.
    destruct (_ =? 0); [ | replace (0 / _) with 0 by (unfold Rdiv; ring) ];
      rewrite !Rmult_0_r, !Rplus_0_r; now rewrite point_eta.
  - intros Hnd.
    destruct (calculateArcCenter s e radius) as [ c | ] eqn:Ec; [ | contradiction ].
    destruct (calculateArcCenter_Some _ _ _ _ Ec) as (Hr & _).
    rewrite truthy_true by exact Hr.
    assert (Hlen : 0 <= Rabs (arcAngleDiff s e c radius) * Rabs radius).
    { apply Rmult_le_pos; apply Rabs_pos. }
    rewrite leb_true by exact Hlen.
    destruct (_ =? 0); [ | replace (0 / _) with 0 by (unfold Rdiv; ring) ];
      rewrite Rmult_0_r, Rplus_0_r; now rewrite (arcPoint_start s e c radius Ec).
Qed.

(** With exactly the length of the first segment left, the walk stops at
    its end. *)
Lemma walkAxis_segment_end (seg : Segment) (rest : list Segment) :
  nonDegenerate seg ->
  walkAxis (seg :: rest) (segmentTotalLength seg) = Some (segEnd seg).
Proof.
  destruct seg as [ s e | s e radius ]; cbn [nonDegenerate segEnd walkAxis].
  - intros _. cbn [segmentTotalLength]. rewrite leb_true by lra.
    destruct (eqb_spec (JS.hypot (x e - x s) (y e - y s)) 0) as [Hz | Hz].
    + apply hypot_eq_0 in Hz. destruct Hz as [Hx Hy].
      destruct s as [sx sy], e as [ex ey]. cbn [x y] in *.
      do 2 f_equal; lra.
    + replace (_ / _) with 1 by (field; exact Hz).
      destruct s as [sx sy], e as [ex ey]. cbn [x y].
      do 2 f_equal; ring.
  - intros Hnd.
    destruct (calculateArcCenter s e radius) as [ c | ] eqn:Ec; [ | contradiction ].
    destruct (calculateArcCenter_Some _ _ _ _ Ec) as (Hr & _).
    destruct (arc_walk_length s e c radius Ec) as [Hlen Hpos].
    rewrite truthy_true by exact Hr.
    rewrite Hlen. rewrite leb_true by lra. rewrite eqb_false by lra.
    replace (_ / _) with 1 by (field; lra).
    rewrite Rmult_1_r. now rewrite (arcPoint_end s e c radius Ec).
Qed.

(** With more than the length of the first segment left, the walk goes on
    with the rest. *)
Lemma walkAxis_next (seg : Segment) (rest : list Segment) (remaining : R) :
  nonDegenerate seg ->
  segmentTotalLength seg < remaining ->
  walkAxis (seg :: rest) remaining
  = walkAxis rest (remaining - segmentTotalLength seg).
Proof.
  destruct seg as [ s e | s e radius ]; cbn [nonDegenerate walkAxis].
  - intros _ Hlt. cbn [segmentTotalLength] in *. now rewrite leb_false by lra.
  - intros Hnd Hlt.
    destruct (calculateArcCenter s e radius) as [ c | ] eqn:Ec; [ | contradiction ].
    destruct (calculateArcCenter_Some _ _ _ _ Ec) as (Hr & _).
    destruct (arc_walk_length s e c radius Ec) as [Hlen Hpos].
    rewrite truthy_true by exact Hr.
    rewrite Hlen. now rewrite leb_false by lra.
Qed.

(** At the total length the walk stops at the end of the last segment. *)
Lemma walkAxis_total (seg : Segment) (rest : list Segment) :
  contiguousFrom (segStart seg) (seg :: rest) ->
  Forall nonDegenerate (seg :: rest) ->
  walkAxis (seg :: rest) (computeAxisTotalLength (seg :: rest))
  = Some (axisEnd (segStart seg) (seg :: rest)).
Proof.
  revert seg. induction rest as [ | seg' rest IH ]; intros seg Hcont Hnd.
  - inversion Hnd as [ | ? ? Hseg _ ]; subst.
    rewrite computeAxisTotalLength_cons.
    replace (computeAxisTotalLength []) with 0 by reflexivity.
    rewrite Rplus_0_r. now apply walkAxis_segment_end.
  - destruct Hcont as [_ Hcont].
    inversion Hnd as [ | ? ? Hseg Hrest ]; subst.
    rewrite computeAxisTotalLength_cons.
    pose proof (computeAxisTotalLength_nonneg (seg' :: rest)) as Hnn.
    cbn [axisEnd].
    destruct (Req_dec_T (computeAxisTotalLength (seg' :: rest)) 0) as [Hz | Hz].
    + rewrite Hz, Rplus_0_r. rewrite walkAxis_segment_end by exact Hseg.
      f_equal. symmetry.
      apply (zero_total_axisEnd (segEnd seg) (seg' :: rest)); assumption.
    + rewrite walkAxis_next by (assumption || lra).
      replace (_ + _ - _) with (computeAxisTotalLength (seg' :: rest)) by ring.
      destruct Hcont as [Hstart Hcont'].
      rewrite IH; [ | split; [ reflexivity | exact Hcont' ] | exact Hrest ].
      reflexivity.
Qed.

(** C1.  On a valid axis, one with at least one segment, each segment
    starting where the one before it ends, and no degenerate arc,
    [getPositionAtLength] at length 0 is the start point of the first
    segment, and at the total length of [computeAxisTotalLength] it is the
    end point of the last segment. *)
Theorem getPositionAtLength_endpoints (axisData : list Segment) :
  validAxis axisData ->
  match axisData with
  | [] => False
  | first :: _ =>
      getPositionAtLength axisData 0 = segStart first
      /\ getPositionAtLength axisData (computeAxisTotalLength axisData)
         = segEnd (List.last axisData first)
  end.
Proof.
  destruct axisData as [ | first rest ]; [ intros [] | ].
  intros [Hcont Hnd]. unfold getPositionAtLength. split.
  - inversion Hnd as [ | ? ? Hfirst _ ]; subst.
    now rewrite walkAxis_start.
  - rewrite walkAxis_total by assumption.
    apply axisEnd_last.
Qed.

End AxisEndpoints.

Lemma testAxis_valid : validAxis testAxis.
Proof.
  unfold validAxis, testAxis. split.
  - cbn [contiguousFrom segStart segEnd]. repeat split.
  - constructor; [ exact I | ]. constructor; [ | constructor ].
    cbn [nonDegenerate]. rewrite calculateArcCenter_None_iff.
    unfold chordOf. cbn [pt x y].
    rewrite (hypot_is (10 - 10) (10 - 0) 10) by lra.
    rewrite (Rabs_pos_eq 10) by lra.
    intros [H | [H | H]]; lra.
Qed.

(** C1 on the axis of the tests: from (0,0) to (10,10). *)
Lemma getPositionAtLength_endpoints_witness :
  validAxis testAxis
  /\ getPositionAtLength testAxis 0 = pt 0 0
  /\ getPositionAtLength testAxis (computeAxisTotalLength testAxis) = pt 10 10.
Proof.
  split; [ exact testAxis_valid | ].
  exact (getPositionAtLength_endpoints testAxis testAxis_valid).
Defined.

(* ================================================================= *)
(** ** Height interpolation *)

Section Heights.



Lemma last_cons {A : Type} (a d : A) (l : list A) :
  List.last (a :: l) d = List.last l a.
Proof.
  revert a d. induction l as [ | b l IH ]; intros a d; [ reflexivity | ].
  change (List.last (a :: b :: l) d) with (List.last (b :: l) d).
  rewrite (IH b d), (IH b a). reflexivity.
Qed.




Variable heightAssignments : list HeightAssignment.
Variable len : R.

Let sorted := sortBy ha_length heightAssignments.




End Heights.


(* ================================================================= *)
(** ** Closure of a sampled profile *)

Section Closure.

(** The polyline is not empty and its first and last points are at most
    [tol] apart. *)
Definition closedWithin (tol : R) (pts : list Point2D) : Prop :=
  match pts with
  | [] => False
  | first :: _ =>
      let last := List.last pts first in
      JS.hypot (x first - x last) (y first - y last) <= tol
  end.

Lemma gap_same_point (p q : Point2D) :
  x p = x q -> y p = y q -> JS.hypot (x p - x q) (y p - y q) = 0.
Proof.
  intros Hx Hy. rewrite Hx, Hy.
  replace (x q - x q) with 0 by ring. replace (y q - y q) with 0 by ring.
  apply hypot_0_0.
Qed.

Lemma closePolyline_closed (pts : list Point2D) :
  pts <> [] -> closedWithin 1e-6 (closePolyline pts).
Proof.
  destruct pts as [ | first [ | second rest ] ]; intros Hne.
  - contradiction.
  - simpl. rewrite gap_same_point by reflexivity. lra.
  - unfold closePolyline, JS.gtb.
    set (pts := first :: second :: rest).
    destruct (ltb_spec 1e-6
                (JS.hypot (x first - x (List.last pts first))
                          (y first - y (List.last pts first)))) as [Hgap|Hgap].
    + unfold closedWithin. subst pts. cbn [app].
      change (first :: second :: rest ++ [ {| x := x first; y := y first |} ])
        with ((first :: second :: rest) ++ [ {| x := x first; y := y first |} ]).
      rewrite last_last. rewrite gap_same_point by reflexivity. lra.
    + unfold closedWithin. subst pts. lra.
Qed.

(** C9.  For a profile with at least one segment, the polyline of
    [sampleProfilePoints] is closed: it has a first and a last point, and
    they are at most 1e-6 apart. *)
Theorem sampleProfilePoints_closed (profile : Profile) (options : Options) :
  segments profile <> [] ->
  closedWithin 1e-6 (sampleProfilePoints profile options).
Proof.
  intros Hseg. unfold sampleProfilePoints.
  destruct (segments profile) as [ | seg0 rest ] eqn:E; [ contradiction | ].
  apply closePolyline_closed. discriminate.
Qed.

End Closure.

(** *** The sampled polylines of the inputs *)


Lemma sample_prof2 :
  sampleProfilePoints prof2 testOptions = [ pt 0 0; pt 4 0; pt 0 0 ].
Proof.
  unfold sampleProfilePoints, prof2.
  cbn [segments flat_map sampleSegment app segStart pt x y closePolyline List.last].
  rewrite (hypot_is (0 - 4) (0 - 0) 4) by lra.
  now rewrite gtb_true by lra.
Qed.

Lemma sample_wall :
  sampleProfilePoints wall testOptions = [ pt 5 (-1); pt 5 1; pt 5 (-1) ].
Proof.
  unfold sampleProfilePoints, wall.
  cbn [segments flat_map sampleSegment app segStart pt x y closePolyline List.last].
  rewrite (hypot_is (5 - 5) (-1 - 1) 2) by lra.
  now rewrite gtb_true by lra.
Qed.

Lemma sample_square : sampleProfilePoints square testOptions = squarePts.
Proof.
  unfold sampleProfilePoints, square.
  cbn [segments flat_map sampleSegment app segStart pt x y closePolyline List.last].
  rewrite (hypot_is (2 - 2) (2 - 2) 0) by lra.
  now rewrite gtb_false by lra.
Qed.

(** C9 on the profile P1 of the tests. *)
Lemma sampleProfilePoints_closed_witness :
  segments prof1 <> []
  /\ closedWithin 1e-6 (sampleProfilePoints prof1 testOptions).
Proof.
  assert (Hseg : segments prof1 <> []) by discriminate.
  split; [ exact Hseg | ].
  exact (sampleProfilePoints_closed prof1 testOptions Hseg).
Defined.

(* ================================================================= *)
(** ** Order and range of the merged angles *)

Section MergeOrder.

Lemma trunc_nonneg (q : R) :
  0 <= q -> JS.trunc q <= q < JS.trunc q + 1.
Proof.
  intros Hq. unfold JS.trunc. rewrite leb_true by exact Hq.
  pose proof (base_Int_part q). lra.
Qed.

Lemma trunc_neg (q : R) :
  q < 0 -> q <= JS.trunc q < q + 1.
Proof.
  intros Hq. unfold JS.trunc. rewrite leb_false by exact Hq.
  pose proof (base_Int_part (- q)). lra.
Qed.

(** The remainder has the sign of the dividend and is smaller than the
    divisor. *)
Lemma fmod_range (a b : R) :
  0 < b ->
  (0 <= a -> 0 <= JS.fmod a b < b) /\ (a < 0 -> - b < JS.fmod a b <= 0).
Proof.
  intros Hb. unfold JS.fmod.
  assert (Ha : a = (a / b) * b) by (field; lra).
  set (q := a / b) in *.
  split; intros Hsign.
  - assert (Hq : 0 <= q).
    { unfold q. apply Rmult_le_pos; [ exact Hsign | ].
      left. now apply Rinv_0_lt_compat. }
    pose proof (trunc_nonneg q Hq) as [Hlo Hhi].
    rewrite Ha at 1 2. split; nra.
  - assert (Hq : q < 0).
    { destruct (Rlt_dec q 0) as [ | Hn ]; [ assumption | ].
      exfalso. assert (0 <= q) by lra. nra. }
    pose proof (trunc_neg q Hq) as [Hlo Hhi].
    rewrite Ha at 1 2. split; nra.
Qed.

Lemma normalizeAngle_range (a : R) : 0 <= normalizeAngle a < 2 * PI.
Proof.
  unfold normalizeAngle.
  assert (Hb : 0 < 2 * PI) by (pose proof PI_RGT_0; lra).
  destruct (fmod_range a (2 * PI) Hb) as [Hpos Hneg].
  destruct (ltb_spec (JS.fmod a (2 * PI)) 0) as [Hr|Hr].
  - destruct (Rle_dec 0 a) as [Ha|Ha].
    + specialize (Hpos Ha). lra.
    + assert (Ha' : a < 0) by lra. specialize (Hneg Ha'). lra.
  - destruct (Rle_dec 0 a) as [Ha|Ha].
    + specialize (Hpos Ha). lra.
    + assert (Ha' : a < 0) by lra. specialize (Hneg Ha'). lra.
Qed.

Definition angleInRange (m : MergedPointPair) : Prop :=
  0 <= angle m < 2 * PI.

Lemma collect_angles (options : Options) (sourcePts otherPts : list Point2D)
  (isSourceProfile1 : bool) :
  Forall angleInRange (collect options sourcePts otherPts isSourceProfile1).
Proof.
  unfold collect. apply Forall_flat_map. apply Forall_forall. intros pt0 _.
  destruct (intersectProfileWithRay _ _ _) as [ m | ]; [ | constructor ].
  destruct isSourceProfile1; (constructor; [ | constructor ]);
    unfold angleInRange; cbn [angle]; apply normalizeAngle_range.
Qed.

(** C7.  For every two profiles and sampling options the list of
    [mergeProfilesByAngle] is in non-decreasing order of its angles, and
    every angle is at least 0 and less than [2 * PI]. *)
Theorem mergeProfilesByAngle_sorted (profile1 profile2 : Profile)
  (options : Options) :
  StronglySorted (fun a b => angle a <= angle b)
    (mergeProfilesByAngle profile1 profile2 options)
  /\ Forall (fun m => 0 <= angle m < 2 * PI)
       (mergeProfilesByAngle profile1 profile2 options).
Proof.
  unfold mergeProfilesByAngle. split.
  - apply (sortBy_sorted angle).
  - eapply Permutation_Forall; [ apply sortBy_perm | ].
    apply Forall_app. split; apply collect_angles.
Qed.

End MergeOrder.

(* ================================================================= *)
(** ** The correspondence of the cross-profile merge *)

Section Correspondence.

(** The unit direction of the ray for a target point. *)
Definition rayDirection (target : Point2D) : Point2D :=
  let mag := JS.hypot (x target) (y target) in
  {| x := x target / mag; y := y target / mag |}.

(** [h] is the hit of the ray on one of the given segments, with a ray
    parameter that is not negative. *)
Definition candidate (origin dir : Point2D)
  (pairs : list (Point2D * Point2D)) (h : Hit) : Prop :=
  exists ab,
    In ab pairs
    /\ raySegmentIntersection origin dir (fst ab) (snd ab) = Some h
    /\ 0 <= hit_t h.

Lemma candidate_cons (origin dir : Point2D) (ab : Point2D * Point2D)
  (pairs : list (Point2D * Point2D)) (h : Hit) :
  candidate origin dir (ab :: pairs) h
  <-> (raySegmentIntersection origin dir (fst ab) (snd ab) = Some h
       /\ 0 <= hit_t h)
      \/ candidate origin dir pairs h.
Proof.
  unfold candidate. split.
  - intros (ab' & [Heq | Hin] & Hhit & Ht).
    + subst ab'. left. split; assumption.
    + right. exists ab'. repeat split; assumption.
  - intros [ [Hhit Ht] | (ab' & Hin & Hhit & Ht) ].
    + exists ab. repeat split; [ left; reflexivity | assumption | assumption ].
    + exists ab'. repeat split; [ right; assumption | assumption | assumption ].
Qed.

(** What the loop of [intersectProfileWithRay] leaves in [best]. *)
Definition nearestOf (origin dir : Point2D)
  (pairs : list (Point2D * Point2D)) (start result : option Hit) : Prop :=
  match result with
  | Some r =>
      (start = Some r \/ candidate origin dir pairs r)
      /\ (forall b, start = Some b -> hit_t r <= hit_t b)
      /\ (forall h, candidate origin dir pairs h -> hit_t r <= hit_t h)
  | None => start = None /\ forall h, ~ candidate origin dir pairs h
  end.

Lemma betterHit_nearest (origin dir : Point2D) (best : option Hit)
  (ab : Point2D * Point2D) :
  nearestOf origin dir [ab] best (betterHit origin dir best ab).
Proof.
  unfold betterHit, nearestOf, JS.geb.
  destruct (raySegmentIntersection origin dir (fst ab) (snd ab))
    as [ hit | ] eqn:Ehit.
  - assert (Hcand : forall h, candidate origin dir [ab] h
                              -> h = hit /\ 0 <= hit_t hit).
    { intros h (ab' & [Heq | []] & Hh & Ht). subst ab'.
      rewrite Ehit in Hh. inversion Hh; subst. split; [ reflexivity | exact Ht ]. }
    destruct (leb_spec 0 (hit_t hit)) as [Ht|Ht]; cbn [andb].
    + assert (Hin : candidate origin dir [ab] hit).
      { exists ab. repeat split; [ left; reflexivity | exact Ehit | exact Ht ]. }
      destruct best as [ b | ].
      * destruct (ltb_spec (hit_t hit) (hit_t b)) as [Hlt|Hlt].
        -- split; [ right; exact Hin | ]. split.
           ++ intros b' Hb'. inversion Hb'; subst. lra.
           ++ intros h Hh. apply Hcand in Hh. destruct Hh as [-> _]. lra.
        -- split; [ left; reflexivity | ]. split.
           ++ intros b' Hb'. inversion Hb'; subst. lra.
           ++ intros h Hh. apply Hcand in Hh. destruct Hh as [-> _]. lra.
      * split; [ right; exact Hin | ]. split.
        -- intros b' Hb'. discriminate.
        -- intros h Hh. apply Hcand in Hh. destruct Hh as [-> _]. lra.
    + destruct best as [ b | ].
      * split; [ left; reflexivity | ]. split.
        -- intros b' Hb'. inversion Hb'; subst. lra.
        -- intros h Hh. apply Hcand in Hh. lra.
      * split; [ reflexivity | ].
        intros h Hh. apply Hcand in Hh. lra.
  - assert (Hcand : forall h, ~ candidate origin dir [ab] h).
    { intros h (ab' & [Heq | []] & Hh & Ht). subst ab'.
      rewrite Ehit in Hh. discriminate. }
    destruct best as [ b | ].
    + split; [ left; reflexivity | ]. split.
      * intros b' Hb'. inversion Hb'; subst. lra.
      * intros h Hh. now apply Hcand in Hh.
    + split; [ reflexivity | exact Hcand ].
Qed.

Lemma nearestOf_step (origin dir : Point2D) (ab : Point2D * Point2D)
  (pairs : list (Point2D * Point2D)) (start middle result : option Hit) :
  nearestOf origin dir [ab] start middle ->
  nearestOf origin dir pairs middle result ->
  nearestOf origin dir (ab :: pairs) start result.
Proof.
  assert (Hone : forall h, candidate origin dir [ab] h
                           -> candidate origin dir (ab :: pairs) h).
  { intros h (ab' & [Heq | []] & Hh & Ht). subst ab'.
    exists ab. repeat split; [ left; reflexivity | exact Hh | exact Ht ]. }
  assert (Hrest : forall h, candidate origin dir pairs h
                            -> candidate origin dir (ab :: pairs) h).
  { intros h Hh. apply candidate_cons. right. exact Hh. }
  assert (Hsplit : forall h, candidate origin dir (ab :: pairs) h
                             -> candidate origin dir [ab] h
                                \/ candidate origin dir pairs h).
  { intros h Hh. apply candidate_cons in Hh. destruct Hh as [ [Hh Ht] | Hh ].
    - left. exists ab. repeat split; [ left; reflexivity | exact Hh | exact Ht ].
    - right. exact Hh. }
  unfold nearestOf. intros H1 H2.
  destruct result as [ r | ].
  - destruct H2 as (Hfrom2 & Hmid & Hmin2).
    destruct middle as [ m | ].
    + destruct H1 as (Hfrom1 & Hstart & Hmin1).
      specialize (Hmid m eq_refl).
      split; [ | split ].
      * destruct Hfrom2 as [Hr | Hr]; [ | right; now apply Hrest ].
        inversion Hr; subst.
        destruct Hfrom1 as [Hm | Hm]; [ left; exact Hm | right; now apply Hone ].
      * intros b Hb. specialize (Hstart b Hb). lra.
      * intros h Hh. apply Hsplit in Hh. destruct Hh as [Hh | Hh].
        -- specialize (Hmin1 h Hh). lra.
        -- now apply Hmin2.
    + destruct H1 as (Hstart & Hno1).
      split; [ | split ].
      * destruct Hfrom2 as [Hr | Hr]; [ discriminate | right; now apply Hrest ].
      * intros b Hb. rewrite Hstart in Hb. discriminate.
      * intros h Hh. apply Hsplit in Hh. destruct Hh as [Hh | Hh].
        -- now apply Hno1 in Hh.
        -- now apply Hmin2.
  - destruct H2 as (Hmid & Hno2). subst middle.
    destruct H1 as (Hstart & Hno1).
    split; [ exact Hstart | ].
    intros h Hh. apply Hsplit in Hh. destruct Hh as [Hh | Hh].
    + now apply Hno1 in Hh.
    + now apply Hno2 in Hh.
Qed.

Lemma fold_betterHit_nearest (origin dir : Point2D)
  (pairs : list (Point2D * Point2D)) (best : option Hit) :
  nearestOf origin dir pairs best
    (fold_left (betterHit origin dir) pairs best).
Proof.
  revert best. induction pairs as [ | ab pairs IH ]; intros best.
  - cbn [fold_left]. unfold nearestOf.
    destruct best as [ b | ].
    + split; [ left; reflexivity | ]. split.
      * intros b' Hb'. inversion Hb'; subst. lra.
      * intros h (ab & [] & _).
    + split; [ reflexivity | ]. intros h (ab & [] & _).
  - cbn [fold_left].
    eapply nearestOf_step; [ apply betterHit_nearest | apply IH ].
Qed.

End Correspondence.

(* ================================================================= *)
(** ** Evaluating the ray intersection on concrete polylines *)

(** The hit of [raySegmentIntersection], given the two parameters. *)
Lemma raySegmentIntersection_hit (origin dir a b : Point2D) (t u : R) :
  let sx := x b - x a in
  let sy := y b - y a in
  let denom := x dir * sy - y dir * sx in
  1e-9 <= Rabs denom ->
  t * denom = x a * sy - y a * sx ->
  u * denom = x a * y dir - y a * x dir ->
  - 1e-9 <= t -> - 1e-9 <= u <= 1 + 1e-9 ->
  raySegmentIntersection origin dir a b
  = Some {| hit_t := t;
            hit_point := {| x := x origin + x dir * t;
                            y := y origin + y dir * t |} |}.
Proof.
  intros sx sy denom Hden Ht Hu Htpos Hu01.
  unfold raySegmentIntersection. fold sx sy denom.
  assert (Hnz : denom <> 0).
  { intros Hz. rewrite Hz, Rabs_R0 in Hden. lra. }
  rewrite ltb_false by exact Hden.
  replace ((x a * sy - y a * sx) / denom) with t by (rewrite <- Ht; field; exact Hnz).
  replace ((x a * y dir - y a * x dir) / denom) with u by (rewrite <- Hu; field; exact Hnz).
  rewrite (ltb_false t) by lra. rewrite (ltb_false u) by lra.
  rewrite gtb_false by lra. reflexivity.
Qed.

Lemma centroid_prof2 :
  compute2DCentroid [ pt 0 0; pt 4 0; pt 0 0 ] = pt (4 / 3) 0.
Proof.
  unfold compute2DCentroid. cbn [fold_left List.length pt x y].
  rewrite !orElse_0. apply pt_eq; simpl INR; lra.
Qed.

Lemma centroid_wall :
  compute2DCentroid [ pt 5 (-1); pt 5 1; pt 5 (-1) ] = pt 5 (-1 / 3).
Proof.
  unfold compute2DCentroid. cbn [fold_left List.length pt x y].
  rewrite !orElse_0. apply pt_eq; simpl INR; lra.
Qed.

Lemma intersect_wall (options : Options) :
  intersectProfileWithRay (pt (8 / 3) 0) [ pt 5 (-1); pt 5 1; pt 5 (-1) ] options
  = Some (pt 10 (-1 / 3)).
Proof.
  unfold intersectProfileWithRay. rewrite centroid_wall.
  cbn [pt x y]. rewrite (truthy_true (8 / 3)) by lra. cbn [negb andb].
  rewrite (hypot_is (8 / 3) 0 (8 / 3)) by lra.
  rewrite ltb_false by lra.
  replace (8 / 3 / (8 / 3)) with 1 by lra.
  replace (0 / (8 / 3)) with 0 by lra.
  cbn [consecutive fold_left]. unfold betterHit. cbn [fst snd].
  rewrite (raySegmentIntersection_hit _ _ (pt 5 (-1)) (pt 5 1) 5 (1 / 2));
    cbn [pt x y]; try lra; [ | apply Rabs_ge; lra ].
  cbn [hit_t]. rewrite geb_true by lra. cbn [andb].
  rewrite (raySegmentIntersection_hit _ _ (pt 5 1) (pt 5 (-1)) 5 (1 / 2));
    cbn [pt x y]; try lra; [ | apply Rabs_ge_neg; lra ].
  cbn [hit_t]. rewrite geb_true by lra. rewrite ltb_false by lra. cbn [andb hit_point].
  f_equal. apply pt_eq; lra.
Qed.

Lemma centroid_square : compute2DCentroid squarePts = pt (22 / 5) (22 / 5).
Proof.
  unfold compute2DCentroid, squarePts. cbn [fold_left List.length pt x y].
  rewrite !orElse_0. apply pt_eq; simpl INR; lra.
Qed.

(** What the parameters of a hit solve: the ray of the solve starts at the
    world origin, whatever [origin] is; [origin] only moves the reported
    point. *)
Lemma raySegmentIntersection_solves (origin dir a b : Point2D) (h : Hit) :
  raySegmentIntersection origin dir a b = Some h ->
  exists u,
    - 1e-9 <= u <= 1 + 1e-9
    /\ x dir * hit_t h = x a + u * (x b - x a)
    /\ y dir * hit_t h = y a + u * (y b - y a)
    /\ hit_point h = {| x := x origin + x dir * hit_t h;
                        y := y origin + y dir * hit_t h |}.
Proof.
  unfold raySegmentIntersection.
  set (sx := x b - x a). set (sy := y b - y a).
  set (denom := x dir * sy - y dir * sx).
  destruct (ltb_spec (Rabs denom) 1e-9) as [ | Hden ]; [ discriminate | ].
  assert (Hnz : denom <> 0).
  { intros Hz. rewrite Hz, Rabs_R0 in Hden. lra. }
  set (t := (x a * sy - y a * sx) / denom).
  set (u := (x a * y dir - y a * x dir) / denom).
  destruct (ltb_spec t (- 1e-9)) as [ | Ht ]; [ discriminate | ].
  destruct (ltb_spec u (- 1e-9)) as [ | Hu0 ]; [ discriminate | ].
  unfold JS.gtb.
  destruct (ltb_spec (1 + 1e-9) u) as [ | Hu1 ]; [ discriminate | ].
  cbn [orb]. intros Hh. inversion Hh; subst h. cbn [hit_t hit_point].
  exists u. split; [ lra | ].
  split; [ | split; [ | reflexivity ] ].
  - unfold t, u, denom. field. exact Hnz.
  - unfold t, u, denom. field. exact Hnz.
Qed.

Lemma raySegmentIntersection_miss (origin dir a b : Point2D) (u : R) :
  let sx := x b - x a in
  let sy := y b - y a in
  let denom := x dir * sy - y dir * sx in
  denom <> 0 ->
  u * denom = x a * y dir - y a * x dir ->
  u < - 1e-9 \/ 1 + 1e-9 < u ->
  raySegmentIntersection origin dir a b = None.
Proof.
  intros sx sy denom Hnz Hu Hout.
  unfold raySegmentIntersection. fold sx sy denom.
  destruct (Rabs denom <? 1e-9); [ reflexivity | ].
  replace ((x a * y dir - y a * x dir) / denom) with u
    by (rewrite <- Hu; field; exact Hnz).
  destruct (_ <? - 1e-9); [ reflexivity | ]. cbn [orb].
  destruct Hout as [Hlow | Hhigh].
  - now rewrite (ltb_true u) by exact Hlow.
  - rewrite (gtb_true u) by exact Hhigh. now rewrite orb_true_r.
Qed.

(** The ray test of geometry.test.js: the target (10,5) against the
    square from 2 to 8.  The ray of the solve goes from the world origin
    through (10,5) and meets the bottom edge at (4,2), at distance
    [2 * sqrt 125 / 5]; the reported point is that far from the centroid
    (22/5, 22/5) of the square: (42/5, 32/5). *)
Lemma intersectProfileWithRay_square (options : Options) :
  intersectProfileWithRay (pt 10 5) squarePts options
  = Some (pt (42 / 5) (32 / 5)).
Proof.
  unfold intersectProfileWithRay, squarePts. fold squarePts.
  rewrite centroid_square. cbn [pt x y].
  rewrite (truthy_true 10) by lra. cbn [negb andb].
  set (m := JS.hypot 10 5).
  assert (Hmm : m * m = 125) by (unfold m; rewrite hypot_sq; lra).
  assert (Hm0 : 0 <= m) by apply hypot_nonneg.
  assert (Hm : 11 < m < 12) by (split; nra).
  assert (Hinv : / 12 < / m < / 11).
  { split; apply Rinv_lt_contravar; nra. }
  rewrite ltb_false by lra.
  unfold squarePts. cbn [consecutive fold_left]. unfold betterHit. cbn [fst snd].
  rewrite (raySegmentIntersection_hit _ _ (pt 2 2) (pt 8 2) (2 * m / 5) (1 / 3));
    cbn [pt x y];
    [ | apply Rabs_ge_neg; unfold Rdiv; lra | field; lra | field; lra | lra | lra ].
  cbn [hit_t]. rewrite geb_true by lra. cbn [andb].
  rewrite (raySegmentIntersection_hit _ _ (pt 8 2) (pt 8 8) (4 * m / 5) (1 / 3));
    cbn [pt x y];
    [ | apply Rabs_ge; unfold Rdiv; lra | field; lra | field; lra | lra | lra ].
  cbn [hit_t]. rewrite geb_true by lra. rewrite ltb_false by lra. cbn [andb].
  rewrite (raySegmentIntersection_miss _ _ (pt 8 8) (pt 2 8) (- 4 / 3));
    cbn [pt x y];
    [ | unfold Rdiv; lra | field; lra | left; lra ].
  rewrite (raySegmentIntersection_miss _ _ (pt 2 8) (pt 2 2) (7 / 6));
    cbn [pt x y];
    [ | unfold Rdiv; lra | field; lra | right; lra ].
  cbn [hit_point]. f_equal. apply pt_eq; field; lra.
Qed.

Section MergeCorrespondence.

(** [q] is the reported point of a hit, among those of the ray of [target]
    on the consecutive points of [pts], with the smallest ray parameter
    that is not negative. *)
Definition nearestHit (target : Point2D) (pts : list Point2D) (q : Point2D)
  : Prop :=
  exists h,
    candidate (compute2DCentroid pts) (rayDirection target) (consecutive pts) h
    /\ hit_point h = q
    /\ forall h',
         candidate (compute2DCentroid pts) (rayDirection target)
           (consecutive pts) h' ->
         hit_t h <= hit_t h'.

(** The target is shorter than 1e-9, or its ray hits no segment with a ray
    parameter that is not negative. *)
Definition noHit (target : Point2D) (pts : list Point2D) : Prop :=
  JS.hypot (x target) (y target) < 1e-9
  \/ forall h,
       ~ candidate (compute2DCentroid pts) (rayDirection target)
           (consecutive pts) h.

Lemma intersectProfileWithRay_nearest (target : Point2D)
  (pts : list Point2D) (options : Options) :
  match intersectProfileWithRay target pts options with
  | Some q => nearestHit target pts q
  | None => noHit target pts
  end.
Proof.
  unfold intersectProfileWithRay.
  destruct pts as [ | p0 pts ].
  { right. intros h (ab & [] & _). }
  set (pts' := p0 :: pts).
  destruct (negb (JS.truthy (x target)) && negb (JS.truthy (y target))) eqn:Ezero.
  { left. apply andb_prop in Ezero. destruct Ezero as [Hx Hy].
    unfold JS.truthy in Hx, Hy. rewrite negb_involutive in Hx, Hy.
    destruct (eqb_spec (x target) 0) as [Hx0|]; [ | discriminate ].
    destruct (eqb_spec (y target) 0) as [Hy0|]; [ | discriminate ].
    rewrite Hx0, Hy0, hypot_0_0. lra. }
  cbn [x y].
  destruct (ltb_spec (JS.hypot (x target) (y target)) 1e-9) as [Hmag|Hmag].
  { left. exact Hmag. }
  pose proof (fold_betterHit_nearest (compute2DCentroid pts')
                (rayDirection target) (consecutive pts') None) as Hfold.
  unfold rayDirection in Hfold at 2.
  destruct (fold_left _ _ None) as [ best | ].
  - destruct Hfold as ([Hb | Hb] & _ & Hmin); [ discriminate | ].
    exists best. split; [ exact Hb | ]. split; [ reflexivity | exact Hmin ].
  - destruct Hfold as (_ & Hno). right. exact Hno.
Qed.

Variables (profileA profileB : Profile) (options : Options).

Let ptsA := sampleProfilePoints profileA options.
Let ptsB := sampleProfilePoints profileB options.

(** The offset of a point of A from the centroid of A. *)
Definition fromCentroid (pts : list Point2D) (p : Point2D) : Point2D :=
  {| x := x p - x (compute2DCentroid pts);
     y := y p - y (compute2DCentroid pts) |}.

(** The first pass of the merge, as the code has it.  For a point [p] of
    the sampled polyline of A for which [intersectProfileWithRay] reports
    a point, that point is the reported point of a hit with the smallest
    ray parameter that is not negative, among the hits of the direction
    from the centroid of A toward [p] on the pairs of consecutive points
    of the sampled polyline of B, and the merge has an entry that pairs
    [p] with it.  When nothing is reported, the offset of [p] is shorter
    than 1e-9 or no pair is hit. *)
Lemma mergeProfilesByAngle_correspondence (p : Point2D) :
  In p ptsA ->
  match intersectProfileWithRay (fromCentroid ptsA p) ptsB options with
  | Some q =>
      nearestHit (fromCentroid ptsA p) ptsB q
      /\ exists m,
           In m (mergeProfilesByAngle profileA profileB options)
           /\ point1 m = p /\ point2 m = q
  | None => noHit (fromCentroid ptsA p) ptsB
  end.
Proof.
  intros Hp.
  pose proof (intersectProfileWithRay_nearest (fromCentroid ptsA p) ptsB options)
    as Hnear.
  destruct (intersectProfileWithRay (fromCentroid ptsA p) ptsB options)
    as [ q | ] eqn:Ehit; [ | exact Hnear ].
  split; [ exact Hnear | ].
  exists {| angle := normalizeAngle (JS.atan2 (y p) (x p));
            point1 := p; point2 := q |}.
  split; [ | split; reflexivity ].
  unfold mergeProfilesByAngle. fold ptsA ptsB.
  eapply Permutation_in; [ apply sortBy_perm | ].
  apply in_or_app. left.
  unfold collect. apply in_flat_map. exists p. split; [ exact Hp | ].
  unfold fromCentroid in Ehit. rewrite Ehit. left. reflexivity.
Qed.

End MergeCorrespondence.

(** The point of the ray from [origin] through [through] at parameter [s]. *)
Definition rayThrough (origin through : Point2D) (s : R) : Point2D :=
  {| x := x origin + s * (x through - x origin);
     y := y origin + s * (y through - y origin) |}.

(** The point of the segment from [a] to [b] at parameter [u]. *)
Definition segmentPoint (a b : Point2D) (u : R) : Point2D :=
  {| x := x a + u * (x b - x a); y := y a + u * (y b - y a) |}.

(** A segment that the line of the ray meets behind its start. *)
Lemma raySegmentIntersection_behind (origin dir a b : Point2D) (t : R) :
  let sx := x b - x a in
  let sy := y b - y a in
  let denom := x dir * sy - y dir * sx in
  denom <> 0 ->
  t * denom = x a * sy - y a * sx ->
  t < - 1e-9 ->
  raySegmentIntersection origin dir a b = None.
Proof.
  intros sx sy denom Hnz Ht Hlow.
  unfold raySegmentIntersection. fold sx sy denom.
  destruct (Rabs denom <? 1e-9); [ reflexivity | ].
  replace ((x a * sy - y a * sx) / denom) with t
    by (rewrite <- Ht; field; exact Hnz).
  now rewrite (ltb_true t) by exact Hlow.
Qed.

(** The polar angle of a point of the positive x axis. *)
Lemma normalizeAngle_on_x_axis (a : R) :
  0 < a -> normalizeAngle (JS.atan2 0 a) = 0.
Proof.
  intros Ha. unfold JS.atan2. rewrite ltb_true by exact Ha.
  replace (0 / a) with 0 by (field; lra). rewrite atan_0.
  unfold normalizeAngle, JS.fmod, JS.trunc.
  replace (0 / (2 * PI)) with 0 by (field; pose proof PI_RGT_0; lra).
  rewrite leb_true by lra.
  rewrite <- (Int_part_spec 0 0) by (simpl; lra).
  replace (0 - 2 * PI * 0) with 0 by ring.
  now rewrite ltb_false by lra.
Qed.

(** The point (0,0) of P2 finds no partner on the stretch: the solve puts
    both segments behind the ray. *)
Lemma intersect_wall_behind (options : Options) :
  intersectProfileWithRay (pt (-4 / 3) 0) [ pt 5 (-1); pt 5 1; pt 5 (-1) ] options
  = None.
Proof.
  unfold intersectProfileWithRay. rewrite centroid_wall.
  cbn [pt x y]. rewrite (truthy_true (-4 / 3)) by lra. cbn [negb andb].
  rewrite (hypot_is (-4 / 3) 0 (4 / 3)) by lra.
  rewrite ltb_false by lra.
  replace (-4 / 3 / (4 / 3)) with (-1) by lra.
  replace (0 / (4 / 3)) with 0 by lra.
  cbn [consecutive fold_left]. unfold betterHit. cbn [fst snd].
  rewrite (raySegmentIntersection_behind _ _ (pt 5 (-1)) (pt 5 1) (-5));
    cbn [pt x y]; try lra.
  rewrite (raySegmentIntersection_behind _ _ (pt 5 1) (pt 5 (-1)) (-5));
    cbn [pt x y]; try lra.
  reflexivity.
Qed.

(** Straight up or down, both segments of P2 are hit at the ray parameter
    0: the first hit is kept, and the reported point is the origin
    handed over, the centroid (4/3, 0) of P2. *)
Lemma intersect_prof2_across (s : R) :
  s = 1 \/ s = -1 ->
  fold_left (betterHit (pt (4 / 3) 0) {| x := 0; y := s |})
    (consecutive [ pt 0 0; pt 4 0; pt 0 0 ]) None
  = Some {| hit_t := 0;
            hit_point := {| x := x (pt (4 / 3) 0) + 0 * 0;
                            y := y (pt (4 / 3) 0) + s * 0 |} |}.
Proof.
  intros Hs.
  cbn [consecutive fold_left]. unfold betterHit. cbn [fst snd].
  rewrite (raySegmentIntersection_hit _ _ (pt 0 0) (pt 4 0) 0 0);
    cbn [pt x y]; try lra;
    [ | destruct Hs; subst s; [ apply Rabs_ge_neg | apply Rabs_ge ]; lra ].
  cbn [hit_t]. rewrite geb_true by lra. cbn [andb].
  rewrite (raySegmentIntersection_hit _ _ (pt 4 0) (pt 0 0) 0 1);
    cbn [pt x y]; try lra;
    [ | destruct Hs; subst s; [ apply Rabs_ge | apply Rabs_ge_neg ]; lra ].
  cbn [hit_t]. rewrite geb_true by lra. rewrite ltb_false by lra.
  reflexivity.
Qed.

Lemma intersect_prof2_down (options : Options) :
  intersectProfileWithRay (pt 0 (-2 / 3)) [ pt 0 0; pt 4 0; pt 0 0 ] options
  = Some (pt (4 / 3) 0).
Proof.
  unfold intersectProfileWithRay. rewrite centroid_prof2.
  cbn [pt x y]. rewrite truthy_0, (truthy_true (-2 / 3)) by lra.
  cbn [negb andb].
  rewrite (hypot_is 0 (-2 / 3) (2 / 3)) by lra.
  rewrite ltb_false by lra.
  replace (0 / (2 / 3)) with 0 by lra.
  replace (-2 / 3 / (2 / 3)) with (-1) by lra.
  rewrite (intersect_prof2_across (-1)) by (now right).
  cbn [hit_point pt x y]. f_equal. apply pt_eq; lra.
Qed.

Lemma intersect_prof2_up (options : Options) :
  intersectProfileWithRay (pt 0 (4 / 3)) [ pt 0 0; pt 4 0; pt 0 0 ] options
  = Some (pt (4 / 3) 0).
Proof.
  unfold intersectProfileWithRay. rewrite centroid_prof2.
  cbn [pt x y]. rewrite truthy_0, (truthy_true (4 / 3)) by lra.
  cbn [negb andb].
  rewrite (hypot_is 0 (4 / 3) (4 / 3)) by lra.
  rewrite ltb_false by lra.
  replace (0 / (4 / 3)) with 0 by lra.
  replace (4 / 3 / (4 / 3)) with 1 by lra.
  rewrite (intersect_prof2_across 1) by (now left).
  cbn [hit_point pt x y]. f_equal. apply pt_eq; lra.
Qed.

(** The whole merge of P2 with the stretch from (5,-1) to (5,1): one entry
    from the pass over P2 and three from the pass over the stretch. *)
Lemma merge_prof2_wall :
  mergeProfilesByAngle prof2 wall testOptions
  = [ {| angle := 0; point1 := pt 4 0; point2 := pt 10 (-1 / 3) |};
      {| angle := 0; point1 := pt (4 / 3) 0; point2 := pt 5 (-1) |};
      {| angle := 0; point1 := pt (4 / 3) 0; point2 := pt 5 1 |};
      {| angle := 0; point1 := pt (4 / 3) 0; point2 := pt 5 (-1) |} ].
Proof.
  unfold mergeProfilesByAngle. rewrite sample_prof2, sample_wall.
  unfold collect. cbn [flat_map]. rewrite centroid_prof2, centroid_wall.
  cbn [pt x y].
  replace {| x := 0 - 4 / 3; y := 0 - 0 |} with (pt (-4 / 3) 0)
    by (apply pt_eq; lra).
  replace {| x := 4 - 4 / 3; y := 0 - 0 |} with (pt (8 / 3) 0)
    by (apply pt_eq; lra).
  replace {| x := 5 - 5; y := -1 - -1 / 3 |} with (pt 0 (-2 / 3))
    by (apply pt_eq; lra).
  replace {| x := 5 - 5; y := 1 - -1 / 3 |} with (pt 0 (4 / 3))
    by (apply pt_eq; lra).
  rewrite intersect_wall_behind, intersect_wall, intersect_prof2_down,
    intersect_prof2_up.
  cbn [app pt x y].
  rewrite !normalizeAngle_on_x_axis by lra.
  apply sortBy_id. repeat constructor; unfold keyLe; cbn [angle]; lra.
Qed.

(** C3, the failing input.  A is the profile P2 of the tests, the stretch
    from (0,0) to (4,0), with centroid (4/3, 0); B is the stretch from
    (5,-1) to (5,1).  The ray that starts at the centroid of A and passes
    through the point (4,0) of A meets B at (5,0) and nowhere else, so
    (5,0) is the partner the claim gives to (4,0).  The merge of the code
    has four entries: the one entry of the point (4,0) pairs it with
    (10,-1/3), which is neither on that ray nor on B, and no entry pairs
    (4,0) with (5,0).  The same solve decides the ray test of
    geometry.test.js, the target (10,5) against the square from 2 to 8:
    the test expects (4,2), the code returns (42/5, 32/5). *)
Lemma mergeProfilesByAngle_partner_off_the_ray :
  compute2DCentroid (sampleProfilePoints prof2 testOptions) = pt (4 / 3) 0
  /\ In (pt 4 0) (sampleProfilePoints prof2 testOptions)
  /\ rayThrough (pt (4 / 3) 0) (pt 4 0) (11 / 8) = pt 5 0
  /\ segmentPoint (pt 5 (-1)) (pt 5 1) (1 / 2) = pt 5 0
  /\ (forall s a b u,
         In (a, b) (consecutive (sampleProfilePoints wall testOptions)) ->
         rayThrough (pt (4 / 3) 0) (pt 4 0) s = segmentPoint a b u ->
         rayThrough (pt (4 / 3) 0) (pt 4 0) s = pt 5 0)
  /\ mergeProfilesByAngle prof2 wall testOptions
     = [ {| angle := 0; point1 := pt 4 0; point2 := pt 10 (-1 / 3) |};
         {| angle := 0; point1 := pt (4 / 3) 0; point2 := pt 5 (-1) |};
         {| angle := 0; point1 := pt (4 / 3) 0; point2 := pt 5 1 |};
         {| angle := 0; point1 := pt (4 / 3) 0; point2 := pt 5 (-1) |} ]
  /\ (forall m,
         In m (mergeProfilesByAngle prof2 wall testOptions) ->
         point1 m = pt 4 0 ->
         point2 m = pt 10 (-1 / 3) /\ point2 m <> pt 5 0)
  /\ (forall s, rayThrough (pt (4 / 3) 0) (pt 4 0) s <> pt 10 (-1 / 3))
  /\ (forall a b u,
         In (a, b) (consecutive (sampleProfilePoints wall testOptions)) ->
         segmentPoint a b u <> pt 10 (-1 / 3))
  /\ intersectProfileWithRay (pt 10 5) (sampleProfilePoints square testOptions)
       noOptions
     = Some (pt (42 / 5) (32 / 5)).
Proof.
  rewrite merge_prof2_wall, sample_prof2, sample_wall, sample_square,
    centroid_prof2.
  split; [ reflexivity | ].
  split; [ right; left; reflexivity | ].
  split; [ unfold rayThrough; cbn [pt x y]; apply pt_eq; lra | ].
  split; [ unfold segmentPoint; cbn [pt x y]; apply pt_eq; lra | ].
  split.
  { intros s a b u Hin Heq. cbn [consecutive] in Hin.
    pose proof (f_equal x Heq) as Hx. pose proof (f_equal y Heq) as Hy.
    unfold rayThrough, segmentPoint in *. cbn [pt x y] in *.
    destruct Hin as [Hab | [Hab | []]]; inversion Hab; subst a b;
      cbn [pt x y] in *; apply pt_eq; lra. }
  split; [ reflexivity | ].
  split.
  { intros m Hm Hp1.
    assert (Hp2 : point2 m = pt 10 (-1 / 3)).
    { destruct Hm as [<- | [<- | [<- | [<- | []]]]]; cbn [point1 point2] in *;
        try reflexivity;
        apply (f_equal x) in Hp1; cbn [pt x] in Hp1; lra. }
    split; [ exact Hp2 | ].
    rewrite Hp2. intros Heq. apply (f_equal x) in Heq. cbn [pt x] in Heq. lra. }
  split.
  { intros s Heq. unfold rayThrough in Heq. cbn [pt x y] in Heq.
    apply (f_equal y) in Heq. cbn [pt y] in Heq. lra. }
  split.
  { intros a b u Hin Heq. cbn [consecutive] in Hin.
    apply (f_equal x) in Heq. unfold segmentPoint in Heq. cbn [pt x] in Heq.
    destruct Hin as [Hab | [Hab | []]]; inversion Hab; subst a b;
      cbn [pt x] in Heq; lra. }
  apply intersectProfileWithRay_square.
Qed.

(* ================================================================= *)
(** ** Boundary clamping of the length interpolator *)

Section Clamping.

(** The assignment table [(10, P1), (20, P2)]. *)
Definition twoAssignments (id1 id2 : ProfileId) : list ProfileAssignment :=
  [ mkProfileAssignment 10 (Some id1); mkProfileAssignment 20 (Some id2) ].

(** The blend of one merged pair at parameter [t]. *)
Definition blend (t : R) (m : MergedPointPair) : Point2D :=
  {| x := x (point1 m) * (1 - t) + x (point2 m) * t;
     y := y (point1 m) * (1 - t) + y (point2 m) * t |}.

(** The blend of a whole merge: no result when the merge is empty. *)
Definition blendMerged (t : R) (merged : list MergedPointPair)
  : option (list Point2D) :=
  match merged with
  | [] => None
  | _ => Some (map (blend t) merged)
  end.

Variables (id1 id2 : ProfileId) (profiles : list Profile) (p1 p2 : Profile).
Variable options : Options.
Hypothesis found1 : findProfile profiles (Some id1) = Some p1.
Hypothesis found2 : findProfile profiles (Some id2) = Some p2.

Lemma twoAssignments_sorted :
  sortBy pa_length (twoAssignments id1 id2) = twoAssignments id1 id2.
Proof.
  unfold twoAssignments. cbn [sortBy insertBy pa_length]. now js_cmp.
Qed.





End Clamping.

(* ================================================================= *)
(** ** Profiles that lie on the x axis never merge *)

Section FlatProfiles.








Lemma flat_map_nil {A B : Type} (f : A -> list B) (l : list A) :
  (forall a, In a l -> f a = []) -> flat_map f l = [].
Proof.
  induction l as [ | a l IH ]; intros H; [ reflexivity | ].
  cbn [flat_map]. rewrite (H a) by (left; reflexivity).
  apply IH. intros b Hb. apply H. right. exact Hb.
Qed.


End FlatProfiles.




(* ================================================================= *)
(** ** The perpendicular frame *)

Section PerpendicularFrame.

Definition vec (a b c : R) : Point3D := {| x3 := a; y3 := b; z3 := c |}.

Definition unitVec (v : Point3D) : Prop := dot v v = 1.

Definition orthonormalFrame (f : Frame) : Prop :=
  unitVec (xAxis f) /\ unitVec (yAxis f) /\ unitVec (direction f)
  /\ dot (xAxis f) (yAxis f) = 0
  /\ dot (xAxis f) (direction f) = 0
  /\ dot (yAxis f) (direction f) = 0.

Lemma hypot3_is (a b c w : R) :
  0 <= w -> w * w = a * a + b * b + c * c -> JS.hypot3 a b c = w.
Proof. intros Hw Hv. unfold JS.hypot3. now apply sqrt_is. Qed.

Lemma vec_eq (a b c a' b' c' : R) :
  a = a' -> b = b' -> c = c' -> vec a b c = vec a' b' c'.
Proof. intros -> -> ->. reflexivity. Qed.

Lemma normalizeVec3_345 : normalizeVec3 (vec (-3) 0 4) = vec (-3 / 5) 0 (4 / 5).
Proof.
  unfold normalizeVec3, vec. cbn [x3 y3 z3].
  rewrite (hypot3_is (-3) 0 4 5) by lra. js_cmp.
  apply vec_eq; lra.
Qed.

(** C5, the failing input.  From the origin toward (-3, 0, 4), a level
    direction with a negative x component, the test [projLen < 1e-6]
    takes the branch meant for directions without an x component: the
    frame keeps the world x axis as its [xAxis], which is not
    perpendicular to the direction. *)
Lemma buildPerpendicularAxes_negative_x :
  buildPerpendicularAxes (vec 0 0 0) (vec (-3) 0 4)
  = {| xAxis := vec 1 0 0; yAxis := vec 0 1 0;
       direction := vec (-3 / 5) 0 (4 / 5) |}
  /\ dot (xAxis (buildPerpendicularAxes (vec 0 0 0) (vec (-3) 0 4)))
         (direction (buildPerpendicularAxes (vec 0 0 0) (vec (-3) 0 4)))
     = -3 / 5
  /\ ~ orthonormalFrame (buildPerpendicularAxes (vec 0 0 0) (vec (-3) 0 4)).
Proof.
  assert (H : buildPerpendicularAxes (vec 0 0 0) (vec (-3) 0 4)
              = {| xAxis := vec 1 0 0; yAxis := vec 0 1 0;
                   direction := vec (-3 / 5) 0 (4 / 5) |}).
  { unfold buildPerpendicularAxes. cbn [vec x3 y3 z3].
    replace {| x3 := -3 - 0; y3 := 0 - 0; z3 := 4 - 0 |} with (vec (-3) 0 4)
      by (apply vec_eq; lra).
    rewrite normalizeVec3_345.
    unfold dot, cross. cbn [vec x3 y3 z3].
    rewrite ltb_true by lra.
    unfold normalizeVec3. cbn [x3 y3 z3].
    rewrite (hypot3_is _ _ _ (4 / 5)) by lra. js_cmp.
    cbn [x3 y3 z3]. rewrite ltb_false by lra.
    f_equal. apply vec_eq; lra. }
  rewrite H. cbn [xAxis yAxis direction].
  split; [ reflexivity | ].
  split; [ unfold dot, vec; cbn [x3 y3 z3]; lra | ].
  unfold orthonormalFrame, unitVec, dot, vec. cbn [xAxis yAxis direction x3 y3 z3].
  intros (_ & _ & _ & _ & Hxd & _). lra.
Qed.

End PerpendicularFrame.

(** *** Where the frame is orthonormal *)

Section FrameFacts.

Lemma hypot3_sq (a b c : R) :
  JS.hypot3 a b c * JS.hypot3 a b c = a * a + b * b + c * c.
Proof. unfold JS.hypot3. apply sqrt_sqrt. nra. Qed.

Lemma hypot3_nonneg (a b c : R) : 0 <= JS.hypot3 a b c.
Proof. apply sqrt_pos. Qed.

Lemma dot_self (v : Point3D) :
  dot v v = JS.hypot3 (x3 v) (y3 v) (z3 v) * JS.hypot3 (x3 v) (y3 v) (z3 v).
Proof. rewrite hypot3_sq. reflexivity. Qed.

(** [normalizeVec3] divides by the length, unless the length is 0. *)
Lemma normalizeVec3_nonzero (v : Point3D) :
  dot v v <> 0 ->
  let len := JS.hypot3 (x3 v) (y3 v) (z3 v) in
  0 < len
  /\ normalizeVec3 v = {| x3 := x3 v / len; y3 := y3 v / len; z3 := z3 v / len |}.
Proof.
  intros Hv len.
  assert (Hlen : 0 < len).
  { pose proof (hypot3_nonneg (x3 v) (y3 v) (z3 v)) as Hn. fold len in Hn.
    destruct (Req_dec_T len 0) as [Hz | Hz]; [ | lra ].
    exfalso. apply Hv. rewrite dot_self. fold len. rewrite Hz. ring. }
  split; [ exact Hlen | ].
  unfold normalizeVec3. fold len. now rewrite truthy_true by lra.
Qed.

Lemma normalizeVec3_unit (v : Point3D) :
  dot v v <> 0 -> unitVec (normalizeVec3 v).
Proof.
  intros Hv. destruct (normalizeVec3_nonzero v Hv) as [Hlen Hn].
  rewrite Hn. unfold unitVec, dot. cbn [x3 y3 z3].
  set (len := JS.hypot3 _ _ _) in *.
  replace (_ + _)
    with ((x3 v * x3 v + y3 v * y3 v + z3 v * z3 v) / (len * len))
    by (field; lra).
  unfold len. rewrite hypot3_sq. field.
  fold (dot v v). exact Hv.
Qed.

Lemma normalizeVec3_orthogonal (v w : Point3D) :
  dot v w = 0 -> dot (normalizeVec3 v) w = 0.
Proof.
  intros Hvw. unfold normalizeVec3.
  destruct (JS.truthy _) eqn:Et; cbn [negb].
  - unfold dot in *. cbn [x3 y3 z3].
    set (len := JS.hypot3 _ _ _) in *.
    assert (Hlen : len <> 0).
    { intros Hz. rewrite truthy_false in Et by exact Hz. discriminate. }
    replace (_ + _) with ((x3 v * x3 w + y3 v * y3 w + z3 v * z3 w) / len)
      by (field; exact Hlen).
    rewrite Hvw. unfold Rdiv. ring.
  - unfold dot. cbn [x3 y3 z3]. ring.
Qed.

Lemma dot_comm (a b : Point3D) : dot a b = dot b a.
Proof. unfold dot. ring. Qed.

Lemma dot_neg_l (a b : Point3D) : dot (negVec3 a) b = - dot a b.
Proof. unfold dot, negVec3. cbn [x3 y3 z3]. ring. Qed.

Lemma dot_neg_neg (a b : Point3D) : dot (negVec3 a) (negVec3 b) = dot a b.
Proof. unfold dot, negVec3. cbn [x3 y3 z3]. ring. Qed.

Lemma cross_orthogonal (a b : Point3D) :
  dot (cross a b) a = 0 /\ dot (cross a b) b = 0.
Proof. unfold dot, cross. cbn [x3 y3 z3]. split; ring. Qed.

Lemma cross_length (a b : Point3D) :
  dot (cross a b) (cross a b) = dot a a * dot b b - dot a b * dot a b.
Proof. unfold dot, cross. cbn [x3 y3 z3]. ring. Qed.

(** Turning both axes round keeps the frame orthonormal. *)
Lemma orthonormalFrame_flip (xa ya d : Point3D) :
  orthonormalFrame {| xAxis := xa; yAxis := ya; direction := d |} ->
  orthonormalFrame
    {| xAxis := negVec3 xa; yAxis := negVec3 ya; direction := d |}.
Proof.
  unfold orthonormalFrame, unitVec. cbn [xAxis yAxis direction].
  intros (Hx & Hy & Hd & Hxy & Hxd & Hyd).
  rewrite !dot_neg_neg, !dot_neg_l, Hxd, Hyd.
  repeat split; try assumption; ring.
Qed.

(** The branch on the sign of [yAxis.y], common to both cases. *)
Lemma frame_up (xa ya d : Point3D) :
  orthonormalFrame {| xAxis := xa; yAxis := ya; direction := d |} ->
  let f :=
    if y3 ya <? 0
    then {| xAxis := negVec3 xa; yAxis := negVec3 ya; direction := d |}
    else {| xAxis := xa; yAxis := ya; direction := d |} in
  orthonormalFrame f /\ 0 <= y3 (yAxis f).
Proof.
  intros Hf. cbv zeta.
  destruct (ltb_spec (y3 ya) 0) as [Hneg | Hpos].
  - split; [ now apply orthonormalFrame_flip | ].
    cbn [yAxis negVec3 y3]. lra.
  - split; [ exact Hf | ]. cbn [yAxis]. lra.
Qed.

Lemma distinct_points (p1 p2 : Point3D) :
  p1 <> p2 ->
  dot {| x3 := x3 p2 - x3 p1; y3 := y3 p2 - y3 p1; z3 := z3 p2 - z3 p1 |}
      {| x3 := x3 p2 - x3 p1; y3 := y3 p2 - y3 p1; z3 := z3 p2 - z3 p1 |}
  <> 0.
Proof.
  intros Hne Hz. apply Hne. unfold dot in Hz. cbn [x3 y3 z3] in Hz.
  destruct p1 as [a1 b1 c1], p2 as [a2 b2 c2]. cbn [x3 y3 z3] in Hz.
  pose proof (Rle_0_sqr (a2 - a1)) as Ha.
  pose proof (Rle_0_sqr (b2 - b1)) as Hb.
  pose proof (Rle_0_sqr (c2 - c1)) as Hc.
  unfold Rsqr in Ha, Hb, Hc.
  assert (Ha0 : (a2 - a1) * (a2 - a1) = 0) by lra.
  assert (Hb0 : (b2 - b1) * (b2 - b1) = 0) by lra.
  assert (Hc0 : (c2 - c1) * (c2 - c1) = 0) by lra.
  apply Rmult_integral in Ha0, Hb0, Hc0.
  f_equal; lra.
Qed.

(** On the directions with an x component of exactly 0 or of at least
    1e-6, the frame of two distinct points is orthonormal and its [yAxis]
    points up. *)
Lemma buildPerpendicularAxes_orthonormal (p1 p2 : Point3D) :
  p1 <> p2 ->
  x3 (direction (buildPerpendicularAxes p1 p2)) = 0
  \/ 1e-6 <= x3 (direction (buildPerpendicularAxes p1 p2)) ->
  orthonormalFrame (buildPerpendicularAxes p1 p2)
  /\ 0 <= y3 (yAxis (buildPerpendicularAxes p1 p2)).
Proof.
  intros Hne.
  assert (Hdir : direction (buildPerpendicularAxes p1 p2)
                 = normalizeVec3 {| x3 := x3 p2 - x3 p1; y3 := y3 p2 - y3 p1;
                                    z3 := z3 p2 - z3 p1 |}).
  { unfold buildPerpendicularAxes.
    repeat match goal with
           | |- context [ if ?b then _ else _ ] => destruct b
           end; reflexivity. }
  rewrite Hdir. unfold buildPerpendicularAxes.
  set (d := normalizeVec3 _).
  assert (Hd : unitVec d) by (apply normalizeVec3_unit, distinct_points, Hne).
  assert (Hproj : dot {| x3 := 1; y3 := 0; z3 := 0 |} d = x3 d)
    by (unfold dot; cbn [x3 y3 z3]; ring).
  rewrite Hproj. intros Hx.
  destruct (ltb_spec (x3 d) 1e-6) as [Hlow | Hhigh].
  - assert (Hx0 : x3 d = 0) by lra.
    set (gx := {| x3 := 1; y3 := 0; z3 := 0 |}) in *.
    apply frame_up.
    destruct (cross_orthogonal d gx) as [Hcd Hcx].
    assert (Hgx : unitVec gx) by (unfold unitVec, dot, gx; cbn [x3 y3 z3]; ring).
    assert (Hcross : dot (cross d gx) (cross d gx) = 1).
    { rewrite cross_length. unfold unitVec in Hd, Hgx.
      rewrite Hd, Hgx, (dot_comm d gx), Hproj, Hx0. ring. }
    unfold orthonormalFrame. cbn [xAxis yAxis direction].
    repeat split.
    + exact Hgx.
    + apply normalizeVec3_unit. rewrite Hcross. lra.
    + exact Hd.
    + rewrite dot_comm. now apply normalizeVec3_orthogonal.
    + rewrite Hproj. exact Hx0.
    + now apply normalizeVec3_orthogonal.
  - set (xa0 := {| x3 := - z3 d; y3 := 0; z3 := x3 d |}).
    assert (Hxa0 : dot xa0 xa0 <> 0).
    { unfold dot, xa0. cbn [x3 y3 z3]. nra. }
    assert (Hxa : unitVec (normalizeVec3 xa0)) by now apply normalizeVec3_unit.
    assert (Hxad : dot (normalizeVec3 xa0) d = 0).
    { apply normalizeVec3_orthogonal. unfold dot, xa0. cbn [x3 y3 z3]. ring. }
    destruct (cross_orthogonal d (normalizeVec3 xa0)) as [Hcd Hcx].
    assert (Hcross : dot (cross d (normalizeVec3 xa0)) (cross d (normalizeVec3 xa0)) = 1).
    { rewrite cross_length. unfold unitVec in Hd, Hxa.
      rewrite Hd, Hxa, (dot_comm d), Hxad. ring. }
    apply frame_up.
    unfold orthonormalFrame. cbn [xAxis yAxis direction].
    repeat split.
    + exact Hxa.
    + apply normalizeVec3_unit. rewrite Hcross. lra.
    + exact Hd.
    + rewrite dot_comm. now apply normalizeVec3_orthogonal.
    + exact Hxad.
    + now apply normalizeVec3_orthogonal.
Qed.

End FrameFacts.

(* ================================================================= *)
(** ** Ring consistency of [buildProfileSection3DRange] *)

Section Rings.

(** No ring pair can be built from these two resolved polylines: one is
    missing, one is empty, or their point counts differ. *)
Definition ringsUnavailable (profileA profileB : option (list Point2D))
  : Prop :=
  match profileA, profileB with
  | Some a, Some b => a = [] \/ b = [] \/ List.length a <> List.length b
  | _, _ => True
  end.

Lemma projectProfile_length (center : Point3D) (pts : list Point2D)
  (f : Frame) : List.length (projectProfile center pts f) = List.length pts.
Proof. unfold projectProfile. apply length_map. Qed.

Lemma isEmpty_true_iff {A : Type} (l : list A) : isEmpty l = true <-> l = [].
Proof. destruct l; simpl; split; congruence. Qed.

Variables (axisData : list Segment)
          (heightAssignments : list HeightAssignment)
          (profileAssignments : list ProfileAssignment)
          (profiles : list Profile)
          (lengthA lengthB : R) (options : Options).

Let resolvedA :=
  interpolateProfileAtLength lengthA profileAssignments profiles options true.
Let resolvedB :=
  interpolateProfileAtLength lengthB profileAssignments profiles options false.

(** C6.  A result of [buildProfileSection3DRange] always carries two
    rings of the same point count, and there is a result exactly when the
    two resolved polylines are both present, both non-empty and of equal
    length: when either is missing or empty, or the counts differ, the
    function returns [null]. *)
Theorem buildProfileSection3DRange_ring_consistency (lengthC : option R) :
  match buildProfileSection3DRange axisData heightAssignments
          profileAssignments profiles lengthA lengthB lengthC options with
  | Some r =>
      List.length (profile1Points r) = List.length (profile2Points r)
      /\ ~ ringsUnavailable resolvedA resolvedB
  | None => ringsUnavailable resolvedA resolvedB
  end.
Proof.
  unfold buildProfileSection3DRange, ringsUnavailable.
  subst resolvedA resolvedB.
  destruct (interpolateProfileAtLength lengthA _ _ _ true) as [pa|]; [ | exact I ].
  destruct (interpolateProfileAtLength lengthB _ _ _ false) as [pb|]; [ | exact I ].
  destruct (isEmpty pa) eqn:Ea.
  { simpl. left. now apply isEmpty_true_iff. }
  destruct (isEmpty pb) eqn:Eb.
  { simpl. right; left. now apply isEmpty_true_iff. }
  simpl.
  destruct (Nat.eqb_spec (List.length pa) (List.length pb)) as [Hl|Hl]; simpl.
  - rewrite !projectProfile_length. split; [ exact Hl | ].
    intros [H | [H | H]].
    + apply isEmpty_true_iff in H. congruence.
    + apply isEmpty_true_iff in H. congruence.
    + contradiction.
  - right; right. exact Hl.
Qed.

(** C10.  A third length of 0 is discarded by the truthiness test on
    [lengthC]: the call returns what the call without a third length
    returns, and the second ring of a result is the resolved polyline of
    [lengthB] projected with the frame of the direction from [centerA] to
    [centerB]. *)
Theorem buildProfileSection3DRange_zero_lengthC :
  buildProfileSection3DRange axisData heightAssignments profileAssignments
    profiles lengthA lengthB (Some 0) options
  = buildProfileSection3DRange axisData heightAssignments profileAssignments
      profiles lengthA lengthB None options
  /\ match buildProfileSection3DRange axisData heightAssignments
             profileAssignments profiles lengthA lengthB (Some 0) options with
     | Some r =>
         exists profileB,
           resolvedB = Some profileB
           /\ profile2Points r
              = projectProfile (centerB r) profileB
                  (buildPerpendicularAxes (centerA r) (centerB r))
     | None => True
     end.
Proof.
  unfold buildProfileSection3DRange. subst resolvedA resolvedB.
  rewrite truthy_0. split; [ reflexivity | ].
  destruct (interpolateProfileAtLength lengthA _ _ _ true) as [pa|]; [ | exact I ].
  destruct (interpolateProfileAtLength lengthB _ _ _ false) as [pb|]; [ | exact I ].
  destruct (isEmpty pa || isEmpty pb); [ exact I | ].
  destruct (negb _); [ exact I | ].
  simpl. exists pb. split; reflexivity.
Qed.

End Rings.

(* ================================================================= *)
(** * Further properties of the geometry engine *)

(** ** Arc centre and sweep *)

(** The distance between two points. *)
Definition distance (p q : Point2D) : R := JS.hypot (x p - x q) (y p - y q).

(** X1.  [calculateArcCenter] fails exactly on a zero radius, a zero chord
    or a chord longer than twice the radius; when it succeeds, the centre
    it returns is at distance [|radius|] from both end points. *)
Theorem calculateArcCenter_equidistant (s e : Point2D) (radius : R) :
  match calculateArcCenter s e radius with
  | Some c =>
      radius <> 0 /\ 0 < chordOf s e <= 2 * Rabs radius
      /\ distance s c = Rabs radius /\ distance e c = Rabs radius
  | None => radius = 0 \/ chordOf s e = 0 \/ 2 * Rabs radius < chordOf s e
  end.
Proof.
  destruct (calculateArcCenter s e radius) as [ c | ] eqn:Ec.
  - destruct (calculateArcCenter_Some _ _ _ _ Ec) as (Hr & Hchord & _).
    split; [ exact Hr | ]. split; [ exact Hchord | ].
    unfold distance. split.
    + apply (arc_start_on_circle s e c radius Ec).
    + apply (arc_end_on_circle s e c radius Ec).
  - apply calculateArcCenter_None_iff in Ec.
    destruct Ec as [H | [H | H]]; [ left | right; right | right; left ];
      solve [ assumption | lra ].
Qed.

(** X2.  On an arc with a centre, the sweep from the start angle to the
    end angle goes counter-clockwise for a positive radius and clockwise
    for a negative one, is never more than half a turn, and its size is
    [2 * asin (chord / (2 * |radius|))]: the sweep is the shorter of the
    two arcs between the end points. *)
Theorem arcAngleDiff_minor (s e c : Point2D) (radius : R) :
  calculateArcCenter s e radius = Some c ->
  Rabs (arcAngleDiff s e c radius)
  = 2 * asin (chordOf s e / (2 * Rabs radius))
  /\ 0 < Rabs (arcAngleDiff s e c radius) <= PI
  /\ (0 < radius -> 0 < arcAngleDiff s e c radius)
  /\ (radius < 0 -> arcAngleDiff s e c radius < 0).
Proof.
  intros Ec.
  pose proof (arcAngleDiff_minor_arc s e c radius Ec) as Hminor.
  pose proof (arcAngleDiff_nonzero s e c radius Ec) as Hnz.
  destruct (arcAngleDiff_range s e c radius) as [Hpos Hneg].
  pose proof (arc_radius_pos s e c radius Ec) as HR.
  pose proof (arc_chord_bounds s e c radius Ec) as Hd.
  split; [ exact Hminor | ].
  split; [ split; [ exact Hnz | ] | split ].
  - rewrite Hminor.
    assert (Hq : 0 < chordOf s e / (2 * Rabs radius) <= 1).
    { split.
      - apply Rdiv_lt_0_compat; lra.
      - apply Rmult_le_reg_r with (2 * Rabs radius); [ lra | ].
        unfold Rdiv. rewrite Rmult_assoc, Rinv_l; lra. }
    pose proof (asin_pos _ Hq). lra.
  - intros Hr. specialize (Hpos Hr).
    rewrite Rabs_pos_eq in Hnz by lra. exact Hnz.
  - intros Hr. specialize (Hneg Hr).
    rewrite Rabs_left1 in Hnz by lra. lra.
Qed.

Lemma testArc_center :
  exists c, calculateArcCenter (pt 10 0) (pt 10 10) 10 = Some c.
Proof.
  pose proof testAxis_valid as [_ Hnd].
  inversion Hnd as [ | ? ? _ Harc ]; subst.
  inversion Harc as [ | ? ? Hc _ ]; subst. cbn [nonDegenerate] in Hc.
  destruct (calculateArcCenter (pt 10 0) (pt 10 10) 10) as [ c | ];
    [ exists c; reflexivity | contradiction ].
Qed.

(** X2 on the quarter turn of the axis of the tests. *)
Lemma arcAngleDiff_minor_witness :
  exists c,
    calculateArcCenter (pt 10 0) (pt 10 10) 10 = Some c
    /\ Rabs (arcAngleDiff (pt 10 0) (pt 10 10) c 10)
       = 2 * asin (chordOf (pt 10 0) (pt 10 10) / (2 * Rabs 10))
    /\ 0 < Rabs (arcAngleDiff (pt 10 0) (pt 10 10) c 10) <= PI.
Proof.
  destruct testArc_center as [c Hc]. exists c.
  pose proof (arcAngleDiff_minor (pt 10 0) (pt 10 10) c 10 Hc) as (H1 & H2 & _).
  split; [ exact Hc | split; [ exact H1 | exact H2 ] ].
Defined.

(* ================================================================= *)
(** ** The walk along the axis *)

Section AxisWalk.

(** The length [getPositionAtLength] takes off [remaining] when it passes
    a segment: an arc without a centre takes nothing. *)
Definition segmentWalkLength (seg : Segment) : R :=
  match seg with
  | Line s e => JS.hypot (x e - x s) (y e - y s)
  | Arc s e radius =>
      if JS.truthy radius then
        match calculateArcCenter s e radius with
        | Some center => Rabs (arcAngleDiff s e center radius) * Rabs radius
        | None => 0
        end
      else 0
  end.

Lemma segmentWalkLength_bounds (seg : Segment) :
  0 <= segmentWalkLength seg <= segmentTotalLength seg.
Proof.
  pose proof (segmentTotalLength_nonneg seg) as Hn.
  destruct seg as [ s e | s e radius ]; cbn [segmentWalkLength].
  - cbn [segmentTotalLength] in *. lra.
  - destruct (JS.truthy radius) eqn:Et; [ | lra ].
    destruct (calculateArcCenter s e radius) as [ c | ] eqn:Ec; [ | lra ].
    destruct (arc_walk_length s e c radius Ec) as [Hlen Hpos]. lra.
Qed.

Lemma walkAxis_pass (seg : Segment) (rest : list Segment) (remaining : R) :
  segmentWalkLength seg < remaining ->
  walkAxis (seg :: rest) remaining
  = walkAxis rest (remaining - segmentWalkLength seg).
Proof.
  destruct seg as [ s e | s e radius ]; cbn [segmentWalkLength walkAxis].
  - intros Hlt. now rewrite leb_false by lra.
  - destruct (JS.truthy radius).
    + destruct (calculateArcCenter s e radius) as [ c | ].
      * intros Hlt. now rewrite leb_false by lra.
      * intros _. now rewrite Rminus_0_r.
    + intros _. now rewrite Rminus_0_r.
Qed.

Lemma walkAxis_off_the_end (axisData : list Segment) (remaining : R) :
  computeAxisTotalLength axisData < remaining ->
  walkAxis axisData remaining = None.
Proof.
  revert remaining. induction axisData as [ | seg rest IH ]; intros remaining Hlt.
  - reflexivity.
  - rewrite computeAxisTotalLength_cons in Hlt.
    pose proof (segmentWalkLength_bounds seg).
    pose proof (computeAxisTotalLength_nonneg rest).
    rewrite walkAxis_pass by lra. apply IH. lra.
Qed.

(** X3.  Past the total length [getPositionAtLength] returns the end
    point of the last segment, on every axis with at least one segment,
    degenerate arcs included. *)
Theorem getPositionAtLength_past_end (first : Segment) (rest : list Segment)
  (len : R) :
  computeAxisTotalLength (first :: rest) < len ->
  getPositionAtLength (first :: rest) len
  = segEnd (List.last (first :: rest) first).
Proof.
  intros Hlt. unfold getPositionAtLength.
  rewrite walkAxis_off_the_end by exact Hlt.
  rewrite !orElse_0. apply point_eta.
Qed.

(** [p] lies on the segment: between the two ends of a line; on an arc, at
    the distance of the radius from the centre. *)
Definition liesOn (seg : Segment) (p : Point2D) : Prop :=
  match seg with
  | Line s e =>
      exists t, 0 <= t <= 1
                /\ p = {| x := x s + (x e - x s) * t; y := y s + (y e - y s) * t |}
  | Arc s e radius =>
      exists c, calculateArcCenter s e radius = Some c
                /\ distance p c = Rabs radius
  end.

Lemma arcPoint_on_circle (c : Point2D) (absR ang : R) :
  0 <= absR -> distance (arcPoint c absR ang) c = absR.
Proof.
  intros HR. unfold distance, arcPoint. cbn [x y].
  apply hypot_is; [ exact HR | ].
  pose proof (sin2_cos2 ang) as Hsc. unfold Rsqr in Hsc.
  replace (_ + _)
    with (absR * absR * (sin ang * sin ang + cos ang * cos ang)) by ring.
  rewrite Hsc. ring.
Qed.

Lemma walkAxis_on_segment (axisData : list Segment) (remaining : R)
  (p : Point2D) :
  0 <= remaining ->
  walkAxis axisData remaining = Some p ->
  exists seg, In seg axisData /\ liesOn seg p.
Proof.
  revert remaining. induction axisData as [ | seg rest IH ]; intros remaining Hrem Hwalk.
  - discriminate.
  - assert (Hnext : forall r, 0 <= r -> walkAxis rest r = Some p ->
                              exists seg', In seg' (seg :: rest) /\ liesOn seg' p).
    { intros r Hr Hw. destruct (IH r Hr Hw) as (seg' & Hin & Hon).
      exists seg'. split; [ right; exact Hin | exact Hon ]. }
    destruct seg as [ s e | s e radius ]; cbn [walkAxis] in Hwalk.
    + destruct (leb_spec remaining (JS.hypot (x e - x s) (y e - y s))) as [Hle | Hgt].
      * exists (Line s e). split; [ left; reflexivity | ].
        inversion Hwalk. cbn [liesOn].
        destruct (eqb_spec (JS.hypot (x e - x s) (y e - y s)) 0) as [Hz | Hz].
        -- exists 0. split; [ lra | reflexivity ].
        -- exists (remaining / JS.hypot (x e - x s) (y e - y s)).
           split; [ | reflexivity ].
           pose proof (hypot_nonneg (x e - x s) (y e - y s)).
           split.
           ++ apply Rmult_le_pos; [ exact Hrem | ].
              left. apply Rinv_0_lt_compat. lra.
           ++ apply Rmult_le_reg_r with (JS.hypot (x e - x s) (y e - y s)); [ lra | ].
              unfold Rdiv. rewrite Rmult_assoc, Rinv_l; lra.
      * apply (Hnext (remaining - JS.hypot (x e - x s) (y e - y s))); [ lra | exact Hwalk ].
    + destruct (JS.truthy radius); [ | now apply (Hnext remaining) ].
      destruct (calculateArcCenter s e radius) as [ c | ] eqn:Ec;
        [ | now apply (Hnext remaining) ].
      destruct (leb_spec remaining (Rabs (arcAngleDiff s e c radius) * Rabs radius))
        as [Hle | Hgt].
      * exists (Arc s e radius). split; [ left; reflexivity | ].
        inversion Hwalk. cbn [liesOn]. exists c. split; [ exact Ec | ].
        apply arcPoint_on_circle, Rabs_pos.
      * apply (Hnext (remaining - Rabs (arcAngleDiff s e c radius) * Rabs radius));
          [ lra | exact Hwalk ].
Qed.

(** X4.  For a length from 0 up to the total length of a valid axis, the
    point of [getPositionAtLength] lies on one of the segments of the
    axis: between the two ends of a line, or on the circle of an arc. *)
Theorem getPositionAtLength_on_axis (axisData : list Segment) (len : R) :
  validAxis axisData ->
  0 <= len <= computeAxisTotalLength axisData ->
  exists seg, In seg axisData /\ liesOn seg (getPositionAtLength axisData len).
Proof.
  destruct axisData as [ | first rest ]; [ intros [] | ].
  intros [Hcont Hnd] [Hlo Hhi]. unfold getPositionAtLength.
  destruct (walkAxis (first :: rest) len) as [ p | ] eqn:Ewalk.
  - now apply (walkAxis_on_segment (first :: rest) len).
  - (* the walk cannot run off the end within the total length *)
    exfalso.
    assert (Hall : forall axis p0 r,
               contiguousFrom p0 axis -> Forall nonDegenerate axis -> axis <> [] ->
               0 <= r <= computeAxisTotalLength axis -> walkAxis axis r <> None).
    { clear. induction axis as [ | seg rest IH ]; intros p0 r Hcont Hnd Hne Hr.
      - contradiction.
      - destruct Hcont as [_ Hcont].
        inversion Hnd as [ | ? ? Hseg Hrest ]; subst.
        rewrite computeAxisTotalLength_cons in Hr.
        destruct (Rle_dec r (segmentTotalLength seg)) as [Hle | Hgt].
        + destruct seg as [ s e | s e radius ]; cbn [walkAxis].
          * cbn [segmentTotalLength] in Hle. rewrite leb_true by exact Hle.
            discriminate.
          * cbn [nonDegenerate] in Hseg.
            destruct (calculateArcCenter s e radius) as [ c | ] eqn:Ec;
              [ | contradiction ].
            destruct (calculateArcCenter_Some _ _ _ _ Ec) as (Hrad & _).
            destruct (arc_walk_length s e c radius Ec) as [Hlen _].
            rewrite truthy_true by exact Hrad.
            rewrite Hlen, leb_true by exact Hle. discriminate.
        + rewrite walkAxis_next by (assumption || lra).
          destruct rest as [ | seg' rest' ].
          * exfalso. replace (computeAxisTotalLength []) with 0 in Hr by reflexivity.
            lra.
          * apply (IH (segEnd seg)); [ exact Hcont | exact Hrest | discriminate | lra ]. }
    apply (Hall (first :: rest) (segStart first) len); try assumption.
    + discriminate.
    + split; assumption.
Qed.

(** X4 on the axis of the tests, at length 5. *)
Lemma getPositionAtLength_on_axis_witness :
  validAxis testAxis
  /\ 0 <= 5 <= computeAxisTotalLength testAxis
  /\ exists seg, In seg testAxis /\ liesOn seg (getPositionAtLength testAxis 5).
Proof.
  assert (Hlen : 0 <= 5 <= computeAxisTotalLength testAxis).
  { unfold testAxis. rewrite computeAxisTotalLength_cons.
    pose proof (computeAxisTotalLength_nonneg [ Arc (pt 10 0) (pt 10 10) 10 ]).
    cbn [segmentTotalLength pt x y].
    rewrite (hypot_is (10 - 0) (0 - 0) 10) by lra. lra. }
  split; [ exact testAxis_valid | ]. split; [ exact Hlen | ].
  exact (getPositionAtLength_on_axis testAxis 5 testAxis_valid Hlen).
Defined.

(** X3 on a straight stretch of 3 units, at length 5. *)
Lemma getPositionAtLength_past_end_witness :
  computeAxisTotalLength [ Line (pt 0 0) (pt 3 0) ] < 5
  /\ getPositionAtLength [ Line (pt 0 0) (pt 3 0) ] 5 = pt 3 0.
Proof.
  assert (Hlen : computeAxisTotalLength [ Line (pt 0 0) (pt 3 0) ] < 5).
  { rewrite computeAxisTotalLength_cons.
    replace (computeAxisTotalLength []) with 0 by reflexivity.
    cbn [segmentTotalLength pt x y].
    rewrite (hypot_is (3 - 0) (0 - 0) 3) by lra. lra. }
  split; [ exact Hlen | ].
  exact (getPositionAtLength_past_end (Line (pt 0 0) (pt 3 0)) [] 5 Hlen).
Defined.

(** X5.  [getAxis3DPointsAtLength] clamps the length into the axis: on a
    valid axis every length up to 0 gives the start point of the first
    segment and every length from the total length on gives the end point
    of the last one, with the plan's x and y as the world's x and z and
    the height taken at the clamped length. *)
Theorem getAxis3DPointsAtLength_clamps (first : Segment)
  (rest : list Segment) (heightAssignments : list HeightAssignment)
  (length : R) :
  validAxis (first :: rest) ->
  (length <= 0 ->
   getAxis3DPointsAtLength (first :: rest) heightAssignments length
   = {| x3 := x (segStart first);
        y3 := getHeightAtLength heightAssignments 0;
        z3 := y (segStart first) |})
  /\ (computeAxisTotalLength (first :: rest) <= length ->
      getAxis3DPointsAtLength (first :: rest) heightAssignments length
      = {| x3 := x (segEnd (List.last (first :: rest) first));
           y3 := getHeightAtLength heightAssignments
                   (computeAxisTotalLength (first :: rest));
           z3 := y (segEnd (List.last (first :: rest) first)) |}).
Proof.
  intros [Hcont Hnd].
  pose proof (computeAxisTotalLength_nonneg (first :: rest)) as Hnn.
  unfold getAxis3DPointsAtLength, getPositionAtLength. split; intros Hlen.
  - rewrite Rmin_left by lra. rewrite Rmax_left by lra.
    inversion Hnd as [ | ? ? Hfirst _ ]; subst.
    now rewrite walkAxis_start.
  - rewrite Rmin_right by lra. rewrite Rmax_right by lra.
    rewrite walkAxis_total by assumption.
    now rewrite (axisEnd_last _ first first rest).
Qed.

(** X5 on the axis of the tests. *)
Lemma getAxis3DPointsAtLength_clamps_witness :
  validAxis testAxis
  /\ getAxis3DPointsAtLength testAxis [] (-1)
     = {| x3 := 0; y3 := getHeightAtLength [] 0; z3 := 0 |}.
Proof.
  split; [ exact testAxis_valid | ].
  apply (getAxis3DPointsAtLength_clamps
           (Line (pt 0 0) (pt 10 0)) [ Arc (pt 10 0) (pt 10 10) 10 ] [] (-1)
           testAxis_valid).
  lra.
Defined.

End AxisWalk.

(* ================================================================= *)
(** ** The interpolated height stays within the table *)

Section HeightRange.

Lemma scanHeights_members (rest : list HeightAssignment) (len : R)
  (chosen c : HeightAssignment) (cur : option HeightAssignment) :
  scanHeights rest len chosen = (c, cur) ->
  In c (chosen :: rest)
  /\ forall k, cur = Some k -> In k rest /\ len + 1e-6 < ha_length k.
Proof.
  revert chosen. induction rest as [ | h rest IH ]; intros chosen Hscan.
  - cbn [scanHeights] in Hscan. inversion Hscan; subst.
    split; [ left; reflexivity | discriminate ].
  - cbn [scanHeights] in Hscan.
    destruct (leb_spec (ha_length h) (len + 1e-6)) as [Hle | Hgt].
    + destruct (IH h Hscan) as [Hin Hcur]. split.
      * right. exact Hin.
      * intros k Hk. destruct (Hcur k Hk) as [Hk1 Hk2].
        split; [ right; exact Hk1 | exact Hk2 ].
    + inversion Hscan; subst. split; [ left; reflexivity | ].
      intros k Hk. inversion Hk; subst. split; [ left; reflexivity | lra ].
Qed.

(** X6.  The height of [getHeightAtLength] never leaves the range of the
    heights of the table: when every entry's height is between [lo] and
    [hi], so is the result, at every length. *)
Theorem getHeightAtLength_within_range
  (heightAssignments : list HeightAssignment) (len lo hi : R) :
  heightAssignments <> [] ->
  Forall (fun h => lo <= height h <= hi) heightAssignments ->
  lo <= getHeightAtLength heightAssignments len <= hi.
Proof.
  intros Hne Hall.
  assert (Hsorted : Forall (fun h => lo <= height h <= hi)
                      (sortBy ha_length heightAssignments)).
  { eapply Permutation_Forall; [ apply sortBy_perm | exact Hall ]. }
  unfold getHeightAtLength.
  destruct (sortBy ha_length heightAssignments) as [ | first rest ] eqn:Es.
  { apply sortBy_nil_iff in Es. contradiction. }
  destruct (scanHeights rest len first) as [chosen current] eqn:Escan.
  destruct (scanHeights_members _ _ _ _ _ Escan) as [Hchosen Hcurrent].
  rewrite Forall_forall in Hsorted.
  pose proof (Hsorted chosen Hchosen) as Hc.
  destruct current as [ cur | ]; [ | now rewrite orElse_0 ].
  destruct (Hcurrent cur eq_refl) as [Hin Hfar].
  pose proof (Hsorted cur (or_intror Hin)) as Hk.
  unfold JS.geb.
  destruct (leb_spec len (ha_length chosen)) as [Hge | Hlt];
    [ now rewrite orElse_0 | ].
  set (t := (len - ha_length chosen) / (ha_length cur - ha_length chosen)).
  assert (Ht : 0 <= t <= 1).
  { unfold t. split.
    - apply Rmult_le_pos; [ lra | ]. left. apply Rinv_0_lt_compat. lra.
    - apply Rmult_le_reg_r with (ha_length cur - ha_length chosen); [ lra | ].
      unfold Rdiv. rewrite Rmult_assoc, Rinv_l; lra. }
  split; nra.
Qed.

(** X6 on the heights of the tests. *)
Lemma getHeightAtLength_within_range_witness :
  0 <= getHeightAtLength
         [ mkHeightAssignment 0 0; mkHeightAssignment 5 10 ] 3 <= 10.
Proof.
  apply (getHeightAtLength_within_range
           [ mkHeightAssignment 0 0; mkHeightAssignment 5 10 ] 3 0 10).
  - discriminate.
  - repeat constructor; cbn [height]; lra.
Defined.

End HeightRange.

(* ================================================================= *)
(** ** Vectors and frames *)

Section Vectors.

Definition zeroVec : Point3D := {| x3 := 0; y3 := 0; z3 := 0 |}.

Lemma normalizeVec3_zero (v : Point3D) :
  dot v v = 0 -> normalizeVec3 v = zeroVec.
Proof.
  intros Hz. unfold normalizeVec3.
  assert (Hlen : JS.hypot3 (x3 v) (y3 v) (z3 v) = 0).
  { unfold JS.hypot3. fold (dot v v). rewrite Hz. apply sqrt_0. }
  rewrite Hlen, truthy_0. reflexivity.
Qed.

Lemma normalizeVec3_of_unit (v : Point3D) : unitVec v -> normalizeVec3 v = v.
Proof.
  intros Hu. unfold unitVec in Hu.
  destruct (normalizeVec3_nonzero v) as [Hlen Hn]; [ rewrite Hu; lra | ].
  rewrite Hn.
  assert (H1 : JS.hypot3 (x3 v) (y3 v) (z3 v) = 1).
  { apply hypot3_is; [ lra | ]. unfold dot in Hu. lra. }
  rewrite H1. destruct v as [a b c]. cbn [x3 y3 z3]. f_equal; field.
Qed.

(** X7.  [normalizeVec3] returns the zero vector for the zero vector and a
    vector of length 1 for every other one, and normalizing twice is
    normalizing once. *)
Theorem normalizeVec3_unit_or_zero (v : Point3D) :
  (dot v v = 0 -> normalizeVec3 v = zeroVec)
  /\ (dot v v <> 0 -> dot (normalizeVec3 v) (normalizeVec3 v) = 1)
  /\ normalizeVec3 (normalizeVec3 v) = normalizeVec3 v.
Proof.
  split; [ apply normalizeVec3_zero | ].
  split; [ apply normalizeVec3_unit | ].
  destruct (Req_dec_T (dot v v) 0) as [Hz | Hnz].
  - rewrite (normalizeVec3_zero v Hz). apply normalizeVec3_zero.
    unfold dot, zeroVec. cbn [x3 y3 z3]. ring.
  - apply normalizeVec3_of_unit. now apply normalizeVec3_unit.
Qed.

(** X8.  The vector of [cross] is perpendicular to both of its arguments,
    changes sign when they are exchanged, and its squared length is
    [|a|^2 |b|^2 - (a . b)^2]. *)
Theorem cross_perpendicular (a b : Point3D) :
  dot (cross a b) a = 0
  /\ dot (cross a b) b = 0
  /\ cross b a = negVec3 (cross a b)
  /\ dot (cross a b) (cross a b) = dot a a * dot b b - dot a b * dot a b.
Proof.
  split; [ apply cross_orthogonal | ].
  split; [ apply cross_orthogonal | ].
  split; [ | apply cross_length ].
  unfold cross, negVec3. cbn [x3 y3 z3]. f_equal; ring.
Qed.

Lemma buildPerpendicularAxes_direction (p1 p2 : Point3D) :
  direction (buildPerpendicularAxes p1 p2)
  = normalizeVec3 {| x3 := x3 p2 - x3 p1; y3 := y3 p2 - y3 p1;
                     z3 := z3 p2 - z3 p1 |}.
Proof.
  unfold buildPerpendicularAxes.
  repeat match goal with
         | |- context [ if ?b then _ else _ ] => destruct b
         end; reflexivity.
Qed.

(** X9.  For every two points, equal or not, the [yAxis] of
    [buildPerpendicularAxes] has no negative world-y component and the
    [direction] is the normalized difference of the points; for two equal
    points the direction and the [yAxis] are the zero vector. *)
Theorem buildPerpendicularAxes_up (p1 p2 : Point3D) :
  0 <= y3 (yAxis (buildPerpendicularAxes p1 p2))
  /\ direction (buildPerpendicularAxes p1 p2)
     = normalizeVec3 {| x3 := x3 p2 - x3 p1; y3 := y3 p2 - y3 p1;
                        z3 := z3 p2 - z3 p1 |}
  /\ (p1 = p2 ->
      direction (buildPerpendicularAxes p1 p2) = zeroVec
      /\ yAxis (buildPerpendicularAxes p1 p2) = zeroVec).
Proof.
  assert (Hup : 0 <= y3 (yAxis (buildPerpendicularAxes p1 p2))).
  { unfold buildPerpendicularAxes.
    destruct (_ <? 1e-6);
      match goal with
      | |- context [ if ?v <? 0 then _ else _ ] =>
          destruct (ltb_spec v 0); cbn [yAxis negVec3 y3]; lra
      end. }
  pose proof (buildPerpendicularAxes_direction p1 p2) as Hdir.
  split; [ exact Hup | ]. split; [ exact Hdir | ].
  intros ->.
  assert (Hzero : normalizeVec3 {| x3 := x3 p2 - x3 p2; y3 := y3 p2 - y3 p2;
                                   z3 := z3 p2 - z3 p2 |} = zeroVec).
  { apply normalizeVec3_zero. unfold dot. cbn [x3 y3 z3]. ring. }
  split; [ now rewrite Hdir | ].
  unfold buildPerpendicularAxes. rewrite Hzero.
  unfold dot, zeroVec. cbn [x3 y3 z3].
  rewrite ltb_true by lra.
  assert (Hcross : normalizeVec3 (cross {| x3 := 0; y3 := 0; z3 := 0 |}
                                        {| x3 := 1; y3 := 0; z3 := 0 |})
                   = zeroVec).
  { apply normalizeVec3_zero. unfold dot, cross. cbn [x3 y3 z3]. ring. }
  rewrite Hcross. unfold zeroVec. cbn [y3].
  rewrite ltb_false by lra. reflexivity.
Qed.

(** X10.  For two distinct points whose normalized direction has an x
    component of exactly 0 or of at least 1e-6, the frame of
    [buildPerpendicularAxes] is orthonormal: [xAxis], [yAxis] and
    [direction] have length 1 and are perpendicular to each other; the
    [yAxis] does not point down, and the [direction] points from the first
    point to the second. *)
Theorem buildPerpendicularAxes_frame (p1 p2 : Point3D) :
  let f := buildPerpendicularAxes p1 p2 in
  let step :=
    {| x3 := x3 p2 - x3 p1; y3 := y3 p2 - y3 p1; z3 := z3 p2 - z3 p1 |} in
  p1 <> p2 ->
  x3 (direction f) = 0 \/ 1e-6 <= x3 (direction f) ->
  orthonormalFrame f
  /\ 0 <= y3 (yAxis f)
  /\ 0 < dot (direction f) step.
Proof.
  intros f step Hne Hx.
  destruct (buildPerpendicularAxes_orthonormal p1 p2 Hne Hx) as [Hframe Hup].
  split; [ exact Hframe | ]. split; [ exact Hup | ].
  unfold f. rewrite buildPerpendicularAxes_direction. fold step.
  pose proof (distinct_points p1 p2 Hne) as Hstep. fold step in Hstep.
  destruct (normalizeVec3_nonzero step Hstep) as [Hlen Hn].
  rewrite Hn. unfold dot. cbn [x3 y3 z3].
  set (len := JS.hypot3 _ _ _) in *.
  replace (_ + _)
    with ((x3 step * x3 step + y3 step * y3 step + z3 step * z3 step) / len)
    by (field; lra).
  apply Rdiv_lt_0_compat; [ | exact Hlen ].
  unfold dot in Hstep.
  pose proof (Rle_0_sqr (x3 step)). pose proof (Rle_0_sqr (y3 step)).
  pose proof (Rle_0_sqr (z3 step)). unfold Rsqr in *. lra.
Qed.

(** X10 on the two points of the frame test: from the origin to (0,0,5). *)
Lemma buildPerpendicularAxes_frame_witness :
  orthonormalFrame (buildPerpendicularAxes (vec 0 0 0) (vec 0 0 5))
  /\ 0 <= y3 (yAxis (buildPerpendicularAxes (vec 0 0 0) (vec 0 0 5)))
  /\ 0 < dot (direction (buildPerpendicularAxes (vec 0 0 0) (vec 0 0 5)))
             {| x3 := x3 (vec 0 0 5) - x3 (vec 0 0 0);
                y3 := y3 (vec 0 0 5) - y3 (vec 0 0 0);
                z3 := z3 (vec 0 0 5) - z3 (vec 0 0 0) |}.
Proof.
  apply (buildPerpendicularAxes_frame (vec 0 0 0) (vec 0 0 5)).
  - intros H. apply (f_equal z3) in H. cbn [vec z3] in H. lra.
  - left.
    rewrite buildPerpendicularAxes_direction. unfold normalizeVec3. cbn [vec x3 y3 z3].
    destruct (negb _); cbn [x3]; unfold Rdiv; ring.
Defined.

End Vectors.

(* ================================================================= *)
(** ** Placing a polyline in space *)

Section Projection.

Definition distance3 (p q : Point3D) : R :=
  JS.hypot3 (x3 p - x3 q) (y3 p - y3 q) (z3 p - z3 q).

Definition minusVec3 (p q : Point3D) : Point3D :=
  {| x3 := x3 p - x3 q; y3 := y3 p - y3 q; z3 := z3 p - z3 q |}.

(** What [projectProfile] does to one point. *)
Definition placePoint (center : Point3D) (f : Frame) (p : Point2D) : Point3D :=
  {| x3 := x3 center + x3 (xAxis f) * x p + x3 (yAxis f) * y p;
     y3 := y3 center + y3 (xAxis f) * x p + y3 (yAxis f) * y p;
     z3 := z3 center + z3 (xAxis f) * x p + z3 (yAxis f) * y p |}.

(** X11.  With a frame whose [xAxis] and [yAxis] are perpendicular unit
    vectors, [projectProfile] places the points without changing any
    distance between them; when both axes are also perpendicular to the
    [direction], every placed point is in the plane through the centre
    that is perpendicular to the direction. *)
Theorem projectProfile_rigid (center : Point3D) (f : Frame)
  (pts : list Point2D) :
  unitVec (xAxis f) -> unitVec (yAxis f) -> dot (xAxis f) (yAxis f) = 0 ->
  projectProfile center pts f = map (placePoint center f) pts
  /\ (forall p q,
         distance3 (placePoint center f p) (placePoint center f q)
         = distance p q)
  /\ (dot (xAxis f) (direction f) = 0 -> dot (yAxis f) (direction f) = 0 ->
      forall p, dot (minusVec3 (placePoint center f p) center) (direction f) = 0).
Proof.
  intros Hx Hy Hxy. split; [ reflexivity | ]. split.
  - intros p q. unfold distance3, distance, placePoint. cbn [x3 y3 z3].
    apply hypot3_is; [ apply hypot_nonneg | ].
    rewrite hypot_sq. unfold unitVec, dot in Hx, Hy, Hxy.
    set (dx := x p - x q). set (dy := y p - y q).
    replace (_ + _ + _)
      with (dx * dx * (x3 (xAxis f) * x3 (xAxis f) + y3 (xAxis f) * y3 (xAxis f)
                       + z3 (xAxis f) * z3 (xAxis f))
            + dy * dy * (x3 (yAxis f) * x3 (yAxis f) + y3 (yAxis f) * y3 (yAxis f)
                         + z3 (yAxis f) * z3 (yAxis f))
            + 2 * dx * dy * (x3 (xAxis f) * x3 (yAxis f)
                             + y3 (xAxis f) * y3 (yAxis f)
                             + z3 (xAxis f) * z3 (yAxis f)))
      by (unfold dx, dy; ring).
    rewrite Hx, Hy, Hxy. ring.
  - intros Hxd Hyd p. unfold dot, minusVec3, placePoint in *. cbn [x3 y3 z3].
    replace (_ + _ + _)
      with (x p * (x3 (xAxis f) * x3 (direction f) + y3 (xAxis f) * y3 (direction f)
                   + z3 (xAxis f) * z3 (direction f))
            + y p * (x3 (yAxis f) * x3 (direction f) + y3 (yAxis f) * y3 (direction f)
                     + z3 (yAxis f) * z3 (direction f)))
      by ring.
    rewrite Hxd, Hyd. ring.
Qed.

(** X11 with the frame of the frame test. *)
Lemma projectProfile_rigid_witness :
  distance3
    (placePoint (vec 1 2 3)
       {| xAxis := vec 1 0 0; yAxis := vec 0 1 0; direction := vec 0 0 1 |}
       (pt 0 0))
    (placePoint (vec 1 2 3)
       {| xAxis := vec 1 0 0; yAxis := vec 0 1 0; direction := vec 0 0 1 |}
       (pt 3 4))
  = distance (pt 0 0) (pt 3 4).
Proof.
  apply (projectProfile_rigid (vec 1 2 3)
           {| xAxis := vec 1 0 0; yAxis := vec 0 1 0; direction := vec 0 0 1 |}
           []);
    unfold unitVec, dot; cbn [xAxis yAxis vec x3 y3 z3]; ring.
Defined.

(** The part of a result that [lengthC] has no say in. *)
Definition firstRing (r : Section3D)
  : Frame * Point3D * Point3D * list Point3D * nat :=
  (frame r, centerA r, centerB r, profile1Points r,
   List.length (profile2Points r)).

(** X12.  The third length of [buildProfileSection3DRange] decides neither
    whether there is a result nor its frame, its two centres, its first
    ring or the size of its second ring: they are those of the call
    without a third length. *)
Theorem buildProfileSection3DRange_lengthC_frame (axisData : list Segment)
  (heightAssignments : list HeightAssignment)
  (profileAssignments : list ProfileAssignment) (profiles : list Profile)
  (lengthA lengthB : R) (lengthC : option R) (options : Options) :
  option_map firstRing
    (buildProfileSection3DRange axisData heightAssignments profileAssignments
       profiles lengthA lengthB lengthC options)
  = option_map firstRing
      (buildProfileSection3DRange axisData heightAssignments profileAssignments
         profiles lengthA lengthB None options).
Proof.
  unfold buildProfileSection3DRange.
  destruct (interpolateProfileAtLength lengthA _ _ _ true) as [ pa | ]; [ | reflexivity ].
  destruct (interpolateProfileAtLength lengthB _ _ _ false) as [ pb | ]; [ | reflexivity ].
  destruct (isEmpty pa || isEmpty pb); [ reflexivity | ].
  destruct (negb _); [ reflexivity | ].
  cbn [option_map]. unfold firstRing. cbn [frame centerA centerB profile1Points profile2Points].
  now rewrite !projectProfile_length.
Qed.

End Projection.

(* ================================================================= *)
(** ** What the sampler emits *)

Section Sampler.

Definition isLine (seg : Segment) : Prop :=
  match seg with
  | Line _ _ => True
  | Arc _ _ _ => False
  end.

Lemma closePolyline_head (p : Point2D) (pts : list Point2D) :
  hd_error (closePolyline (p :: pts)) = Some p.
Proof.
  unfold closePolyline. destruct pts as [ | q pts ]; [ reflexivity | ].
  destruct (_ >? _); reflexivity.
Qed.

Lemma sampleSegment_lines (maxChord minArcSteps : R) (segs : list Segment) :
  Forall isLine segs ->
  flat_map (sampleSegment maxChord minArcSteps) segs = map segEnd segs.
Proof.
  induction 1 as [ | seg segs Hseg _ IH ]; [ reflexivity | ].
  destruct seg as [ s e | ]; [ | contradiction ].
  cbn [flat_map map sampleSegment segEnd app]. now rewrite IH, point_eta.
Qed.

(** X13.  [sampleProfilePoints] returns the empty polyline for a profile
    without segments; otherwise the polyline starts at the start point of
    the first segment, and for a profile of lines only it is that point
    followed by the end point of every segment, in order, with the
    closing step applied. *)
Theorem sampleProfilePoints_lines (profile : Profile) (options : Options) :
  (segments profile = [] -> sampleProfilePoints profile options = [])
  /\ (forall seg0 rest,
         segments profile = seg0 :: rest ->
         hd_error (sampleProfilePoints profile options) = Some (segStart seg0)
         /\ (Forall isLine (segments profile) ->
             sampleProfilePoints profile options
             = closePolyline (segStart seg0 :: map segEnd (segments profile)))).
Proof.
  unfold sampleProfilePoints. split.
  - intros ->. reflexivity.
  - intros seg0 rest Hseg. rewrite Hseg. rewrite point_eta. split.
    + apply closePolyline_head.
    + intros Hlines. now rewrite sampleSegment_lines.
Qed.

Lemma Int_part_IZR (z : Z) : Int_part (IZR z) = z.
Proof. symmetry. apply Int_part_spec. lra. Qed.

Lemma ceil_is_integer (a : R) : exists z, JS.ceil a = IZR z /\ a <= IZR z.
Proof.
  exists (- Int_part (- a))%Z. unfold JS.ceil. rewrite opp_IZR.
  split; [ reflexivity | ].
  pose proof (base_Int_part (- a)). lra.
Qed.

Lemma Rmax_integers (k : nat) (z : Z) :
  Rmax (INR k) (IZR z) = IZR (Z.max (Z.of_nat k) z).
Proof.
  rewrite INR_IZR_INZ.
  destruct (Z.max_spec (Z.of_nat k) z) as [[Hlt ->] | [Hle ->]].
  - apply Rmax_right. apply IZR_le. lia.
  - apply Rmax_left. apply IZR_le. lia.
Qed.

(** X14.  The points sampled along an arc with a centre are all on its
    circle; with a whole number for [minArcSteps] there is at least one of
    them and the last one is the end point of the arc. *)
Theorem sampleSegment_arc (s e c : Point2D) (radius maxChord minArcSteps : R) :
  calculateArcCenter s e radius = Some c ->
  Forall (fun p => distance p c = Rabs radius)
    (sampleSegment maxChord minArcSteps (Arc s e radius))
  /\ (forall k : nat,
         minArcSteps = INR k ->
         sampleSegment maxChord minArcSteps (Arc s e radius) <> []
         /\ List.last (sampleSegment maxChord minArcSteps (Arc s e radius)) s = e).
Proof.
  intros Ec.
  destruct (calculateArcCenter_Some _ _ _ _ Ec) as (Hr & _).
  destruct (arc_walk_length s e c radius Ec) as [Hlen Hpos].
  cbn [sampleSegment]. rewrite truthy_true by exact Hr. cbn [negb]. rewrite Ec.
  split.
  - apply Forall_map, Forall_forall. intros i _.
    apply arcPoint_on_circle, Rabs_pos.
  - intros k ->.
    set (q := Rabs (arcAngleDiff s e c radius) * Rabs radius / Rmax 0.1 maxChord).
    assert (Hq : 0 < q).
    { unfold q. rewrite Hlen. apply Rdiv_lt_0_compat; [ exact Hpos | ].
      pose proof (Rmax_l 0.1 maxChord). lra. }
    destruct (ceil_is_integer q) as (z & Hz & Hqz). rewrite Hz.
    rewrite Rmax_integers.
    set (m := Z.max (Z.of_nat k) z).
    assert (Hm : (1 <= m)%Z).
    { assert (0 < IZR z) by lra. apply lt_IZR in H. unfold m. lia. }
    unfold JS.loopCount. rewrite Int_part_IZR.
    assert (Hn : Z.to_nat m = S (Nat.pred (Z.to_nat m))) by lia.
    rewrite Hn, seq_S, map_app. cbn [map]. split.
    + intros Habs. apply app_eq_nil in Habs. destruct Habs as [_ Habs]. discriminate.
    + rewrite last_last.
      replace (INR (1 + Nat.pred (Z.to_nat m)) / IZR m) with 1.
      * rewrite Rmult_1_r. apply (arcPoint_end s e c radius Ec).
      * replace (1 + Nat.pred (Z.to_nat m))%nat with (Z.to_nat m) by lia.
        rewrite INR_IZR_INZ, Z2Nat.id by lia.
        field. apply not_0_IZR. lia.
Qed.

(** X14 on the quarter turn of the axis of the tests, with the options of
    the sampling test. *)
Lemma sampleSegment_arc_witness :
  exists c,
    calculateArcCenter (pt 10 0) (pt 10 10) 10 = Some c
    /\ Forall (fun p => distance p c = Rabs 10)
         (sampleSegment 1 4 (Arc (pt 10 0) (pt 10 10) 10))
    /\ List.last (sampleSegment 1 4 (Arc (pt 10 0) (pt 10 10) 10)) (pt 10 0)
       = pt 10 10.
Proof.
  destruct testArc_center as [c Hc]. exists c.
  destruct (sampleSegment_arc (pt 10 0) (pt 10 10) c 10 1 4 Hc) as [Hon Hlast].
  split; [ exact Hc | ]. split; [ exact Hon | ].
  apply (Hlast 4%nat). simpl. lra.
Defined.

End Sampler.

(* ================================================================= *)
(** ** Rays, centroids and angles *)

Section Rays.

(** X15.  What [raySegmentIntersection] decides.  A hit has a ray
    parameter of at least -1e-9 and solves [dir * t = a + u * (b - a)]
    for a segment parameter [u] from -1e-9 to 1 + 1e-9: the ray of the
    solve starts at (0,0), and [origin] only moves the reported point
    [origin + dir * t].  There is no hit only when ray and segment are
    parallel within 1e-9, or when every solution of that equation has a
    parameter out of those ranges. *)
Theorem raySegmentIntersection_decides (origin dir a b : Point2D) :
  match raySegmentIntersection origin dir a b with
  | Some h =>
      - 1e-9 <= hit_t h
      /\ (exists u,
             - 1e-9 <= u <= 1 + 1e-9
             /\ x dir * hit_t h = x a + u * (x b - x a)
             /\ y dir * hit_t h = y a + u * (y b - y a))
      /\ hit_point h = {| x := x origin + x dir * hit_t h;
                          y := y origin + y dir * hit_t h |}
  | None =>
      Rabs (x dir * (y b - y a) - y dir * (x b - x a)) < 1e-9
      \/ (forall t u,
             x dir * t = x a + u * (x b - x a) ->
             y dir * t = y a + u * (y b - y a) ->
             t < - 1e-9 \/ u < - 1e-9 \/ 1 + 1e-9 < u)
  end.
Proof.
  unfold raySegmentIntersection.
  set (sx := x b - x a). set (sy := y b - y a).
  set (denom := x dir * sy - y dir * sx).
  destruct (ltb_spec (Rabs denom) 1e-9) as [ Hpar | Hden ]; [ now left | ].
  assert (Hnz : denom <> 0).
  { intros Hz. rewrite Hz, Rabs_R0 in Hden. lra. }
  set (t0 := (x a * sy - y a * sx) / denom).
  set (u0 := (x a * y dir - y a * x dir) / denom).
  assert (Huniq : forall t u,
             x dir * t = x a + u * sx -> y dir * t = y a + u * sy ->
             t = t0 /\ u = u0).
  { intros t u Hx Hy. unfold t0, u0. split.
    - apply (Rmult_eq_reg_r denom); [ | exact Hnz ].
      replace ((x a * sy - y a * sx) / denom * denom) with (x a * sy - y a * sx)
        by (field; exact Hnz).
      unfold denom. nra.
    - apply (Rmult_eq_reg_r denom); [ | exact Hnz ].
      replace ((x a * y dir - y a * x dir) / denom * denom)
        with (x a * y dir - y a * x dir) by (field; exact Hnz).
      unfold denom. nra. }
  unfold JS.gtb.
  destruct (ltb_spec t0 (- 1e-9)) as [ Ht | Ht ].
  { right. intros t u Hx Hy. destruct (Huniq t u Hx Hy) as [-> ->]. now left. }
  destruct (ltb_spec u0 (- 1e-9)) as [ Hu0 | Hu0 ].
  { right. intros t u Hx Hy. destruct (Huniq t u Hx Hy) as [-> ->].
    right. now left. }
  destruct (ltb_spec (1 + 1e-9) u0) as [ Hu1 | Hu1 ].
  { right. intros t u Hx Hy. destruct (Huniq t u Hx Hy) as [-> ->].
    right. now right. }
  cbn [orb hit_t hit_point].
  split; [ lra | ]. split; [ | reflexivity ].
  exists u0. split; [ lra | ].
  split; unfold t0, u0, denom; field; exact Hnz.
Qed.

Lemma not_both_zero (a b : R) :
  0 < JS.hypot a b -> negb (JS.truthy a) && negb (JS.truthy b) = false.
Proof.
  intros H. apply nonzero_of_hypot in H. unfold JS.truthy.
  destruct (eqb_spec a 0) as [Ha | Ha], (eqb_spec b 0) as [Hb | Hb];
    cbn [negb andb]; try reflexivity.
  destruct H; contradiction.
Qed.

(** X16.  [intersectProfileWithRay] finds nothing on a polyline of fewer
    than two points or for the target (0,0); and only the direction of
    the target counts: a target stretched by a positive factor gives the
    same result, as long as both are at least 1e-9 long. *)
Theorem intersectProfileWithRay_direction_only (target : Point2D)
  (pts : list Point2D) (options : Options) :
  intersectProfileWithRay target [] options = None
  /\ (forall p, intersectProfileWithRay target [p] options = None)
  /\ intersectProfileWithRay (pt 0 0) pts options = None
  /\ (forall k,
         0 < k ->
         1e-9 <= JS.hypot (x target) (y target) ->
         1e-9 <= k * JS.hypot (x target) (y target) ->
         intersectProfileWithRay (pt (k * x target) (k * y target)) pts options
         = intersectProfileWithRay target pts options).
Proof.
  split; [ reflexivity | ].
  split.
  { intros p. unfold intersectProfileWithRay.
    destruct (_ && _); [ reflexivity | ].
    destruct (_ <? _); reflexivity. }
  split.
  { unfold intersectProfileWithRay. destruct pts; [ reflexivity | ].
    cbn [pt x y]. unfold JS.truthy. now rewrite eqb_true. }
  intros k Hk Hmag Hkmag. unfold intersectProfileWithRay.
  destruct pts as [ | p0 pts ]; [ reflexivity | ].
  cbn [pt x y].
  set (mag := JS.hypot (x target) (y target)) in *.
  assert (Hscaled : JS.hypot (k * x target) (k * y target) = k * mag).
  { apply hypot_is.
    - apply Rmult_le_pos; [ lra | apply hypot_nonneg ].
    - replace (k * mag * (k * mag)) with (k * k * (mag * mag)) by ring.
      unfold mag. rewrite hypot_sq. ring. }
  rewrite Hscaled.
  rewrite (not_both_zero (x target) (y target)) by (fold mag; lra).
  rewrite (not_both_zero (k * x target) (k * y target)) by (rewrite Hscaled; lra).
  rewrite !ltb_false by lra.
  replace (k * x target / (k * mag)) with (x target / mag) by (field; lra).
  replace (k * y target / (k * mag)) with (y target / mag) by (field; lra).
  reflexivity.
Qed.

Definition shift (d p : Point2D) : Point2D :=
  {| x := x p + x d; y := y p + y d |}.

Lemma sum_coordinates (f : Point2D -> R) (l : list Point2D) (acc : R) :
  fold_left (fun s p => s + JS.orElse (f p) 0) l acc
  = acc + fold_right (fun p s => f p + s) 0 l.
Proof.
  revert acc. induction l as [ | p l IH ]; intros acc; cbn [fold_left fold_right].
  - ring.
  - rewrite IH, orElse_0. ring.
Qed.

Lemma sum_shift (f : Point2D -> R) (dv : R) (d : Point2D) (l : list Point2D) :
  (forall p, f (shift d p) = f p + dv) ->
  fold_right (fun p s => f p + s) 0 (map (shift d) l)
  = fold_right (fun p s => f p + s) 0 l + INR (List.length l) * dv.
Proof.
  intros Hf. induction l as [ | p l IH ].
  - cbn [map fold_right List.length INR]. ring.
  - change (List.length (p :: l)) with (S (List.length l)). rewrite S_INR.
    cbn [map fold_right]. rewrite IH, Hf. ring.
Qed.

(** X17.  [compute2DCentroid] is the mean of the points: the origin for
    no point, and for at least one point the number of points times the
    centroid is the sum of the points; moving every point by the same
    offset moves the centroid by that offset. *)
Theorem compute2DCentroid_mean (pts : list Point2D) (d : Point2D) :
  compute2DCentroid [] = pt 0 0
  /\ (pts <> [] ->
      INR (List.length pts) * x (compute2DCentroid pts)
      = fold_right (fun p s => x p + s) 0 pts
      /\ INR (List.length pts) * y (compute2DCentroid pts)
         = fold_right (fun p s => y p + s) 0 pts
      /\ compute2DCentroid (map (shift d) pts)
         = shift d (compute2DCentroid pts)).
Proof.
  split; [ reflexivity | ]. intros Hne.
  destruct pts as [ | p0 pts ]; [ contradiction | ].
  set (l := p0 :: pts) in *.
  assert (Hn : INR (List.length l) <> 0) by (apply not_0_INR; discriminate).
  assert (Hc : compute2DCentroid l
               = {| x := fold_right (fun p s => x p + s) 0 l / INR (List.length l);
                    y := fold_right (fun p s => y p + s) 0 l / INR (List.length l) |}).
  { unfold compute2DCentroid, l. fold l. rewrite !sum_coordinates.
    f_equal; field; exact Hn. }
  assert (Hs : compute2DCentroid (map (shift d) l)
               = {| x := fold_right (fun p s => x p + s) 0 (map (shift d) l)
                         / INR (List.length l);
                    y := fold_right (fun p s => y p + s) 0 (map (shift d) l)
                         / INR (List.length l) |}).
  { unfold compute2DCentroid, l. cbn [map]. fold l.
    change (shift d p0 :: map (shift d) pts) with (map (shift d) l).
    rewrite !sum_coordinates, length_map.
    f_equal; field; exact Hn. }
  rewrite Hs, Hc. cbn [x y].
  split; [ field; exact Hn | ]. split; [ field; exact Hn | ].
  rewrite (sum_shift x (x d) d l) by reflexivity.
  rewrite (sum_shift y (y d) d l) by reflexivity.
  unfold shift. cbn [x y]. f_equal; field; exact Hn.
Qed.

End Rays.

(* ================================================================= *)
(** ** Angles and the entries of the merge *)

Section MergeEntries.

Lemma full_turns (a : R) (k : Z) :
  cos (a + 2 * PI * IZR k) = cos a /\ sin (a + 2 * PI * IZR k) = sin a.
Proof.
  destruct (Z_le_gt_dec 0 k) as [Hk | Hk].
  - rewrite <- (Z2Nat.id k Hk), <- INR_IZR_INZ.
    replace (a + 2 * PI * INR (Z.to_nat k)) with (a + 2 * INR (Z.to_nat k) * PI)
      by ring.
    split; [ apply cos_period | apply sin_period ].
  - assert (Hn : (0 <= - k)%Z) by lia.
    set (b := a + 2 * PI * IZR k).
    assert (Ha : a = b + 2 * INR (Z.to_nat (- k)) * PI).
    { unfold b. rewrite INR_IZR_INZ, (Z2Nat.id _ Hn), opp_IZR. ring. }
    rewrite Ha. split; symmetry; [ apply cos_period | apply sin_period ].
Qed.

Lemma trunc_integer (q : R) : exists k : Z, JS.trunc q = IZR k.
Proof.
  unfold JS.trunc. destruct (0 <=? q).
  - now exists (Int_part q).
  - exists (- Int_part (- q))%Z. now rewrite opp_IZR.
Qed.

Lemma trunc_small (q : R) : 0 <= q < 1 -> JS.trunc q = 0.
Proof.
  intros Hq. unfold JS.trunc. rewrite leb_true by lra.
  rewrite <- (Int_part_spec q 0); [ reflexivity | simpl; lra ].
Qed.

(** X18.  [normalizeAngle] moves an angle by whole turns only: the result
    is the angle plus an integer multiple of [2 * PI], so cosine and sine
    are kept; an angle already in [0, 2 * PI) is returned as it is, and
    normalising twice is normalising once. *)
Theorem normalizeAngle_whole_turns (a : R) :
  (exists k : Z, normalizeAngle a = a + 2 * PI * IZR k)
  /\ cos (normalizeAngle a) = cos a
  /\ sin (normalizeAngle a) = sin a
  /\ (0 <= a < 2 * PI -> normalizeAngle a = a)
  /\ normalizeAngle (normalizeAngle a) = normalizeAngle a.
Proof.
  assert (Hpi : 0 < 2 * PI) by (pose proof PI_RGT_0; lra).
  assert (Hturns : exists k : Z, normalizeAngle a = a + 2 * PI * IZR k).
  { unfold normalizeAngle, JS.fmod.
    destruct (trunc_integer (a / (2 * PI))) as [k Hk]. rewrite Hk.
    destruct (_ <? 0).
    - exists (1 - k)%Z. rewrite minus_IZR. ring.
    - exists (- k)%Z. rewrite opp_IZR. ring. }
  assert (Hid : forall b, 0 <= b < 2 * PI -> normalizeAngle b = b).
  { intros b Hb. unfold normalizeAngle, JS.fmod.
    rewrite trunc_small.
    - rewrite ltb_false by lra. ring.
    - split.
      + apply Rmult_le_pos; [ lra | left; now apply Rinv_0_lt_compat ].
      + apply (Rmult_lt_reg_r (2 * PI)); [ exact Hpi | ].
        replace (b / (2 * PI) * (2 * PI)) with b by (field; lra). lra. }
  split; [ exact Hturns | ].
  destruct Hturns as [k Hk].
  split; [ rewrite Hk; apply full_turns | ].
  split; [ rewrite Hk; apply full_turns | ].
  split; [ apply Hid | ].
  apply Hid, normalizeAngle_range.
Qed.

(** [own] is a point of the polyline [src], and [partner] is what
    [intersectProfileWithRay] reports for its offset from the centroid of
    [src] against the polyline [other]. *)
Definition pairedFrom (options : Options) (src other : list Point2D)
  (own partner : Point2D) : Prop :=
  In own src
  /\ intersectProfileWithRay (fromCentroid src own) other options = Some partner.

(** The polar angle about (0,0), in [0, 2 * PI). *)
Definition polarAngle (p : Point2D) : R := normalizeAngle (JS.atan2 (y p) (x p)).

Definition fromPass (options : Options) (src other : list Point2D)
  (isSource1 : bool) (m : MergedPointPair) : Prop :=
  if isSource1
  then pairedFrom options src other (point1 m) (point2 m)
  else pairedFrom options src other (point2 m) (point1 m).

Lemma collect_entries (options : Options) (src other : list Point2D)
  (isSource1 : bool) :
  Forall (fun m => angle m = polarAngle (point1 m)
                   /\ fromPass options src other isSource1 m)
    (collect options src other isSource1).
Proof.
  unfold collect. apply Forall_flat_map, Forall_forall. intros p Hp.
  destruct (intersectProfileWithRay _ other options) as [ q | ] eqn:Ehit;
    [ | constructor ].
  destruct isSource1; (constructor; [ | constructor ]);
    cbn [angle point1 point2 fromPass];
    (split; [ reflexivity | ]); (split; [ exact Hp | exact Ehit ]).
Qed.

Lemma flat_map_short {A B : Type} (f : A -> list B) (l : list A) :
  (forall a, List.length (f a) <= 1)%nat ->
  (List.length (flat_map f l) <= List.length l)%nat.
Proof.
  intros Hf. induction l as [ | a l IH ]; [ apply Nat.le_refl | ].
  cbn [flat_map]. rewrite length_app. cbn [List.length].
  specialize (Hf a). lia.
Qed.

Lemma collect_length (options : Options) (src other : list Point2D)
  (isSource1 : bool) :
  (List.length (collect options src other isSource1) <= List.length src)%nat.
Proof.
  unfold collect. apply flat_map_short. intros p.
  destruct (intersectProfileWithRay _ _ _); [ | cbn; lia ].
  destruct isSource1; cbn; lia.
Qed.

Lemma collect_no_partner (options : Options) (src : list Point2D)
  (isSource1 : bool) :
  collect options src [] isSource1 = [].
Proof.
  unfold collect. apply flat_map_nil. intros p _. reflexivity.
Qed.

(** X19.  Every entry of [mergeProfilesByAngle] comes from one of the two
    passes: [point1] is a sample point of the first profile and [point2]
    the point reported for its ray on the second, or [point2] is a sample
    point of the second profile and [point1] the point reported for its
    ray on the first.  In both cases the angle of the entry is the polar
    angle of [point1] about (0,0). *)
Theorem mergeProfilesByAngle_entries (profile1 profile2 : Profile)
  (options : Options) :
  let pts1 := sampleProfilePoints profile1 options in
  let pts2 := sampleProfilePoints profile2 options in
  Forall (fun m =>
            angle m = polarAngle (point1 m)
            /\ (pairedFrom options pts1 pts2 (point1 m) (point2 m)
                \/ pairedFrom options pts2 pts1 (point2 m) (point1 m)))
    (mergeProfilesByAngle profile1 profile2 options).
Proof.
  intros pts1 pts2. unfold mergeProfilesByAngle. fold pts1 pts2.
  eapply Permutation_Forall; [ apply sortBy_perm | ].
  apply Forall_app. split.
  - eapply Forall_impl; [ | apply collect_entries ].
    cbn [fromPass]. intros m [Ha Hp]. split; [ exact Ha | now left ].
  - eapply Forall_impl; [ | apply collect_entries ].
    cbn [fromPass]. intros m [Ha Hp]. split; [ exact Ha | now right ].
Qed.

(** X20.  The merge has at most one entry for each sample point of the
    two profiles, and it is empty as soon as one of the profiles has no
    segment. *)
Theorem mergeProfilesByAngle_size (profile1 profile2 : Profile)
  (options : Options) :
  (List.length (mergeProfilesByAngle profile1 profile2 options)
   <= List.length (sampleProfilePoints profile1 options)
      + List.length (sampleProfilePoints profile2 options))%nat
  /\ (segments profile1 = [] \/ segments profile2 = [] ->
      mergeProfilesByAngle profile1 profile2 options = []).
Proof.
  unfold mergeProfilesByAngle. split.
  - rewrite <- (Permutation_length (sortBy_perm angle _)), length_app.
    pose proof (collect_length options (sampleProfilePoints profile1 options)
                  (sampleProfilePoints profile2 options) true).
    pose proof (collect_length options (sampleProfilePoints profile2 options)
                  (sampleProfilePoints profile1 options) false).
    lia.
  - intros [H1 | H2].
    + assert (Hs : sampleProfilePoints profile1 options = [])
        by (unfold sampleProfilePoints; now rewrite H1).
      rewrite Hs, collect_no_partner. reflexivity.
    + assert (Hs : sampleProfilePoints profile2 options = [])
        by (unfold sampleProfilePoints; now rewrite H2).
      rewrite Hs, collect_no_partner. reflexivity.
Qed.

End MergeEntries.

(* ================================================================= *)
(** ** The interpolator on any assignment table *)

Section Interpolator.

Variables (profiles : list Profile) (options : Options).

(** The length the interpolator works with: the end of a span is taken
    1e-8 before its length. *)
Definition effectiveLength (isStart : bool) (length : R) : R :=
  if negb isStart then length - 1e-8 else length.

(** What the interpolator returns once [prev] and [next] are chosen. *)
Definition between (prev next : ProfileAssignment) (len : R)
  : option (list Point2D) :=
  match findProfile profiles (profileId prev),
        findProfile profiles (profileId next) with
  | Some p1, Some p2 =>
      if (pa_length prev =? pa_length next)
         || sameProfileId (profileId prev) (profileId next)
      then Some (sampleProfilePoints p1 options)
      else
        blendMerged
          (Rmax 0 (Rmin 1 ((len - pa_length prev)
                           / (pa_length next - pa_length prev))))
          (mergeProfilesByAngle p1 p2 options)
  | _, _ => None
  end.

(** The choice of [prev] and [next]. *)
Definition bracketOf (first : ProfileAssignment) (rest : list ProfileAssignment)
  (len : R) : ProfileAssignment * ProfileAssignment :=
  let last := List.last (first :: rest) first in
  if len >? pa_length last + 1e-9 then (last, last)
  else if len <? pa_length first - 1e-9 then (first, first)
  else match findBracket (first :: rest) len with
       | Some pn => pn
       | None => (first, last)
       end.

Lemma interpolate_unfold (assignments : list ProfileAssignment)
  (first : ProfileAssignment) (rest : list ProfileAssignment)
  (length : R) (isStart : bool) :
  sortBy pa_length assignments = first :: rest ->
  interpolateProfileAtLength length assignments profiles options isStart
  = between (fst (bracketOf first rest (effectiveLength isStart length)))
            (snd (bracketOf first rest (effectiveLength isStart length)))
            (effectiveLength isStart length).
Proof.
  intros Hs. unfold interpolateProfileAtLength. rewrite Hs.
  unfold bracketOf, effectiveLength.
  set (len := if negb isStart then length - 1e-8 else length).
  set (last := List.last (first :: rest) first).
  destruct (findBracket (first :: rest) len) as [ [prev next] | ];
    destruct (len <? pa_length first - 1e-9);
    destruct (len >? pa_length last + 1e-9);
    cbn [fst snd]; unfold between, blendMerged, blend; reflexivity.
Qed.

Lemma findBracket_members (sorted : list ProfileAssignment) (len : R)
  (prev next : ProfileAssignment) :
  findBracket sorted len = Some (prev, next) ->
  In prev sorted /\ In next sorted
  /\ pa_length prev <= len <= pa_length next.
Proof.
  induction sorted as [ | a sorted' IH ]; [ discriminate | ].
  destruct sorted' as [ | b sorted'' ]; [ discriminate | ].
  cbn [findBracket].
  destruct (leb_spec (pa_length a) len) as [Ha | Ha];
    destruct (leb_spec len (pa_length b)) as [Hb | Hb]; cbn [andb];
    try (intros H; apply IH in H; destruct H as (H1 & H2 & H3);
         split; [ right; exact H1 | split; [ right; exact H2 | exact H3 ] ]).
  intros H. inversion H; subst.
  split; [ now left | ]. split; [ right; now left | lra ].
Qed.

Lemma last_member {A : Type} (l : list A) (d : A) :
  l <> [] -> In (List.last l d) l.
Proof.
  induction l as [ | a l IH ]; [ contradiction | ]. intros _.
  destruct l as [ | b l' ]; [ now left | ].
  right. change (List.last (a :: b :: l') d) with (List.last (b :: l') d).
  apply IH. discriminate.
Qed.

Lemma bracketOf_members (first : ProfileAssignment)
  (rest : list ProfileAssignment) (len : R) :
  In (fst (bracketOf first rest len)) (first :: rest)
  /\ In (snd (bracketOf first rest len)) (first :: rest).
Proof.
  assert (Hlast : In (List.last (first :: rest) first) (first :: rest))
    by (apply last_member; discriminate).
  unfold bracketOf.
  destruct (_ >? _); [ now split | ].
  destruct (_ <? _); [ split; now left | ].
  destruct (findBracket (first :: rest) len) as [ [prev next] | ] eqn:Eb.
  - apply findBracket_members in Eb. cbn [fst snd]. now split.
  - cbn [fst snd]. split; [ now left | exact Hlast ].
Qed.

(** X21.  [interpolateProfileAtLength] has no result for the empty table,
    and none when no assignment of the table names a profile of the
    catalogue (so none for the empty catalogue), whatever the length. *)
Theorem interpolateProfileAtLength_unresolved
  (assignments : list ProfileAssignment) (length : R) (isStart : bool) :
  interpolateProfileAtLength length [] profiles options isStart = None
  /\ (Forall (fun a => findProfile profiles (profileId a) = None) assignments ->
      interpolateProfileAtLength length assignments profiles options isStart
      = None).
Proof.
  split; [ reflexivity | ]. intros Hnone.
  destruct (sortBy pa_length assignments) as [ | first rest ] eqn:Hs.
  { unfold interpolateProfileAtLength. now rewrite Hs. }
  rewrite (interpolate_unfold _ _ _ _ _ Hs).
  destruct (bracketOf_members first rest (effectiveLength isStart length))
    as [Hprev _].
  rewrite <- Hs in Hprev.
  apply (Permutation_in _ (Permutation_sym (sortBy_perm pa_length assignments)))
    in Hprev.
  rewrite Forall_forall in Hnone. unfold between.
  now rewrite (Hnone _ Hprev).
Qed.

(** X22.  When every assignment of a table that is not empty names the
    same profile of the catalogue, the result is the sampled polyline of
    that profile at every length, for the start and for the end of a
    span: nothing is merged or blended. *)
Theorem interpolateProfileAtLength_one_profile
  (assignments : list ProfileAssignment) (i : ProfileId) (p : Profile)
  (length : R) (isStart : bool) :
  assignments <> [] ->
  Forall (fun a => profileId a = Some i) assignments ->
  findProfile profiles (Some i) = Some p ->
  interpolateProfileAtLength length assignments profiles options isStart
  = Some (sampleProfilePoints p options).
Proof.
  intros Hne Hall Hfound.
  destruct (sortBy pa_length assignments) as [ | first rest ] eqn:Hs.
  { apply sortBy_nil_iff in Hs. contradiction. }
  rewrite (interpolate_unfold _ _ _ _ _ Hs).
  destruct (bracketOf_members first rest (effectiveLength isStart length))
    as [Hprev Hnext].
  rewrite <- Hs in Hprev, Hnext.
  apply (Permutation_in _ (Permutation_sym (sortBy_perm pa_length assignments)))
    in Hprev, Hnext.
  rewrite Forall_forall in Hall. unfold between.
  rewrite (Hall _ Hprev), (Hall _ Hnext), Hfound.
  cbn [sameProfileId]. rewrite String.eqb_refl, orb_true_r. reflexivity.
Qed.

(** The polyline of the profile an assignment names, if the catalogue has
    it. *)
Definition plainProfile (a : ProfileAssignment) : option (list Point2D) :=
  option_map (fun p => sampleProfilePoints p options)
    (findProfile profiles (profileId a)).

Lemma between_same (a : ProfileAssignment) (len : R) :
  between a a len = plainProfile a.
Proof.
  unfold between, plainProfile.
  destruct (findProfile profiles (profileId a)); [ | reflexivity ].
  rewrite eqb_true by reflexivity. reflexivity.
Qed.

Lemma sorted_first_last (first : ProfileAssignment)
  (rest : list ProfileAssignment) :
  StronglySorted (keyLe pa_length) (first :: rest) ->
  pa_length first <= pa_length (List.last (first :: rest) first).
Proof.
  intros Hs. inversion Hs as [ | ? ? _ Hall ]; subst.
  destruct rest as [ | b rest' ]; [ cbn; lra | ].
  rewrite Forall_forall in Hall. apply Hall.
  rewrite last_cons. apply last_member. discriminate.
Qed.

(** X23.  Outside the table.  With [first] the assignment of the smallest
    and [last] the one of the largest length (the first and last of the
    table sorted by length): a length more than 1e-9 below that of
    [first] gives the plain polyline of the profile of [first], a length
    more than 1e-9 above that of [last] the plain polyline of the profile
    of [last]; no result when the catalogue lacks that profile.  For the
    end of a span the length counts 1e-8 shorter. *)
Theorem interpolateProfileAtLength_outside
  (assignments : list ProfileAssignment) (first : ProfileAssignment)
  (rest : list ProfileAssignment) (length : R) (isStart : bool) :
  sortBy pa_length assignments = first :: rest ->
  (effectiveLength isStart length < pa_length first - 1e-9 ->
   interpolateProfileAtLength length assignments profiles options isStart
   = plainProfile first)
  /\ (pa_length (List.last (first :: rest) first) + 1e-9
      < effectiveLength isStart length ->
      interpolateProfileAtLength length assignments profiles options isStart
      = plainProfile (List.last (first :: rest) first)).
Proof.
  intros Hs. rewrite (interpolate_unfold _ _ _ _ _ Hs).
  pose proof (sortBy_sorted pa_length assignments) as Hsorted.
  rewrite Hs in Hsorted. apply sorted_first_last in Hsorted.
  unfold bracketOf. split; intros Hlen.
  - rewrite gtb_false by lra. rewrite ltb_true by exact Hlen.
    cbn [fst snd]. apply between_same.
  - rewrite gtb_true by exact Hlen. cbn [fst snd]. apply between_same.
Qed.

Lemma findBracket_skip (before : list ProfileAssignment)
  (a b : ProfileAssignment) (after : list ProfileAssignment) (len : R) :
  Forall (fun c => pa_length c <= pa_length a) before ->
  pa_length a < len <= pa_length b ->
  findBracket (before ++ a :: b :: after) len = Some (a, b).
Proof.
  intros Hall Hlen. induction before as [ | c before' IH ].
  - cbn [app findBracket]. rewrite !leb_true by lra. reflexivity.
  - inversion Hall as [ | ? ? Hc Hall' ]; subst.
    destruct before' as [ | d before'' ].
    + cbn [app findBracket]. rewrite (leb_false len (pa_length a)) by lra.
      rewrite andb_false_r. rewrite !leb_true by lra. reflexivity.
    + inversion Hall' as [ | ? ? Hd _ ]; subst.
      change ((c :: d :: before'') ++ a :: b :: after)
        with (c :: d :: (before'' ++ a :: b :: after)).
      cbn [findBracket]. rewrite (leb_false len (pa_length d)) by lra.
      rewrite andb_false_r. apply IH. exact Hall'.
Qed.

Lemma last_app_cons {A : Type} (l1 l2 : list A) (b d : A) :
  List.last (l1 ++ b :: l2) d = List.last (b :: l2) d.
Proof.
  induction l1 as [ | c l1 IH ]; [ reflexivity | ].
  cbn [app]. destruct (l1 ++ b :: l2) eqn:E; [ destruct l1; discriminate | ].
  exact IH.
Qed.

Lemma sorted_suffix {A : Type} (le : A -> A -> Prop) (l1 l2 : list A) :
  StronglySorted le (l1 ++ l2) -> StronglySorted le l2.
Proof.
  induction l1 as [ | c l1 IH ]; [ trivial | ].
  cbn [app]. intros H. inversion H; subst. now apply IH.
Qed.

(** X24.  Inside the table.  In a table sorted by length, for a length
    strictly between those of two neighbouring assignments [a] and [b]
    whose profiles the catalogue has, the start of a span gets: the plain
    polyline of the profile of [a] when both name the same profile, and
    otherwise the blend of the merge of the two profiles at the fraction
    of the way from [a] to [b], which is strictly between 0 and 1; no
    result when that merge is empty. *)
Theorem interpolateProfileAtLength_inside
  (before after : list ProfileAssignment) (a b : ProfileAssignment)
  (p1 p2 : Profile) (length : R) :
  StronglySorted (keyLe pa_length) (before ++ a :: b :: after) ->
  pa_length a < length < pa_length b ->
  findProfile profiles (profileId a) = Some p1 ->
  findProfile profiles (profileId b) = Some p2 ->
  let t := (length - pa_length a) / (pa_length b - pa_length a) in
  0 < t < 1
  /\ interpolateProfileAtLength length (before ++ a :: b :: after) profiles
       options true
     = if sameProfileId (profileId a) (profileId b)
       then Some (sampleProfilePoints p1 options)
       else blendMerged t (mergeProfilesByAngle p1 p2 options).
Proof.
  intros Hsorted Hlen Hp1 Hp2 t.
  assert (Ht : 0 < t < 1).
  { unfold t. split.
    - apply Rdiv_lt_0_compat; lra.
    - apply (Rmult_lt_reg_r (pa_length b - pa_length a)); [ lra | ].
      replace ((length - pa_length a) / (pa_length b - pa_length a)
               * (pa_length b - pa_length a))
        with (length - pa_length a) by (field; lra).
      lra. }
  split; [ exact Ht | ].
  pose proof (sortBy_id pa_length _ Hsorted) as Hs.
  pose proof (sorted_app_le pa_length _ _ _ Hsorted) as Hbefore.
  assert (Hbracket : findBracket (before ++ a :: b :: after) length = Some (a, b))
    by (apply findBracket_skip; [ exact Hbefore | lra ]).
  assert (Hlast : pa_length b
                  <= pa_length (List.last (before ++ a :: b :: after) a)).
  { rewrite last_app_cons, !last_cons, <- (last_cons b b after).
    apply sorted_first_last.
    apply (sorted_suffix _ (before ++ [a]) (b :: after)).
    now rewrite <- app_assoc. }
  destruct (before ++ a :: b :: after) as [ | first rest ] eqn:Hl.
  { destruct before; discriminate. }
  rewrite (interpolate_unfold _ _ _ _ _ Hs).
  cbn [effectiveLength negb].
  assert (Hfirst : pa_length first <= pa_length a).
  { destruct before as [ | c before' ]; inversion Hl; subst; [ lra | ].
    now inversion Hbefore. }
  rewrite !last_cons in Hlast.
  unfold bracketOf. rewrite last_cons.
  rewrite gtb_false by lra. rewrite ltb_false by lra.
  rewrite Hbracket. cbn [fst snd]. unfold between.
  rewrite Hp1, Hp2. rewrite eqb_false by lra. cbn [orb].
  destruct (sameProfileId _ _); [ reflexivity | ].
  f_equal. fold t. rewrite Rmin_right by lra. apply Rmax_right. lra.
Qed.

End Interpolator.

(** X22 on the table of the tests with P1 at both lengths. *)
Lemma interpolateProfileAtLength_one_profile_witness :
  interpolateProfileAtLength 15 (twoAssignments "P1"%string "P1"%string) testCatalog
    testOptions true
  = Some (sampleProfilePoints prof1 testOptions).
Proof.
  apply (interpolateProfileAtLength_one_profile testCatalog testOptions
           (twoAssignments "P1"%string "P1"%string) "P1"%string prof1 15 true).
  - discriminate.
  - repeat constructor.
  - reflexivity.
Defined.

(** X23 on the table of the tests, at length -5. *)
Lemma interpolateProfileAtLength_outside_witness :
  interpolateProfileAtLength (-5) (twoAssignments "P1"%string "P2"%string) testCatalog
    testOptions true
  = plainProfile testCatalog testOptions (mkProfileAssignment 10 (Some "P1"%string)).
Proof.
  apply (interpolateProfileAtLength_outside testCatalog testOptions
           (twoAssignments "P1"%string "P2"%string) (mkProfileAssignment 10 (Some "P1"%string))
           [ mkProfileAssignment 20 (Some "P2"%string) ] (-5) true).
  - apply twoAssignments_sorted.
  - cbn [effectiveLength negb pa_length]. lra.
Defined.

Lemma twoAssignments_in_order (id1 id2 : ProfileId) :
  StronglySorted (keyLe pa_length) ([] ++ twoAssignments id1 id2).
Proof.
  unfold twoAssignments. cbn [app].
  repeat constructor. unfold keyLe. cbn [pa_length]. lra.
Qed.

(** X24 on the table of the tests, at length 15: half way. *)
Lemma interpolateProfileAtLength_inside_witness :
  0 < (15 - 10) / (20 - 10) < 1
  /\ interpolateProfileAtLength 15 (twoAssignments "P1"%string "P2"%string) testCatalog
       testOptions true
     = blendMerged ((15 - 10) / (20 - 10))
         (mergeProfilesByAngle prof1 prof2 testOptions).
Proof.
  apply (interpolateProfileAtLength_inside testCatalog testOptions [] []
           (mkProfileAssignment 10 (Some "P1"%string))
           (mkProfileAssignment 20 (Some "P2"%string)) prof1 prof2 15).
  - apply twoAssignments_in_order.
  - cbn [pa_length]. lra.
  - reflexivity.
  - reflexivity.
Defined.

(* ================================================================= *)
(** ** Sample lengths of the sweep (collectSampleLengths) *)

Section SampleLengths.

Lemma Int_part_le (a b : R) : a <= b -> (Int_part a <= Int_part b)%Z.
Proof.
  intros Hab. pose proof (base_Int_part a) as [Ha _].
  pose proof (base_Int_part b) as [_ Hb].
  assert (H : IZR (Int_part a) < IZR (Int_part b + 1))
    by (rewrite plus_IZR; lra).
  apply lt_IZR in H. lia.
Qed.

Lemma toFixed6_near (v : R) : Rabs (toFixed6 v - v) <= 5e-7.
Proof.
  unfold toFixed6. destruct (ltb_spec v 0) as [Hv | Hv].
  - pose proof (base_Int_part (- v * 1e6 + 1 / 2)) as [H1 H2].
    apply Rabs_le. lra.
  - pose proof (base_Int_part (v * 1e6 + 1 / 2)) as [H1 H2].
    apply Rabs_le. lra.
Qed.

Lemma toFixed6_nonneg (v : R) : 0 <= v -> 0 <= toFixed6 v.
Proof.
  intros Hv. unfold toFixed6. rewrite ltb_false by lra.
  assert (H : (0 <= Int_part (v * 1e6 + 1 / 2))%Z).
  { rewrite <- (Int_part_IZR 0). apply Int_part_le. lra. }
  apply IZR_le in H. lra.
Qed.

Lemma toFixed6_nonpos (v : R) : v < 0 -> toFixed6 v <= 0.
Proof.
  intros Hv. unfold toFixed6. rewrite ltb_true by lra.
  assert (H : (0 <= Int_part (- v * 1e6 + 1 / 2))%Z).
  { rewrite <- (Int_part_IZR 0). apply Int_part_le. lra. }
  apply IZR_le in H. lra.
Qed.

Lemma toFixed6_0 : toFixed6 0 = 0.
Proof.
  unfold toFixed6. rewrite ltb_false by lra.
  replace (0 * 1e6 + 1 / 2) with (1 / 2) by lra.
  rewrite <- (Int_part_spec (1 / 2) 0); [ lra | simpl; lra ].
Qed.

Lemma toFixed6_monotone (a b : R) : a <= b -> toFixed6 a <= toFixed6 b.
Proof.
  intros Hab.
  destruct (Rlt_dec a 0) as [Ha | Ha], (Rlt_dec b 0) as [Hb | Hb].
  - unfold toFixed6. rewrite !ltb_true by lra.
    assert (H : (Int_part (- b * 1e6 + 1 / 2) <= Int_part (- a * 1e6 + 1 / 2))%Z)
      by (apply Int_part_le; lra).
    apply IZR_le in H. lra.
  - pose proof (toFixed6_nonpos a Ha). pose proof (toFixed6_nonneg b). lra.
  - lra.
  - unfold toFixed6. rewrite !ltb_false by lra.
    assert (H : (Int_part (a * 1e6 + 1 / 2) <= Int_part (b * 1e6 + 1 / 2))%Z)
      by (apply Int_part_le; lra).
    apply IZR_le in H. lra.
Qed.

Lemma setAdd_spec (lengths : list R) (v w : R) :
  In w (setAdd lengths v) <-> w = v \/ In w lengths.
Proof.
  unfold setAdd. destruct (existsb (JS.eqb v) lengths) eqn:E.
  - split; [ now right | ]. intros [-> | H]; [ | exact H ].
    apply existsb_exists in E. destruct E as (u & Hu & Heq).
    destruct (eqb_spec v u); [ now subst | discriminate ].
  - rewrite in_app_iff. cbn [In]. split.
    + intros [H | [H | []]]; [ now right | now left ].
    + intros [-> | H]; [ right; now left | now left ].
Qed.

Lemma setAdd_NoDup (lengths : list R) (v : R) :
  NoDup lengths -> NoDup (setAdd lengths v).
Proof.
  intros Hnd. unfold setAdd. destruct (existsb (JS.eqb v) lengths) eqn:E.
  - exact Hnd.
  - apply NoDup_app; [ exact Hnd | repeat constructor; intros [] | ].
    intros u Hu [Hv | []]. subst u.
    assert (Hex : existsb (JS.eqb v) lengths = true).
    { apply existsb_exists. exists v. split; [ exact Hu | ].
      now rewrite eqb_true. }
    congruence.
Qed.

(** Adding a family of values to the set. *)
Lemma fold_setAdd {A : Type} (f : A -> R) (l : list A) (lengths : list R) :
  let result := fold_left (fun ls a => setAdd ls (f a)) l lengths in
  (NoDup lengths -> NoDup result)
  /\ (forall w, In w result <-> In w lengths \/ exists a, In a l /\ w = f a).
Proof.
  revert lengths. induction l as [ | a l IH ]; intros lengths; cbn [fold_left].
  - split; [ trivial | ]. intros w. split; [ now left | ].
    intros [H | (a & [] & _)]. exact H.
  - destruct (IH (setAdd lengths (f a))) as [Hnd Hin]. cbv zeta in *.
    split; [ intros H; apply Hnd, setAdd_NoDup, H | ].
    intros w. rewrite Hin, setAdd_spec. split.
    + intros [[-> | H] | (b & Hb & ->)].
      * right. exists a. split; [ now left | reflexivity ].
      * now left.
      * right. exists b. split; [ now right | reflexivity ].
    + intros [H | (b & [-> | Hb] & ->)].
      * left. now right.
      * left. now left.
      * right. exists b. now split.
Qed.

Lemma sorted_distinct (l : list R) :
  StronglySorted Rle l -> NoDup l -> StronglySorted Rlt l.
Proof.
  induction 1 as [ | a l Hs IH Ha ]; intros Hnd; constructor.
  - apply IH. now inversion Hnd.
  - inversion Hnd as [ | ? ? Hnotin _ ]; subst.
    rewrite Forall_forall in *. intros b Hb.
    specialize (Ha b Hb). destruct Ha as [Hlt | Heq]; [ exact Hlt | ].
    subst b. contradiction.
Qed.

(** The set of lengths before the sort. *)
Definition collectedLengths (axisData : list Segment)
  (heightAssignments : list HeightAssignment)
  (profileAssignments : list ProfileAssignment) (options : SampleOptions)
  : list R :=
  let lengths :=
    snd (fold_left (sampleAxisSegment (JS.optOr (axisArcStep options) 2))
           axisData (0, [])) in
  let lengths :=
    fold_left (fun ls h => setAdd ls (toFixed6 (JS.orElse (ha_length h) 0)))
      heightAssignments lengths in
  let lengths :=
    fold_left (fun ls p => setAdd ls (toFixed6 (JS.orElse (pa_length p) 0)))
      profileAssignments lengths in
  setAdd (setAdd lengths 0) (toFixed6 (computeAxisTotalLength axisData)).

Lemma collectSampleLengths_unfold (axisData : list Segment)
  (heightAssignments : list HeightAssignment)
  (profileAssignments : list ProfileAssignment) (options : SampleOptions) :
  collectSampleLengths axisData heightAssignments profileAssignments options
  = sortBy (fun v => v)
      (collectedLengths axisData heightAssignments profileAssignments options).
Proof.
  unfold collectSampleLengths, collectedLengths.
  destruct (fold_left _ axisData (0, [])) as [cum lengths]. reflexivity.
Qed.

Lemma sampleAxisSegment_NoDup (step : R) (seg : Segment) (st : R * list R) :
  NoDup (snd st) -> NoDup (snd (sampleAxisSegment step st seg)).
Proof.
  destruct st as [cum lengths]. cbn [snd]. intros Hnd.
  unfold sampleAxisSegment.
  destruct seg as [ s e | s e radius ]; cbn [snd].
  - now apply setAdd_NoDup, setAdd_NoDup.
  - destruct (JS.truthy radius); [ | now apply setAdd_NoDup ].
    destruct (calculateArcCenter s e radius) as [ c | ];
      [ | now apply setAdd_NoDup ].
    cbn [snd]. apply setAdd_NoDup.
    apply (fold_setAdd
             (fun i => toFixed6 (cum + Rabs (arcAngleDiff s e c radius)
                                       * Rabs radius * (INR i / _)))).
    now apply setAdd_NoDup.
Qed.

Lemma axis_fold_NoDup (step : R) (axisData : list Segment) (st : R * list R) :
  NoDup (snd st) -> NoDup (snd (fold_left (sampleAxisSegment step) axisData st)).
Proof.
  revert st. induction axisData as [ | seg rest IH ]; intros st Hnd; [ exact Hnd | ].
  cbn [fold_left]. apply IH, sampleAxisSegment_NoDup, Hnd.
Qed.

Lemma collectSampleLengths_sorted_members (axisData : list Segment)
  (heightAssignments : list HeightAssignment)
  (profileAssignments : list ProfileAssignment) (options : SampleOptions) :
  let result :=
    collectSampleLengths axisData heightAssignments profileAssignments options in
  StronglySorted Rle result
  /\ In 0 result
  /\ In (toFixed6 (computeAxisTotalLength axisData)) result.
Proof.
  cbv zeta. rewrite collectSampleLengths_unfold.
  set (collected := collectedLengths _ _ _ _).
  split; [ exact (sortBy_sorted (fun v : R => v) collected) | ].
  unfold collected, collectedLengths.
  split; (eapply Permutation_in; [ apply sortBy_perm | ]).
  - apply setAdd_spec; right; apply setAdd_spec; now left.
  - apply setAdd_spec; now left.
Qed.

Lemma collectSampleLengths_strict (axisData : list Segment)
  (heightAssignments : list HeightAssignment)
  (profileAssignments : list ProfileAssignment) (options : SampleOptions) :
  StronglySorted Rlt
    (collectSampleLengths axisData heightAssignments profileAssignments options).
Proof.
  rewrite collectSampleLengths_unfold.
  set (collected := collectedLengths _ _ _ _).
  apply sorted_distinct.
  - exact (sortBy_sorted (fun v : R => v) collected).
  - apply (Permutation_NoDup (sortBy_perm (fun v => v) collected)).
    unfold collected, collectedLengths.
    do 2 apply setAdd_NoDup.
    apply (fold_setAdd (fun p => toFixed6 (JS.orElse (pa_length p) 0))).
    apply (fold_setAdd (fun h => toFixed6 (JS.orElse (ha_length h) 0))).
    apply axis_fold_NoDup. constructor.
Qed.

(** X25.  The list of [collectSampleLengths] is strictly increasing (no
    length twice), and it holds 0, the total axis length rounded to six
    decimals, and the rounded length of every height and every profile
    assignment. *)
Theorem collectSampleLengths_increasing (axisData : list Segment)
  (heightAssignments : list HeightAssignment)
  (profileAssignments : list ProfileAssignment) (options : SampleOptions) :
  let result :=
    collectSampleLengths axisData heightAssignments profileAssignments options in
  StronglySorted Rlt result
  /\ In 0 result
  /\ In (toFixed6 (computeAxisTotalLength axisData)) result
  /\ (forall h, In h heightAssignments -> In (toFixed6 (ha_length h)) result)
  /\ (forall p, In p profileAssignments -> In (toFixed6 (pa_length p)) result).
Proof.
  cbv zeta. split; [ apply collectSampleLengths_strict | ].
  destruct (collectSampleLengths_sorted_members axisData heightAssignments
              profileAssignments options) as (_ & H0 & Ht).
  split; [ exact H0 | ]. split; [ exact Ht | ].
  rewrite collectSampleLengths_unfold.
  set (collected := collectedLengths _ _ _ _).
  assert (Hperm : forall v, In v collected -> In v (sortBy (fun v => v) collected)).
  { intros v. apply Permutation_in, sortBy_perm. }
  unfold collected, collectedLengths.
  split.
  - intros h Hh. apply Hperm. do 2 (apply setAdd_spec; right).
    apply (fold_setAdd (fun p => toFixed6 (JS.orElse (pa_length p) 0))). left.
    apply (fold_setAdd (fun h => toFixed6 (JS.orElse (ha_length h) 0))). right.
    exists h. split; [ exact Hh | now rewrite orElse_0 ].
  - intros p Hp. apply Hperm. do 2 (apply setAdd_spec; right).
    apply (fold_setAdd (fun p => toFixed6 (JS.orElse (pa_length p) 0))). right.
    exists p. split; [ exact Hp | now rewrite orElse_0 ].
Qed.

Lemma loopCountBelow_bound (n : R) (i : nat) :
  In i (seq 1 (loopCountBelow n)) -> 1 <= INR i < n.
Proof.
  intros Hi. apply in_seq in Hi. unfold loopCountBelow in Hi.
  pose proof (base_Int_part (- n)) as [H1 H2].
  assert (Hz : (Z.of_nat i <= - Int_part (- n) - 1)%Z) by lia.
  apply IZR_le in Hz. rewrite <- INR_IZR_INZ, minus_IZR, opp_IZR in Hz.
  split; [ | lra ].
  replace 1 with (INR 1) by reflexivity. apply le_INR. lia.
Qed.

(** Every length of the set is between 0 and the rounded [total]. *)
Definition withinAxis (total : R) (lengths : list R) : Prop :=
  Forall (fun v => 0 <= v <= toFixed6 total) lengths.

Lemma withinAxis_add (total : R) (lengths : list R) (v : R) :
  withinAxis total lengths -> 0 <= v <= total ->
  withinAxis total (setAdd lengths (toFixed6 v)).
Proof.
  unfold withinAxis. rewrite !Forall_forall. intros Hl Hv w Hw.
  apply setAdd_spec in Hw. destruct Hw as [-> | Hw]; [ | now apply Hl ].
  split; [ apply toFixed6_nonneg; lra | apply toFixed6_monotone; lra ].
Qed.

Lemma withinAxis_add_zero (total : R) (lengths : list R) :
  withinAxis total lengths -> 0 <= total -> withinAxis total (setAdd lengths 0).
Proof.
  intros Hl Htotal. rewrite <- toFixed6_0. apply withinAxis_add; [ exact Hl | lra ].
Qed.

Lemma sampleAxisSegment_within (step total : R) (seg : Segment)
  (cum : R) (lengths : list R) :
  nonDegenerate seg ->
  0 <= cum -> cum + segmentTotalLength seg <= total ->
  withinAxis total lengths ->
  fst (sampleAxisSegment step (cum, lengths) seg) = cum + segmentTotalLength seg
  /\ withinAxis total (snd (sampleAxisSegment step (cum, lengths) seg)).
Proof.
  intros Hseg Hcum Htotal Hl.
  pose proof (segmentTotalLength_nonneg seg) as Hlen.
  assert (Hfirst : withinAxis total (setAdd lengths (toFixed6 cum)))
    by (apply withinAxis_add; [ exact Hl | lra ]).
  unfold sampleAxisSegment.
  destruct seg as [ s e | s e radius ]; cbn [fst snd].
  - cbn [segmentTotalLength] in *. split; [ reflexivity | ].
    apply withinAxis_add; [ exact Hfirst | lra ].
  - cbn [nonDegenerate] in Hseg.
    destruct (calculateArcCenter s e radius) as [ c | ] eqn:Ec;
      [ | contradiction ].
    destruct (calculateArcCenter_Some _ _ _ _ Ec) as (Hr & _).
    rewrite truthy_true by exact Hr. cbn [fst snd].
    destruct (arc_walk_length s e c radius Ec) as [Harc _].
    rewrite Harc. set (arcLen := segmentTotalLength (Arc s e radius)) in *.
    split; [ reflexivity | ].
    apply withinAxis_add; [ | lra ].
    set (steps := Rmax 1 _).
    assert (Hsteps : 1 <= steps) by apply Rmax_l.
    unfold withinAxis. apply Forall_forall. intros w Hw.
    apply (fold_setAdd (fun i => toFixed6 (cum + arcLen * (INR i / steps))))
      in Hw.
    destruct Hw as [Hw | (i & Hi & ->)].
    + unfold withinAxis in Hfirst. rewrite Forall_forall in Hfirst.
      now apply Hfirst.
    + apply loopCountBelow_bound in Hi.
      assert (Hfrac : 0 <= INR i / steps <= 1).
      { split.
        - apply Rmult_le_pos; [ lra | left; apply Rinv_0_lt_compat; lra ].
        - apply (Rmult_le_reg_r steps); [ lra | ].
          replace (INR i / steps * steps) with (INR i) by (field; lra). lra. }
      split; [ apply toFixed6_nonneg | apply toFixed6_monotone ]; nra.
Qed.

Lemma axis_fold_within (step total : R) (axisData : list Segment)
  (cum : R) (lengths : list R) :
  Forall nonDegenerate axisData ->
  0 <= cum -> cum + computeAxisTotalLength axisData <= total ->
  withinAxis total lengths ->
  withinAxis total
    (snd (fold_left (sampleAxisSegment step) axisData (cum, lengths))).
Proof.
  revert cum lengths.
  induction axisData as [ | seg rest IH ]; intros cum lengths Hnd Hcum Htotal Hl.
  - exact Hl.
  - inversion Hnd as [ | ? ? Hseg Hrest ]; subst.
    rewrite computeAxisTotalLength_cons in Htotal.
    pose proof (segmentTotalLength_nonneg seg) as Hlen.
    pose proof (computeAxisTotalLength_nonneg rest) as Hrestlen.
    destruct (sampleAxisSegment_within step total seg cum lengths Hseg Hcum)
      as [Hfst Hsnd]; [ lra | exact Hl | ].
    cbn [fold_left].
    destruct (sampleAxisSegment step (cum, lengths) seg) as [cum' lengths'].
    cbn [fst snd] in Hfst, Hsnd. subst cum'.
    apply IH; [ exact Hrest | lra | lra | exact Hsnd ].
Qed.

Lemma sorted_head (l : list R) (lo : R) :
  StronglySorted Rle l -> In lo l -> (forall v, In v l -> lo <= v) ->
  List.hd lo l = lo.
Proof.
  intros Hs Hlo Hall. destruct l as [ | a l' ]; [ reflexivity | ].
  cbn [List.hd]. inversion Hs as [ | ? ? _ Ha ]; subst.
  rewrite Forall_forall in Ha.
  destruct Hlo as [-> | Hlo]; [ reflexivity | ].
  specialize (Ha lo Hlo). specialize (Hall a (or_introl eq_refl)). lra.
Qed.

Lemma sorted_last (l : list R) (hi d : R) :
  StronglySorted Rle l -> In hi l -> (forall v, In v l -> v <= hi) ->
  List.last l d = hi.
Proof.
  induction 1 as [ | a l' Hs IH Ha ]; intros Hhi Hall; [ destruct Hhi | ].
  destruct l' as [ | b l'' ].
  - destruct Hhi as [-> | []]. reflexivity.
  - change (List.last (a :: b :: l'') d) with (List.last (b :: l'') d).
    rewrite Forall_forall in Ha. apply IH.
    + destruct Hhi as [-> | Hhi]; [ | exact Hhi ].
      left. specialize (Ha b (or_introl eq_refl)).
      specialize (Hall b (or_intror (or_introl eq_refl))). lra.
    + intros v Hv. apply Hall. now right.
Qed.

Lemma collectSampleLengths_bounds (axisData : list Segment)
  (heightAssignments : list HeightAssignment)
  (profileAssignments : list ProfileAssignment) (options : SampleOptions) :
  let total := computeAxisTotalLength axisData in
  Forall nonDegenerate axisData ->
  Forall (fun h => 0 <= ha_length h <= total) heightAssignments ->
  Forall (fun p => 0 <= pa_length p <= total) profileAssignments ->
  Forall (fun v => 0 <= v <= toFixed6 total)
    (collectSampleLengths axisData heightAssignments profileAssignments options).
Proof.
  intros total Hnd Hheights Hprofiles.
  pose proof (computeAxisTotalLength_nonneg axisData) as Htotal. fold total in Htotal.
  rewrite collectSampleLengths_unfold.
  eapply Permutation_Forall; [ apply sortBy_perm | ].
  unfold collectedLengths. fold total.
  apply (withinAxis_add total _ total); [ | lra ].
  apply withinAxis_add_zero; [ | lra ].
  unfold withinAxis. apply Forall_forall. intros w Hw.
  apply (fold_setAdd (fun p => toFixed6 (JS.orElse (pa_length p) 0))) in Hw.
  destruct Hw as [Hw | (p & Hp & ->)].
  - apply (fold_setAdd (fun h => toFixed6 (JS.orElse (ha_length h) 0))) in Hw.
    destruct Hw as [Hw | (h & Hh & ->)].
    + revert w Hw. apply Forall_forall.
      apply (axis_fold_within _ total axisData 0 []);
        [ exact Hnd | lra | fold total; lra | constructor ].
    + rewrite Forall_forall in Hheights. specialize (Hheights h Hh).
      rewrite orElse_0.
      split; [ apply toFixed6_nonneg | apply toFixed6_monotone ]; lra.
  - rewrite Forall_forall in Hprofiles. specialize (Hprofiles p Hp).
    rewrite orElse_0.
    split; [ apply toFixed6_nonneg | apply toFixed6_monotone ]; lra.
Qed.

(** X26.  On an axis without degenerate arcs and with every assignment
    length between 0 and the total axis length, every sample length is
    between 0 and the rounded total, the first one is 0 and the last one is
    the rounded total, which is within 5e-7 of the total. *)
Theorem collectSampleLengths_spans_axis (axisData : list Segment)
  (heightAssignments : list HeightAssignment)
  (profileAssignments : list ProfileAssignment) (options : SampleOptions) :
  let total := computeAxisTotalLength axisData in
  let result :=
    collectSampleLengths axisData heightAssignments profileAssignments options in
  Forall nonDegenerate axisData ->
  Forall (fun h => 0 <= ha_length h <= total) heightAssignments ->
  Forall (fun p => 0 <= pa_length p <= total) profileAssignments ->
  Forall (fun v => 0 <= v <= toFixed6 total) result
  /\ List.hd 0 result = 0
  /\ List.last result 0 = toFixed6 total
  /\ Rabs (toFixed6 total - total) <= 5e-7.
Proof.
  intros total result Hnd Hheights Hprofiles.
  pose proof (collectSampleLengths_bounds axisData heightAssignments
                profileAssignments options Hnd Hheights Hprofiles) as Hall.
  fold total result in Hall.
  split; [ exact Hall | ].
  destruct (collectSampleLengths_sorted_members axisData heightAssignments
              profileAssignments options) as (Hsorted & H0 & Ht).
  fold result total in Hsorted, H0, Ht.
  rewrite Forall_forall in Hall.
  split; [ | split ].
  - apply sorted_head; [ exact Hsorted | exact H0 | ].
    intros v Hv. now apply Hall.
  - apply sorted_last; [ exact Hsorted | exact Ht | ].
    intros v Hv. now apply Hall.
  - apply toFixed6_near.
Qed.

End SampleLengths.

(** X26 on the axis and the assignments of the sampling test. *)
Lemma collectSampleLengths_spans_axis_witness :
  List.hd 0 (collectSampleLengths testAxis [ mkHeightAssignment 3 0 ]
               [ mkProfileAssignment 7 (Some "p1"%string) ]
               (mkSampleOptions (Some 2) None))
  = 0.
Proof.
  assert (Htotal : 10 <= computeAxisTotalLength testAxis).
  { unfold testAxis. rewrite computeAxisTotalLength_cons.
    pose proof (computeAxisTotalLength_nonneg [ Arc (pt 10 0) (pt 10 10) 10 ]).
    cbn [segmentTotalLength pt x y].
    rewrite (hypot_is (10 - 0) (0 - 0) 10) by lra. lra. }
  apply (collectSampleLengths_spans_axis testAxis [ mkHeightAssignment 3 0 ]
           [ mkProfileAssignment 7 (Some "p1"%string) ]
           (mkSampleOptions (Some 2) None)).
  - destruct testAxis_valid as [_ Hnd]. exact Hnd.
  - repeat constructor; cbn [ha_length]; lra.
  - repeat constructor; cbn [pa_length]; lra.
Defined.

(* ================================================================= *)
(** ** Points on a segment (pointOnSegment) *)


Section OnSegment.

(** X27.  [pointOnSegment] with the default tolerance accepts every point
    of the segment, end points included, also on a segment shorter than
    1e-6.  With a tolerance [tol], an accepted point is less than [tol]
    away from the point of the line through [a] and [b] at a parameter
    from [- tol] to [1 + tol]. *)
Theorem pointOnSegment_accepts (a b : Point2D) :
  (forall s, 0 <= s <= 1 -> pointOnSegment (segmentPoint a b s) a b None = true)
  /\ (forall p tol,
         pointOnSegment p a b (Some tol) = true ->
         exists t,
           - tol <= t <= 1 + tol /\ distance p (segmentPoint a b t) < tol).
Proof.
  split.
  - intros s Hs. unfold pointOnSegment, segmentPoint. cbn [x y].
    set (dx := x b - x a). set (dy := y b - y a).
    set (lenSq := dx * dx + dy * dy).
    assert (Hlen : 0 <= lenSq) by (unfold lenSq; nra).
    destruct (ltb_spec lenSq 1e-12) as [Hshort | Hlong].
    + apply ltb_true.
      pose proof (hypot_nonneg (x a + s * dx - x a) (y a + s * dy - y a)) as H0.
      pose proof (hypot_sq (x a + s * dx - x a) (y a + s * dy - y a)) as Hsq.
      set (h := JS.hypot _ _) in *.
      assert (Hh : h * h = s * s * lenSq) by (rewrite Hsq; unfold lenSq; ring).
      assert (Hss : s * s <= 1) by nra.
      assert (Hbound : h * h < 1e-12) by nra.
      destruct (Rlt_dec h 1e-6) as [ | Hge ]; [ assumption | ].
      exfalso. assert (1e-6 <= h) by lra. nra.
    + replace (((x a + s * dx - x a) * dx + (y a + s * dy - y a) * dy) / lenSq)
        with s by (unfold lenSq; field; fold lenSq; lra).
      rewrite ltb_false by lra. rewrite gtb_false by lra. cbn [orb].
      replace (x a + s * dx - (x a + s * dx)) with 0 by ring.
      replace (y a + s * dy - (y a + s * dy)) with 0 by ring.
      rewrite hypot_0_0. apply ltb_true. lra.
  - intros p tol. unfold pointOnSegment, distance, segmentPoint. cbn [x y].
    set (dx := x b - x a). set (dy := y b - y a).
    set (lenSq := dx * dx + dy * dy).
    destruct (ltb_spec lenSq 1e-12) as [Hshort | Hlong].
    + destruct (ltb_spec (JS.hypot (x p - x a) (y p - y a)) tol) as [Hd | ];
        [ intros _ | discriminate ].
      pose proof (hypot_nonneg (x p - x a) (y p - y a)).
      exists 0. split; [ lra | ].
      replace (x a + 0 * dx) with (x a) by ring.
      replace (y a + 0 * dy) with (y a) by ring. exact Hd.
    + set (t := ((x p - x a) * dx + (y p - y a) * dy) / lenSq).
      unfold JS.gtb.
      destruct (ltb_spec t (- tol)) as [ | Hlo ]; [ discriminate | ].
      destruct (ltb_spec (1 + tol) t) as [ | Hhi ]; [ discriminate | ].
      cbn [orb].
      destruct (ltb_spec (JS.hypot (x p - (x a + t * dx)) (y p - (y a + t * dy)))
                  tol) as [Hd | ]; [ intros _ | discriminate ].
      exists t. split; [ lra | exact Hd ].
Qed.

End OnSegment.

(* ================================================================= *)
(** ** The editors: from points to segments *)


Section Editors.

Definition position (p : EditorPoint) : Point2D := {| x := ep_x p; y := ep_y p |}.

(** An arc that [calculateArcCenter] does not refuse for its radius. *)
Definition properRadius (seg : Segment) : Prop :=
  match seg with
  | Line _ _ => True
  | Arc _ _ radius => radius <> 0
  end.

Lemma segmentTo_ends (prev curr : EditorPoint) :
  segStart (segmentTo prev curr) = position prev
  /\ segEnd (segmentTo prev curr) = position curr
  /\ properRadius (segmentTo prev curr).
Proof.
  unfold segmentTo.
  destruct (ep_type curr) as [ [ | ] | ], (ep_radius curr) as [ r | ];
    cbn [segStart segEnd properRadius]; try (repeat split; reflexivity).
  destruct (eqb_spec r 0) as [Hr | Hr].
  - rewrite andb_false_r. repeat split; reflexivity.
  - rewrite truthy_true by exact Hr. cbn [andb negb segStart segEnd properRadius].
    repeat split. exact Hr.
Qed.

Lemma segmentsBetween_ends (p : EditorPoint) (pts : list EditorPoint) :
  map segStart (segmentsBetween (p :: pts)) = map position (removelast (p :: pts))
  /\ map segEnd (segmentsBetween (p :: pts)) = map position pts
  /\ contiguousFrom (position p) (segmentsBetween (p :: pts))
  /\ Forall properRadius (segmentsBetween (p :: pts)).
Proof.
  revert p. induction pts as [ | q pts IH ]; intros p.
  - cbn. repeat split; constructor.
  - destruct (IH q) as (Hs & He & Hc & Hr).
    destruct (segmentTo_ends p q) as (Hs1 & He1 & Hr1).
    change (segmentsBetween (p :: q :: pts))
      with (segmentTo p q :: segmentsBetween (q :: pts)).
    change (removelast (p :: q :: pts)) with (p :: removelast (q :: pts)).
    cbn [map contiguousFrom]. rewrite Hs, He, Hs1, He1.
    repeat split; try reflexivity; [ exact Hc | constructor; assumption ].
Qed.

(** X28.  The segments the editors build from a list of points: none for
    fewer than two points, otherwise one per point after the first; the
    segments start at the points but the last, in order, and end at the
    points but the first, so each segment starts where the one before it
    ends; and no arc has the radius 0 (a point marked as an arc without a
    radius gives a line). *)
Theorem buildSegmentsFromPoints_contiguous (pts : list EditorPoint) :
  let segs := buildSegmentsFromPoints pts in
  List.length segs = (List.length pts - 1)%nat
  /\ map segStart segs = map position (removelast pts)
  /\ map segEnd segs = map position (tl pts)
  /\ match pts with
     | [] => segs = []
     | p0 :: _ => contiguousFrom (position p0) segs
     end
  /\ Forall properRadius segs.
Proof.
  cbv zeta. unfold buildSegmentsFromPoints.
  destruct pts as [ | p [ | q pts ] ].
  - cbn. repeat split; constructor.
  - cbn. repeat split; constructor.
  - change ((List.length (p :: q :: pts) <? 2)%nat) with false. cbv iota.
    destruct (segmentsBetween_ends p (q :: pts)) as (Hs & He & Hc & Hr).
    split.
    + rewrite <- (length_map segEnd), He, length_map. cbn [List.length]. lia.
    + cbn [tl]. split; [ exact Hs | ]. split; [ exact He | ].
      split; [ exact Hc | exact Hr ].
Qed.

End Editors.

(* ================================================================= *)
(** ** The application: cleaning the assignments, spans of the viewer *)


Section Application.

Lemma App_total_from (segments : list Segment) (acc : R) :
  fold_left
    (fun sum seg =>
       match seg with
       | Line s e => sum + JS.hypot (x e - x s) (y e - y s)
       | Arc s e radius =>
           if JS.truthy radius then
             if JS.hypot (x e - x s) (y e - y s) =? 0 then sum
             else sum + Rabs radius
                        * (2 * asin (Rmin 1 (JS.hypot (x e - x s) (y e - y s)
                                             / (2 * Rabs radius))))
           else sum
       end)
    segments acc
  = acc + computeAxisTotalLength segments.
Proof.
  revert acc. induction segments as [ | seg rest IH ]; intros acc.
  - unfold computeAxisTotalLength. cbn [fold_left]. ring.
  - cbn [fold_left]. rewrite IH, computeAxisTotalLength_cons.
    destruct seg as [ s e | s e radius ]; cbn [segmentTotalLength]; [ ring | ].
    destruct (JS.truthy radius); [ | ring ].
    destruct (_ =? 0); ring.
Qed.

Lemma App_total_agrees (segments : list Segment) :
  App.computeAxisTotalLength segments = computeAxisTotalLength segments.
Proof.
  unfold App.computeAxisTotalLength.
  destruct segments as [ | seg rest ]; [ reflexivity | ].
  cbv zeta. rewrite (App_total_from (seg :: rest) 0). ring.
Qed.

Lemma filter_all {A : Type} (f : A -> bool) (l : list A) :
  Forall (fun a => f a = true) l -> filter f l = l.
Proof.
  induction 1 as [ | a l Ha _ IH ]; [ reflexivity | ].
  cbn [filter]. now rewrite Ha, IH.
Qed.

(** The assignment names no profile, or one of the catalogue. *)
Definition knownProfile (profiles : list Profile) (a : ProfileAssignment) : Prop :=
  match profileId a with
  | None => True
  | Some i => exists p, In p profiles /\ id p = i
  end.

(** X29.  The cleaning of the profile assignments in App.jsx.  It waits
    (no result) exactly when the axis has no length; the two copies of
    [computeAxisTotalLength] agree.  Otherwise the cleaned table is sorted
    by length and holds exactly the assignments of the table that have a
    length from 0 to the total length plus 1e-6 and name no profile or a
    profile of the catalogue; and cleaning a cleaned table changes nothing,
    so the effect comes to rest after one pass. *)
Theorem cleanProfileAssignments_settles (profiles : list Profile)
  (axisData : list Segment) (profileAssignments : list ProfileAssignment) :
  let total := computeAxisTotalLength axisData in
  App.computeAxisTotalLength axisData = total
  /\ match App.cleanProfileAssignments profiles axisData profileAssignments with
     | None => total = 0
     | Some cleaned =>
         0 < total
         /\ StronglySorted (keyLe pa_length) cleaned
         /\ (forall a,
                In a cleaned
                <-> In a profileAssignments
                    /\ 0 <= pa_length a <= total + 1e-6
                    /\ knownProfile profiles a)
         /\ App.cleanProfileAssignments profiles axisData cleaned = Some cleaned
     end.
Proof.
  intros total. split; [ apply App_total_agrees | ].
  pose proof (computeAxisTotalLength_nonneg axisData) as Hnonneg.
  fold total in Hnonneg.
  unfold App.cleanProfileAssignments. rewrite App_total_agrees. fold total.
  destruct (leb_spec total 0) as [Hzero | Hpos]; [ lra | ].
  set (keep := fun a : ProfileAssignment => _).
  assert (Hkeep : forall a,
             keep a = true
             <-> 0 <= pa_length a <= total + 1e-6 /\ knownProfile profiles a).
  { intros a. unfold keep, knownProfile, JS.geb.
    destruct (leb_spec 0 (pa_length a)) as [H0 | H0];
      destruct (leb_spec (pa_length a) (total + 1e-6)) as [H1 | H1];
      rewrite ?andb_false_r, ?andb_true_r;
      try (split; [ discriminate | intros [? _]; lra ]).
    destruct (profileId a) as [ i | ].
    - split.
      + intros Hex. split; [ lra | ].
        apply existsb_exists in Hex. destruct Hex as (j & Hj & Heq).
        apply in_map_iff in Hj. destruct Hj as (p & <- & Hp).
        exists p. split; [ exact Hp | ].
        apply String.eqb_eq in Heq. now symmetry.
      + intros [_ (p & Hp & Hid)]. apply existsb_exists.
        exists (id p). split; [ now apply in_map | ].
        apply String.eqb_eq. now symmetry.
    - split; [ intros _; split; [ lra | exact I ] | reflexivity ]. }
  set (cleaned := sortBy pa_length (filter keep profileAssignments)).
  assert (Hmem : forall a, In a cleaned
                           <-> In a profileAssignments
                               /\ 0 <= pa_length a <= total + 1e-6
                               /\ knownProfile profiles a).
  { intros a. unfold cleaned. rewrite <- Hkeep, <- filter_In. split.
    - apply Permutation_in, Permutation_sym, sortBy_perm.
    - apply Permutation_in, sortBy_perm. }
  assert (Hsorted : StronglySorted (keyLe pa_length) cleaned)
    by apply sortBy_sorted.
  split; [ lra | ]. split; [ exact Hsorted | ]. split; [ exact Hmem | ].
  f_equal. rewrite filter_all.
  - now apply sortBy_id.
  - apply Forall_forall. intros a Ha. apply Hkeep. now apply Hmem.
Qed.

Definition lenA (span : R * R * option R) : R := fst (fst span).
Definition lenB (span : R * R * option R) : R := snd (fst span).
Definition lenC (span : R * R * option R) : option R := snd span.

Lemma viewerSpans_sorted (lengths : list R) :
  StronglySorted Rlt lengths ->
  Forall (fun span =>
            In (lenA span) lengths /\ In (lenB span) lengths
            /\ lenA span < lenB span
            /\ match lenC span with
               | Some c => In c lengths /\ lenB span < c
               | None => True
               end)
    (viewerSpans lengths).
Proof.
  induction 1 as [ | a l Hs IH Ha ]; [ constructor | ].
  destruct l as [ | b l' ]; [ constructor | ].
  change (viewerSpans (a :: b :: l'))
    with ((a, b, match l' with c :: _ => Some c | [] => None end)
          :: viewerSpans (b :: l')).
  constructor.
  - cbn [lenA lenB lenC fst snd].
    split; [ now left | ]. split; [ right; now left | ].
    inversion Ha as [ | ? ? Hab _ ]; subst. split; [ exact Hab | ].
    destruct l' as [ | c l'' ]; [ exact I | ].
    split; [ right; right; now left | ].
    inversion Hs as [ | ? ? _ Hb ]; subst. now inversion Hb.
  - eapply Forall_impl; [ | exact IH ].
    intros span (HA & HB & Hlt & HC).
    split; [ now right | ]. split; [ now right | ]. split; [ exact Hlt | ].
    destruct (lenC span); [ | exact I ].
    destruct HC as [HC Hlt']. split; [ now right | exact Hlt' ].
Qed.

Lemma viewerSpans_length (lengths : list R) :
  List.length (viewerSpans lengths) = (List.length lengths - 1)%nat.
Proof.
  induction lengths as [ | a l IH ]; [ reflexivity | ].
  destruct l as [ | b l' ]; [ reflexivity | ].
  change (viewerSpans (a :: b :: l'))
    with ((a, b, match l' with c :: _ => Some c | [] => None end)
          :: viewerSpans (b :: l')).
  cbn [List.length] in *. lia.
Qed.

(** X30.  The spans TunnelViewer sweeps.  There is one span for each
    sample length but the last; in every span [lenA < lenB], and the third
    length, when there is one, is beyond [lenB].  On an axis without
    degenerate arcs, with all assignment lengths between 0 and the total
    length, the spans lie between 0 and the rounded total and no third
    length is 0: [buildProfileSection3DRange] is never called with a
    third length that it would treat as absent. *)
Theorem viewerSpans_increase (axisData : list Segment)
  (heightAssignments : list HeightAssignment)
  (profileAssignments : list ProfileAssignment) :
  let total := computeAxisTotalLength axisData in
  let lengths :=
    viewerSampleLengths axisData heightAssignments profileAssignments in
  let spans := viewerSpans lengths in
  List.length spans = (List.length lengths - 1)%nat
  /\ Forall (fun span =>
               lenA span < lenB span
               /\ match lenC span with
                  | Some c => lenB span < c
                  | None => True
                  end)
       spans
  /\ (Forall nonDegenerate axisData ->
      Forall (fun h => 0 <= ha_length h <= total) heightAssignments ->
      Forall (fun p => 0 <= pa_length p <= total) profileAssignments ->
      Forall (fun span =>
                0 <= lenA span /\ lenB span <= toFixed6 total
                /\ match lenC span with
                   | Some c => JS.truthy c = true /\ c <= toFixed6 total
                   | None => True
                   end)
        spans).
Proof.
  intros total lengths spans.
  pose proof (viewerSpans_sorted lengths
                (collectSampleLengths_strict axisData heightAssignments
                   profileAssignments _)) as Hspans.
  fold spans in Hspans.
  split; [ apply viewerSpans_length | ].
  split.
  - eapply Forall_impl; [ | exact Hspans ].
    intros span (_ & _ & Hlt & HC). split; [ exact Hlt | ].
    destruct (lenC span); [ apply HC | exact I ].
  - intros Hnd Hheights Hprofiles.
    pose proof (collectSampleLengths_bounds axisData heightAssignments
                  profileAssignments (mkSampleOptions (Some 10) (Some 1))
                  Hnd Hheights Hprofiles) as Hall.
    fold total in Hall. rewrite Forall_forall in Hall.
    eapply Forall_impl; [ | exact Hspans ].
    intros span (HA & HB & Hlt & HC).
    apply Hall in HA, HB.
    split; [ lra | ]. split; [ lra | ].
    destruct (lenC span) as [ c | ]; [ | exact I ].
    destruct HC as [HC Hlt']. apply Hall in HC.
    split; [ apply truthy_true; lra | lra ].
Qed.

End Application.
